(** * pillbug: thread reconstruction (views/postpage.tsx) and the default
      feed rule presets (components/feed/index.tsx).

    The post page builds a tree of [IPostTreeNode] objects out of the flat
    context returned by the server.  The nodes are mutable JavaScript
    objects that are shared between the tree and the identifier index
    ([idMap]); they are modelled as cells of a heap addressed by
    references, and the tree handed to the rendering layer is read back
    from the heap by following the [children] arrays. *)

From stdpp Require Import gmap strings list fin_maps.

#[local] Set Warnings "-register-all".

(** ** Posts *)

(** The fields of megalodon's [Status] entity that the page reads.  Of
    [reblog] only the identifier of the reblogged status is consulted. *)
Module Status.
Record t := mk {
  id : string;
  in_reply_to_id : option string;
  reblog : option string
}.
End Status.

(** ** Nodes as heap objects *)

Abbreviation ref := nat (only parsing).

Inductive IPostTreeNode :=
| PostTreeStatusNode (status : Status.t) (children : list ref) (highlighted : bool)
| PostTreePlaceholderNode (message : string) (children : list ref) (highlighted : bool).

Definition children (n : IPostTreeNode) : list ref :=
  match n with
  | PostTreeStatusNode _ c _ => c
  | PostTreePlaceholderNode _ c _ => c
  end.

Definition highlighted (n : IPostTreeNode) : bool :=
  match n with
  | PostTreeStatusNode _ _ h => h
  | PostTreePlaceholderNode _ _ h => h
  end.

Definition tryGetStatus (n : IPostTreeNode) : option Status.t :=
  match n with
  | PostTreeStatusNode s _ _ => Some s
  | PostTreePlaceholderNode _ _ _ => None
  end.

(** [node.children.push(c)] *)
Definition push (c : ref) (n : IPostTreeNode) : IPostTreeNode :=
  match n with
  | PostTreeStatusNode s cs h => PostTreeStatusNode s (cs ++ [c]) h
  | PostTreePlaceholderNode m cs h => PostTreePlaceholderNode m (cs ++ [c]) h
  end.

(** [new ...]: the object gets the next free reference. *)
Definition alloc (n : IPostTreeNode) (h : list IPostTreeNode) : list IPostTreeNode * ref :=
  (h ++ [n], length h).

Definition push_child (parent child : ref) (h : list IPostTreeNode) : list IPostTreeNode :=
  alter (push child) parent h.

(** ** The tree seen by the rendering layer *)

Inductive PostTree :=
| StatusNode (status : Status.t) (kids : list PostTree) (hl : bool)
| PlaceholderNode (message : string) (kids : list PostTree) (hl : bool).

Definition kids (t : PostTree) : list PostTree :=
  match t with
  | StatusNode _ k _ => k
  | PlaceholderNode _ k _ => k
  end.

Definition treeStatus (t : PostTree) : option Status.t :=
  match t with
  | StatusNode s _ _ => Some s
  | PlaceholderNode _ _ _ => None
  end.

Definition mkTree (n : IPostTreeNode) (k : list PostTree) : PostTree :=
  match n with
  | PostTreeStatusNode s _ h => StatusNode s k h
  | PostTreePlaceholderNode m _ h => PlaceholderNode m k h
  end.

(** Reading the object graph below [r] back as a tree.  [fuel] bounds the
    depth that is followed. *)
Fixpoint treeOf (fuel : nat) (h : list IPostTreeNode) (r : ref) : option PostTree :=
  match fuel with
  | 0 => None
  | S fuel' =>
      match h !! r with
      | None => None
      | Some n =>
          match mapM (treeOf fuel' h) (children n) with
          | None => None
          | Some k => Some (mkTree n k)
          end
      end
  end.

(** ** State of a full build *)

Record BuildState := mkBuild {
  heap : list IPostTreeNode;
  idMap : gmap string ref;
  unsortedStatuses : list Status.t
}.

(** ** locateRootNode *)

(** [(rootPost as PostTreeStatusNode).status.in_reply_to_id] *)
Definition rootInReplyTo (h : list IPostTreeNode) (rootPost : ref) : option string :=
  match h !! rootPost with
  | Some n =>
      match tryGetStatus n with
      | Some s => Status.in_reply_to_id s
      | None => None
      end
  | None => None
  end.

(** The predicate given to [findIndex]: [s.id === target].  A [null]
    target is equal to no identifier. *)
Definition idIs (target : option string) (s : Status.t) : Prop :=
  Some (Status.id s) = target.

Global Instance idIs_dec target s : Decision (idIs target s) | 100.
Proof. unfold idIs. apply _. Defined.

(** One test of the [while] condition followed by one run of the body.
    [status] is the constant bound before the loop, that is, the requested
    status. *)
Fixpoint locateRootLoop (fuel : nat) (status : Status.t) (rootPost : ref)
    (st : BuildState) : option (ref * BuildState) :=
  match fuel with
  | 0 => None
  | S fuel' =>
      match Status.in_reply_to_id status with
      | None => Some (rootPost, st)
      | Some _ =>
          match list_find (idIs (rootInReplyTo (heap st) rootPost)) (unsortedStatuses st) with
          | None => Some (rootPost, st)
          | Some (parentStatusIndex, newRootStatus) =>
              let '(h', rootPost') :=
                alloc (PostTreeStatusNode newRootStatus [rootPost] false) (heap st) in
              locateRootLoop fuel' status rootPost'
                (mkBuild h' (<[Status.id status := rootPost']> (idMap st))
                   (delete parentStatusIndex (unsortedStatuses st)))
          end
      end
  end.

Definition locateRootNode (fuel : nat) (requestedStatus : Status.t) (st : BuildState)
    : option (ref * BuildState) :=
  let '(h, rootPost) := alloc (PostTreeStatusNode requestedStatus [] true) (heap st) in
  locateRootLoop fuel requestedStatus rootPost
    (mkBuild h (<[Status.id requestedStatus := rootPost]> (idMap st)) (unsortedStatuses st)).

(** ** attachStatusesToTree *)

(** The shared tail of the two attaching branches of the [for] body:
    [new PostTreeStatusNode(status, [])], [idMap.set], [children.push],
    [unsortedStatuses.splice(i, 1)]. *)
Definition attachAt (parent : ref) (i : nat) (status : Status.t) (st : BuildState)
    : BuildState :=
  let '(h, s) := alloc (PostTreeStatusNode status [] false) (heap st) in
  mkBuild (push_child parent s h)
          (<[Status.id status := s]> (idMap st))
          (delete i (unsortedStatuses st)).

(** The [for] loop from index [i] on.  After a splice the index is still
    incremented, so the element that moved into slot [i] is not looked at
    in this pass. *)
Fixpoint forLoop (fuel : nat) (rootNode : ref) (i numAdded : nat) (st : BuildState)
    : option (nat * BuildState) :=
  match fuel with
  | 0 => None
  | S fuel' =>
      match unsortedStatuses st !! i with
      | None => Some (numAdded, st)
      | Some status =>
          match Status.in_reply_to_id status with
          | None =>
              forLoop fuel' rootNode (S i) (S numAdded) (attachAt rootNode i status st)
          | Some parentId =>
              match idMap st !! parentId with
              | Some existingParent =>
                  forLoop fuel' rootNode (S i) (S numAdded)
                    (attachAt existingParent i status st)
              | None => forLoop fuel' rootNode (S i) numAdded st
              end
          end
      end
  end.

(** JavaScript's rendering of a nullable string inside a template. *)
Definition showNullable (o : option string) : string :=
  match o with
  | Some s => s
  | None => "null"
  end.

(** The [numAdded === 0] branch: [unsortedStatuses.pop()] and what follows.
    Note which node is pushed onto the root. *)
Definition handleStuck (rootNode : ref) (st : BuildState) : BuildState :=
  match last (unsortedStatuses st) with
  | None => st
  | Some status =>
      let '(h1, statusNode) := alloc (PostTreeStatusNode status [] false) (heap st) in
      let '(h2, missingPostMarker) :=
        alloc (PostTreePlaceholderNode
                 ("Missing post id " +:+ showNullable (Status.in_reply_to_id status))
                 [statusNode] false) h1 in
      mkBuild (push_child rootNode statusNode h2)
              (<[Status.id status := missingPostMarker]> (idMap st))
              (removelast (unsortedStatuses st))
  end.

(** One run of the body of the outer [while]; [None] in the second
    component stands for [break]. *)
Definition attachPass (rootNode : ref) (st : BuildState) : option (BuildState * bool) :=
  match forLoop (S (length (unsortedStatuses st))) rootNode 0 0 st with
  | None => None
  | Some (numAdded, st1) =>
      match unsortedStatuses st1 with
      | [] => Some (st1, false)
      | _ :: _ =>
          if decide (numAdded = 0) then Some (handleStuck rootNode st1, true)
          else Some (st1, true)
      end
  end.

Fixpoint attachLoop (fuel : nat) (rootNode : ref) (st : BuildState) : option BuildState :=
  match fuel with
  | 0 => None
  | S fuel' =>
      match unsortedStatuses st with
      | [] => Some st
      | _ :: _ =>
          match attachPass rootNode st with
          | None => None
          | Some (st', false) => Some st'
          | Some (st', true) => attachLoop fuel' rootNode st'
          end
      end
  end.

Definition attachStatusesToTree (rootNode : ref) (st : BuildState) : option BuildState :=
  attachLoop (S (length (unsortedStatuses st))) rootNode st.

(** ** The full build, from the fetched context to the returned root *)

Definition initialState (ancestors descendants : list Status.t) : BuildState :=
  mkBuild [] ∅ (ancestors ++ descendants).

Definition buildState (requestedStatus : Status.t) (ancestors descendants : list Status.t)
    : option (ref * BuildState) :=
  let st0 := initialState ancestors descendants in
  match locateRootNode (S (length (unsortedStatuses st0))) requestedStatus st0 with
  | None => None
  | Some (rootPost, st1) =>
      match attachStatusesToTree rootPost st1 with
      | None => None
      | Some st2 => Some (rootPost, st2)
      end
  end.

Definition buildThreadTree (requestedStatus : Status.t) (ancestors descendants : list Status.t)
    : option PostTree :=
  match buildState requestedStatus ancestors descendants with
  | None => None
  | Some (rootPost, st) => treeOf (length (heap st)) (heap st) rootPost
  end.

(** ** Exceptions and the collaborating client *)

(** What a [catch] clause can tell apart: a thrown [Error] object with its
    message, or any other thrown value. *)
Inductive Exn :=
| ErrorObject (message : string)
| OtherThrown.

Inductive Outcome (A : Type) :=
| Returned (a : A)
| Thrown (e : Exn).
Arguments Returned {A} a.
Arguments Thrown {A} e.

Record Response (A : Type) := mkResponse {
  status : nat;
  statusText : string;
  data : A
}.
Arguments mkResponse {A}.
Arguments status {A}.
Arguments statusText {A}.
Arguments data {A}.

Record Context := mkContext {
  ancestors : list Status.t;
  descendants : list Status.t
}.

(** The two calls made on the authenticated client.  An awaited call
    either yields a response or rejects.  The context carried by a response
    may be [undefined]. *)
Record Client := mkClient {
  getStatus : string → Outcome (Response Status.t);
  getStatusContext : string → Outcome (Response (option Context))
}.

Record LoadPostsProps := mkLoadProps {
  postId : string;
  newCommentId : option string
}.

(** ** The incremental patch: tryAttachTo *)

Definition newReplyNode (newComment : Status.t) : PostTree :=
  StatusNode newComment [] true.

(** The loop [for (const child of node.children) tryAttachTo(child)], with
    the captured variables [visited] and [success] passed in and out. *)
Definition forChildren
    (tryAttachTo : PostTree → list string → bool → Outcome (PostTree * list string * bool))
    : list PostTree → list string → bool → Outcome (list PostTree * list string * bool) :=
  fix go (cs : list PostTree) (visited : list string) (success : bool) :=
    match cs with
    | [] => Returned ([], visited, success)
    | child :: cs' =>
        match tryAttachTo child visited success with
        | Thrown e => Thrown e
        | Returned (child', visited', success') =>
            match go cs' visited' success' with
            | Thrown e => Thrown e
            | Returned (cs'', visited'', success'') =>
                Returned (child' :: cs'', visited'', success'')
            end
        end
    end.

(** The closure [tryAttachTo].  The [return] after a successful push leaves
    only the current call: the loops of the callers go on with the
    remaining siblings. *)
Fixpoint tryAttachTo (newComment : Status.t) (node : PostTree)
    (visited : list string) (success : bool)
    : Outcome (PostTree * list string * bool) :=
  match node with
  | StatusNode status cs hl =>
      if decide (Status.id status ∈ visited) then
        Thrown (ErrorObject ("visited the same status " +:+ Status.id status +:+ " twice."))
      else
        let visited := visited ++ [Status.id status] in
        if decide (Some (Status.id status) = Status.in_reply_to_id newComment) then
          Returned (StatusNode status (cs ++ [newReplyNode newComment]) hl, visited, true)
        else
          match forChildren (tryAttachTo newComment) cs visited success with
          | Thrown e => Thrown e
          | Returned (cs', visited', success') =>
              Returned (StatusNode status cs' hl, visited', success')
          end
  | PlaceholderNode message cs hl =>
      match forChildren (tryAttachTo newComment) cs visited success with
      | Thrown e => Thrown e
      | Returned (cs', visited', success') =>
          Returned (PlaceholderNode message cs' hl, visited', success')
      end
  end.

(** [previousTree.children.push(...)] *)
Definition pushKid (c : PostTree) (t : PostTree) : PostTree :=
  match t with
  | StatusNode s k h => StatusNode s (k ++ [c]) h
  | PlaceholderNode m k h => PlaceholderNode m (k ++ [c]) h
  end.

(** The patch branch once the new comment has been fetched. *)
Definition patchNewReply (previousTree : PostTree) (newComment : Status.t)
    : Outcome PostTree :=
  match tryAttachTo newComment previousTree [] false with
  | Thrown e => Thrown e
  | Returned (tree, _, true) => Returned tree
  | Returned (tree, _, false) => Returned (pushKid (newReplyNode newComment) tree)
  end.

(** ** fetchPostInfoTree *)

Definition contextFailureNode (postId : string) (e : Exn) : PostTree :=
  match e with
  | ErrorObject message =>
      PlaceholderNode ("Failed to get context for post " +:+ postId +:+ ": " +:+ message)
        [] false
  | OtherThrown =>
      PlaceholderNode ("Failed to get context for post " +:+ postId +:+ ": unknown error")
        [] false
  end.

Section Fetch.
(** [unwrapResponse] comes from [~/lib/clientUtil]; all that is used of it
    is that it returns the payload of a response or throws. *)
Variable unwrapResponse : ∀ A : Type, Response A → Outcome A.

(** The fetching part of the [try] block. *)
Definition fetchContext (client : Client) (requestedStatus : Status.t) : Outcome Context :=
  let postIdForContext :=
    default (Status.id requestedStatus) (Status.reblog requestedStatus) in
  match getStatusContext client postIdForContext with
  | Thrown e => Thrown e
  | Returned response =>
      match unwrapResponse _ response with
      | Thrown e => Thrown e
      | Returned None => Thrown (ErrorObject "status context undefined")
      | Returned (Some requestedStatusContext) => Returned requestedStatusContext
      end
  end.

(** The [try]/[catch] of the full-build branch.  [None] only when the
    fuel of the loops runs out. *)
Definition fullBuild (client : Client) (postId : string) (requestedStatus : Status.t)
    : option PostTree :=
  match fetchContext client requestedStatus with
  | Returned requestedStatusContext =>
      buildThreadTree requestedStatus
        (ancestors requestedStatusContext) (descendants requestedStatusContext)
  | Thrown e =>
      Some (StatusNode requestedStatus [contextFailureNode postId e] true)
  end.

Definition fetchPostInfoTree (loadPostsProps : LoadPostsProps)
    (signedInState : option Client) (previousTree : option PostTree)
    : option (Outcome PostTree) :=
  match signedInState with
  | None => Some (Returned (PlaceholderNode "not signed in" [] false))
  | Some client =>
      match previousTree, newCommentId loadPostsProps with
      | Some previousTree, Some newCommentId =>
          match getStatus client newCommentId with
          | Thrown e => Some (Thrown e)
          | Returned newCommentRequest =>
              if decide (status newCommentRequest = 200) then
                Some (patchNewReply previousTree (data newCommentRequest))
              else
                Some (Thrown (ErrorObject
                  ("Failed to get new comment " +:+ newCommentId +:+ ": "
                     +:+ statusText newCommentRequest)))
          end
      | _, _ =>
          match getStatus client (postId loadPostsProps) with
          | Thrown e => Some (Thrown e)
          | Returned response =>
              match unwrapResponse _ response with
              | Thrown e => Some (Thrown e)
              | Returned requestedStatus =>
                  Returned <$> fullBuild client (postId loadPostsProps) requestedStatus
              end
          end
      end
  end.
End Fetch.

(** ** Default feed rules (components/feed/index.tsx) *)

Module Feed.
Inductive Operator := equal | notEqual.

(** One entry of a condition list: [{fact, operator, path?, value}]. *)
Record Condition := mkCondition {
  fact : string;
  operator : Operator;
  path : option string;
  value : option string
}.

(** [{ all: [...] }] *)
Inductive Conditions := all (cs : list Condition).

(** [{ type: "hidePost" }], [{ type: "attachLinked" }],
    [{ type: "applyLabel", params: { label } }] *)
Inductive Event :=
| hidePost
| attachLinked
| applyLabel (label : string).

Record FeedRuleProperties := mkRule {
  name : string;
  conditions : Conditions;
  event : Event
}.

Definition defaultHomeFeedRules : list FeedRuleProperties :=
  [ mkRule "hide replies from feed"
      (all [ mkCondition "in_reply_to_id" notEqual None None ])
      hidePost;
    mkRule "attach linked ancestor posts to all posts when available"
      (all [ mkCondition "id" notEqual None None ])
      attachLinked ].

Definition defaultFeedRules : list FeedRuleProperties :=
  [ mkRule "hide replies from feed"
      (all [ mkCondition "in_reply_to_id" notEqual None None ])
      hidePost;
    mkRule "attach linked ancestor posts to all posts when available"
      (all [ mkCondition "id" notEqual None None ])
      attachLinked;
    mkRule "label posts written with pillbug"
      (all [ mkCondition "application" equal (Some "$.name") (Some "pillbug") ])
      (applyLabel "pillbug") ].
End Feed.

(** ** Observations on returned trees *)

(** Identifiers of the posts wrapped by the status nodes, in display order. *)
Fixpoint tree_ids (t : PostTree) : list string :=
  match t with
  | StatusNode s k _ => Status.id s :: (k ≫= tree_ids)
  | PlaceholderNode _ k _ => k ≫= tree_ids
  end.

(** The posts wrapped by the status nodes, in display order. *)
Fixpoint tree_posts (t : PostTree) : list Status.t :=
  match t with
  | StatusNode s k _ => s :: (k ≫= tree_posts)
  | PlaceholderNode _ k _ => k ≫= tree_posts
  end.

Fixpoint placeholderCount (t : PostTree) : nat :=
  match t with
  | StatusNode _ k _ => sum_list_with placeholderCount k
  | PlaceholderNode _ k _ => S (sum_list_with placeholderCount k)
  end.

Fixpoint nodeCount (t : PostTree) : nat :=
  match t with
  | StatusNode _ k _ => S (sum_list_with nodeCount k)
  | PlaceholderNode _ k _ => S (sum_list_with nodeCount k)
  end.

(** What identifies a node when edges are compared: the identifier of its
    post, or the message of a placeholder. *)
Definition nodeKey (t : PostTree) : string + string :=
  match t with
  | StatusNode s _ _ => inl (Status.id s)
  | PlaceholderNode m _ _ => inr m
  end.

(** The parent/child relationships of a tree. *)
Fixpoint tree_edges (t : PostTree) : list ((string + string) * (string + string)) :=
  match t with
  | StatusNode s k _ =>
      ((λ c, (inl (Status.id s), nodeKey c)) <$> k) ++ (k ≫= tree_edges)
  | PlaceholderNode m k _ =>
      ((λ c, (inr m, nodeKey c)) <$> k) ++ (k ≫= tree_edges)
  end.

(** The node found by following child positions from the root. *)
Fixpoint subtree_at (p : list nat) (t : PostTree) : option PostTree :=
  match p with
  | [] => Some t
  | i :: p' =>
      match kids t !! i with
      | Some c => subtree_at p' c
      | None => None
      end
  end.

(** The payload of a node without its children: wrapped status or message,
    and the highlighted flag. *)
Definition nodeLabel (t : PostTree) : (Status.t + string) * bool :=
  match t with
  | StatusNode s _ h => (inl s, h)
  | PlaceholderNode m _ h => (inr m, h)
  end.

(** Modelled from the spec: [unwrapResponse] of [~/lib/clientUtil] is not
    among the sources; the client contract says a call fails when the
    server returns non-success.  Used only to run the fetcher on concrete
    inputs. *)
Definition unwrapOn200 (A : Type) (r : Response A) : Outcome A :=
  if decide (status r = 200) then Returned (data r)
  else Thrown (ErrorObject (statusText r)).

(** ** Object trees

    The shape of the object graph below a reference, with the reference and
    the object found at every position.  [Repr h T] says that [T] is what
    one sees in heap [h] when following [children] from the root of [T]. *)

Inductive OTree :=
| ONode (r : ref) (n : IPostTreeNode) (k : list OTree).

Definition oref (T : OTree) : ref := match T with ONode r _ _ => r end.

Fixpoint orefs (T : OTree) : list ref :=
  match T with ONode r _ k => r :: (k ≫= orefs) end.

Fixpoint erase (T : OTree) : PostTree :=
  match T with ONode _ n k => mkTree n (erase <$> k) end.

Inductive Repr (h : list IPostTreeNode) : OTree → Prop :=
| Repr_node r n k :
    h !! r = Some n →
    children n = oref <$> k →
    Forall (Repr h) k →
    Repr h (ONode r n k).

(** The effect of [push_child p (oref C)] on the shape: [C] becomes the last
    child wherever the object [p] occurs. *)
Fixpoint graft (p : ref) (C : OTree) (T : OTree) : OTree :=
  match T with
  | ONode r n k =>
      if decide (r = p)
      then ONode r (push (oref C) n) ((graft p C <$> k) ++ [C])
      else ONode r n (graft p C <$> k)
  end.

Definition leaf (r : ref) (s : Status.t) : OTree :=
  ONode r (PostTreeStatusNode s [] false) [].

(** Positions in a shape, as for [subtree_at]. *)
Fixpoint osubtree_at (p : list nat) (T : OTree) : option OTree :=
  match p with
  | [] => Some T
  | i :: p' =>
      match T with
      | ONode _ _ k =>
          match k !! i with
          | Some c => osubtree_at p' c
          | None => None
          end
      end
  end.

(** [C] made the last child of the node at position [p]. *)
Fixpoint oappendAt (p : list nat) (C : OTree) (T : OTree) : option OTree :=
  match T with
  | ONode r n k =>
      match p with
      | [] => Some (ONode r (push (oref C) n) (k ++ [C]))
      | i :: p' =>
          match k !! i with
          | Some x =>
              match oappendAt p' C x with
              | Some x' => Some (ONode r n (<[i := x']> k))
              | None => None
              end
          | None => None
          end
      end
  end.

Definition setKids (k : list PostTree) (t : PostTree) : PostTree :=
  match t with
  | StatusNode s _ h => StatusNode s k h
  | PlaceholderNode m _ h => PlaceholderNode m k h
  end.

(** The same on returned trees: [c] made the last child of the node at
    position [p], everything else as it was. *)
Fixpoint appendAt (p : list nat) (c : PostTree) (t : PostTree) : option PostTree :=
  match p with
  | [] => Some (pushKid c t)
  | i :: p' =>
      match kids t !! i with
      | Some x =>
          match appendAt p' c x with
          | Some x' => Some (setKids (<[i := x']> (kids t)) t)
          | None => None
          end
      | None => None
      end
  end.

(** ** The build seen on shapes

    [Inv rootNode st T]: the shape [T] is what hangs below [rootNode] in
    the heap of [st], no object occurs twice in it, and the index only
    holds references to allocated objects. *)

Record Inv (rootNode : ref) (st : BuildState) (T : OTree) : Prop := mkInv {
  inv_repr : Repr (heap st) T;
  inv_root : oref T = rootNode;
  inv_nodup : NoDup (orefs T);
  inv_idMap : ∀ k r, idMap st !! k = Some r → r < length (heap st)
}.

(** A post the [for] loop passes over: it replies to an identifier that is
    not in the index. *)
Definition stuckOn (st : BuildState) (x : Status.t) : Prop :=
  ∃ parentId, Status.in_reply_to_id x = Some parentId ∧ idMap st !! parentId = None.

(** The three ways in which [attachStatusesToTree] changes the state, each
    with its effect on the shape below the root.  The stuck branch is only
    taken after a pass that passed over every post of the pool. *)
Inductive Attached (rootNode : ref) : BuildState * OTree → BuildState * OTree → Prop :=
| attached_top st T i status :
    unsortedStatuses st !! i = Some status →
    Status.in_reply_to_id status = None →
    Attached rootNode (st, T)
      (attachAt rootNode i status st,
       graft rootNode (leaf (length (heap st)) status) T)
| attached_reply st T i status parentId existingParent :
    unsortedStatuses st !! i = Some status →
    Status.in_reply_to_id status = Some parentId →
    idMap st !! parentId = Some existingParent →
    Attached rootNode (st, T)
      (attachAt existingParent i status st,
       graft existingParent (leaf (length (heap st)) status) T)
| attached_stuck st T status :
    last (unsortedStatuses st) = Some status →
    (∀ x, x ∈ unsortedStatuses st → stuckOn st x) →
    Attached rootNode (st, T)
      (handleStuck rootNode st,
       graft rootNode (leaf (length (heap st)) status) T).

(** The state in which [locateRootNode] enters its loop. *)
Definition rootedState (requestedStatus : Status.t) (pool : list Status.t) : BuildState :=
  mkBuild [PostTreeStatusNode requestedStatus [] true]
          {[Status.id requestedStatus := 0]} pool.

(** One step up: the state and shape after the body of the [while]. *)
Definition raisedState (status newRootStatus : Status.t) (rootPost i : nat)
    (st : BuildState) : BuildState :=
  mkBuild (heap st ++ [PostTreeStatusNode newRootStatus [rootPost] false])
          (<[Status.id status := length (heap st)]> (idMap st))
          (delete i (unsortedStatuses st)).

Definition raisedShape (newRootStatus : Status.t) (rootPost : nat) (st : BuildState)
    (T : OTree) : OTree :=
  ONode (length (heap st)) (PostTreeStatusNode newRootStatus [rootPost] false) [T].

(** ** Sample threads *)

Module Sample.
(** A top-level post and replies; [Z] is never part of any pool. *)
Definition P : Status.t := Status.mk "P" None None.
Definition X : Status.t := Status.mk "X" (Some "Z") None.
Definition Y : Status.t := Status.mk "Y" (Some "X") None.
Definition R : Status.t := Status.mk "R" (Some "P") None.
Definition S : Status.t := Status.mk "S" (Some "R") None.
(** Two posts replying to each other. *)
Definition A : Status.t := Status.mk "A" (Some "B") None.
Definition B : Status.t := Status.mk "B" (Some "A") None.

(** A thread with a post numbered 42 and a fresh reply to it. *)
Definition post42 : Status.t := Status.mk "42" (Some "P") None.
Definition reply99 : Status.t := Status.mk "99" (Some "42") None.
Definition thread42 : PostTree :=
  StatusNode P [StatusNode R [] false; StatusNode post42 [] false] true.

Definition ok {T : Type} (x : T) : Outcome (Response T) :=
  Returned (mkResponse 200 "OK" x).

(** A server that knows [A] with ancestor [B], and [P] whose context
    cannot be fetched. *)
Definition client : Client :=
  mkClient
    (λ i, if decide (i = "A") then ok A
          else if decide (i = "P") then ok P
          else Thrown (ErrorObject "not found"))
    (λ i, if decide (i = "A") then ok (Some (mkContext [B] []))
          else Thrown (ErrorObject "Network Error")).
End Sample.

(** ** Invariants of the build *)

(** The identifiers in the tree and those still in the pool are, counted
    with multiplicity, among the identifiers of the input. *)
Definition idsAccounted (input : list string) (rootPost : nat) (st : BuildState)
    (T : OTree) : Prop :=
  Inv rootPost st T
  ∧ tree_ids (erase T) ++ (Status.id <$> unsortedStatuses st) ⊆+ input.

(** No placeholder below the root. *)
Definition onlyStatuses (rootPost : nat) (st : BuildState) (T : OTree) : Prop :=
  Inv rootPost st T ∧ placeholderCount (erase T) = 0.

(** A walk of [tryAttachTo] that meets no node with the target identifier
    changes nothing and records the identifiers in display order. *)
Definition walksThrough (newComment : Status.t) (t : PostTree) : Prop :=
  ∀ visited success,
    (∀ x, x ∈ tree_ids t → Some x ≠ Status.in_reply_to_id newComment) →
    NoDup (visited ++ tree_ids t) →
    tryAttachTo newComment t visited success
      = Returned (t, visited ++ tree_ids t, success).

(** ** Threads that resolve

    [Resolves req pool x]: following [in_reply_to_id] from [x] through posts
    of the pool ends at a top-level post or at a reply to the requested
    post. *)
Inductive Resolves (req : Status.t) (pool : list Status.t) : Status.t → Prop :=
| resolves_top x :
    Status.in_reply_to_id x = None → Resolves req pool x
| resolves_requested x :
    Status.in_reply_to_id x = Some (Status.id req) → Resolves req pool x
| resolves_via x y :
    y ∈ pool → Status.in_reply_to_id x = Some (Status.id y) →
    Resolves req pool y → Resolves req pool x.

(** The identifier of the node below which the attachment loop puts [x]
    when the index knows the parent of [x]: the root for a top-level post,
    otherwise the node the index holds for the parent identifier, which
    wraps the post [alias parentId]. *)
Definition parentKey (rootStatus : Status.t) (alias : string → string)
    (x : Status.t) : string :=
  match Status.in_reply_to_id x with
  | None => Status.id rootStatus
  | Some parentId => alias parentId
  end.

Definition expectedEdge (rootStatus : Status.t) (alias : string → string)
    (x : Status.t) : (string + string) * (string + string) :=
  (inl (parentKey rootStatus alias x), inl (Status.id x)).

(** The state of an attachment loop working on a pool [pool1] that
    resolves: the root wraps [rootStatus]; every entry of the index points
    into the tree, at a node wrapping the post [alias k]; every post that
    has left the pool is in the index. *)
Record Threaded (req : Status.t) (pool1 : list Status.t) (rootStatus : Status.t)
    (alias : string → string) (rootNode : nat) (st : BuildState) (T : OTree)
    : Prop := mkThreaded {
  th_inv : Inv rootNode st T;
  th_root : ∃ n, heap st !! rootNode = Some n ∧ tryGetStatus n = Some rootStatus;
  th_indexed : ∀ k r, idMap st !! k = Some r →
    r ∈ orefs T
    ∧ ∃ n s, heap st !! r = Some n ∧ tryGetStatus n = Some s ∧ Status.id s = alias k;
  th_requested : is_Some (idMap st !! Status.id req);
  th_pool : ∀ y, y ∈ pool1 → y ∈ unsortedStatuses st ∨ is_Some (idMap st !! Status.id y);
  th_sub : ∀ y, y ∈ unsortedStatuses st → y ∈ pool1
}.

(** Together with the bookkeeping of edges and posts: what is in the tree
    and what the posts still in the pool will contribute add up to fixed
    collections [E] and [I]. *)
Definition Accounted (req : Status.t) (pool1 : list Status.t) (rootStatus : Status.t)
    (alias : string → string)
    (E : list ((string + string) * (string + string))) (I : list Status.t)
    (rootNode : nat) (st : BuildState) (T : OTree) : Prop :=
  Threaded req pool1 rootStatus alias rootNode st T
  ∧ tree_edges (erase T) ++ (expectedEdge rootStatus alias <$> unsortedStatuses st) ≡ₚ E
  ∧ tree_posts (erase T) ++ unsortedStatuses st ≡ₚ I
  ∧ placeholderCount (erase T) = 0.

(** After the upward walk the index has a single entry: the identifier
    of the requested post, pointing at the final root.  Replies to the
    requested post are therefore attached below the post the root wraps. *)
Definition aliasOf (req rootStatus : Status.t) (k : string) : string :=
  if decide (k = Status.id req) then Status.id rootStatus else k.

(** The posts left in the pool when [locateRootNode] returns. *)
Definition remainingPool (requestedStatus : Status.t) (pool : list Status.t)
    : list Status.t :=
  match locateRootNode (S (length pool)) requestedStatus (mkBuild [] ∅ pool) with
  | Some (_, st) => unsortedStatuses st
  | None => []
  end.

(** The state during the upward walk: the index is the single entry for
    the requested post, the root wraps a post, and the posts in the tree
    and in the pool are those of the input. *)
Definition Walked (req : Status.t) (pool0 : list Status.t)
    (rootPost : nat) (st : BuildState) (T : OTree) : Prop :=
  Inv rootPost st T
  ∧ idMap st = {[Status.id req := rootPost]}
  ∧ (∃ n s, heap st !! rootPost = Some n ∧ tryGetStatus n = Some s)
  ∧ tree_posts (erase T) ++ unsortedStatuses st ≡ₚ req :: pool0
  ∧ placeholderCount (erase T) = 0
  ∧ ∀ y, y ∈ unsortedStatuses st → y ∈ pool0.

(** ** Grouping of notifications (views/facets/notifications.tsx) *)

Module Notification.
(** The fields of megalodon's [Notification] entity that the facet reads. *)
Record t := mk {
  id : string;
  type : string;
  created_at : string;
  status : option Status.t
}.
End Notification.

(** The grouping value of the second level: [{ type, status_id }]. *)
Module KindKey.
Record t := mk {
  type : string;
  status_id : option string
}.
End KindKey.

Module Notifications.

(** An entry of the result: [{ group, items }]. *)
Record Group (TKey TValue : Type) := mkGroup {
  group : TKey;
  items : list TValue
}.
Arguments mkGroup {TKey TValue}.
Arguments group {TKey TValue}.
Arguments items {TKey TValue}.

Section GroupBy.
Context {TKey TValue : Type}.
(** [JSON.stringify] on grouping values. *)
Variable stringify : TKey → string.
Variable groupSelector : TValue → TKey.

(** The [Map] keeps its entries in insertion order; [map.get(key)] is
    modelled by the position of the entry with that key. *)
Definition mapGet (key : string) (map : list (string * Group TKey TValue)) : option nat :=
  fst <$> list_find (λ e, e.1 = key) map.

(** [group.items.push(i)] on the entry holding [group]. *)
Definition pushItem (i : TValue) (e : string * Group TKey TValue)
    : string * Group TKey TValue :=
  (e.1, mkGroup (group e.2) (items e.2 ++ [i])).

(** The body of the [for] loop. *)
Definition groupStep (map : list (string * Group TKey TValue)) (i : TValue)
    : list (string * Group TKey TValue) :=
  let grouping := groupSelector i in
  let key := stringify grouping in
  match mapGet key map with
  | None => map ++ [(key, mkGroup grouping [i])]
  | Some position => alter (pushItem i) position map
  end.

(** [Array.from(map.values())] after the loop. *)
Definition groupBySerializedValue (values : list TValue) : list (Group TKey TValue) :=
  snd <$> foldl groupStep [] values.
End GroupBy.

Record NotificationDayGroups (Day : Type) := mkDayGroups {
  created_day : Day;
  kindGroups : list (Group KindKey.t Notification.t)
}.
Arguments mkDayGroups {Day}.
Arguments created_day {Day}.
Arguments kindGroups {Day}.

Section GetNotifications.
(** Luxon's [DateTime]: [DateTime.fromISO(s).startOf("day")] and its
    serialisation are taken as given. *)
Context {Day : Type}.
Variable startOfDay : string → Day.
Variable stringifyDay : Day → string.
Variable stringifyKind : KindKey.t → string.

Definition kindOf (n : Notification.t) : KindKey.t :=
  KindKey.mk (Notification.type n) (Status.id <$> Notification.status n).

(** [client.getNotifications({ limit })] is the argument. *)
Definition getNotificationsAsync
    (getNotifications : nat → Outcome (Response (list Notification.t)))
    : Outcome (list (NotificationDayGroups Day)) :=
  match getNotifications 40 with
  | Thrown e => Thrown e
  | Returned notifications =>
      if decide (status notifications = 200) then
        let groupedByDay :=
          groupBySerializedValue stringifyDay
            (λ n, startOfDay (Notification.created_at n)) (data notifications) in
        Returned
          ((λ dayGroup,
              mkDayGroups (group dayGroup)
                (groupBySerializedValue stringifyKind kindOf (items dayGroup)))
             <$> groupedByDay)
      else
        Thrown (ErrorObject
          ("Failed to get notifications: " +:+ statusText notifications))
  end.
End GetNotifications.

End Notifications.

(** The state of the grouping loop after the values [done]: the keys of
    the entries are pairwise distinct; every entry is keyed by the
    serialisation of its [group], which is the grouping value of its first
    item, and holds the values with that key, in the order they came; every
    value seen has an entry. *)
Definition Grouped {TKey TValue : Type} (stringify : TKey → string)
    (groupSelector : TValue → TKey) (done : list TValue)
    (map : list (string * Notifications.Group TKey TValue)) : Prop :=
  NoDup (map.*1)
  ∧ (∀ j k g, map !! j = Some (k, g) →
       k = stringify (Notifications.group g)
       ∧ Notifications.items g
           = filter (λ x, stringify (groupSelector x) = k) done
       ∧ ∃ x rest, Notifications.items g = x :: rest
                   ∧ Notifications.group g = groupSelector x)
  ∧ (∀ x, x ∈ done → stringify (groupSelector x) ∈ map.*1).

Global Instance KindKey_eq_dec : EqDecision KindKey.t.
Proof. solve_decision. Defined.

(** A day of notifications for running the grouping. *)
Module NotificationSample.
Definition liked : Notification.t :=
  Notification.mk "n1" "favourite" "2024-05-02T10:00:00Z" (Some Sample.P).
Definition likedAgain : Notification.t :=
  Notification.mk "n2" "favourite" "2024-05-02T08:30:00Z" (Some Sample.P).
Definition followed : Notification.t :=
  Notification.mk "n3" "follow" "2024-05-02T07:00:00Z" None.
Definition mentioned : Notification.t :=
  Notification.mk "n4" "mention" "2024-05-01T23:00:00Z" (Some Sample.R).

Definition all : list Notification.t := [liked; followed; likedAgain; mentioned].

(** The calendar day of an ISO timestamp, as its first ten characters. *)
Definition startOfDay (s : string) : string := String.substring 0 10 s.

Definition stringifyKind (k : KindKey.t) : string :=
  KindKey.type k +:+ "/" +:+ default "" (KindKey.status_id k).

Definition server (limit : nat) : Outcome (Response (list Notification.t)) :=
  Returned (mkResponse 200 "OK" all).

Definition grouped : list (Notifications.NotificationDayGroups string) :=
  [ Notifications.mkDayGroups "2024-05-02"
      [ Notifications.mkGroup (KindKey.mk "favourite" (Some "P")) [liked; likedAgain];
        Notifications.mkGroup (KindKey.mk "follow" None) [followed] ];
    Notifications.mkDayGroups "2024-05-01"
      [ Notifications.mkGroup (KindKey.mk "mention" (Some "R")) [mentioned] ] ].
End NotificationSample.

(** ** The patch walk on arbitrary trees *)

Definition visitedTwice (i : string) : Exn :=
  ErrorObject ("visited the same status " +:+ i +:+ " twice.").

(** A status node of the tree that the new reply answers. *)
Definition repliedAt (newComment : Status.t) (path : list nat) (t : PostTree) : Prop :=
  ∃ X s, subtree_at path t = Some X ∧ treeStatus X = Some s
         ∧ Status.in_reply_to_id newComment = Some (Status.id s).

(** What one call of [tryAttachTo] can do, whatever the tree: it throws
    only at a node whose identifier it has seen before; when it returns it
    has recorded identifiers of the tree, and it has either walked through
    the whole tree without a match and changed nothing or, the target not
    having been seen before, appended the new reply below a node that
    carries the target. *)
Definition patchWalk (newComment : Status.t) (t : PostTree) : Prop :=
  ∀ visited success,
    match tryAttachTo newComment t visited success with
    | Returned (t', visited', success') =>
        ∃ w, visited' = visited ++ w ∧ (∀ x, x ∈ w → x ∈ tree_ids t)
        ∧ ((t' = t ∧ success' = success ∧ w = tree_ids t
            ∧ ∀ x, x ∈ w → Some x ≠ Status.in_reply_to_id newComment)
           ∨ ((∀ x, x ∈ visited → Some x ≠ Status.in_reply_to_id newComment)
              ∧ (∃ x, x ∈ visited' ∧ Some x = Status.in_reply_to_id newComment)
              ∧ success' = true
              ∧ ∃ path, repliedAt newComment path t
                        ∧ appendAt path (newReplyNode newComment) t = Some t'))
    | Thrown e =>
        ∃ i l1 l2, e = visitedTwice i ∧ tree_ids t = l1 ++ i :: l2
                   ∧ (i ∈ visited ∨ i ∈ l1)
    end.

Definition patchWalkChildren (newComment : Status.t) (k : list PostTree) : Prop :=
  ∀ visited success,
    match forChildren (tryAttachTo newComment) k visited success with
    | Returned (k', visited', success') =>
        ∃ w, visited' = visited ++ w ∧ (∀ x, x ∈ w → x ∈ k ≫= tree_ids)
        ∧ ((k' = k ∧ success' = success ∧ w = k ≫= tree_ids
            ∧ ∀ x, x ∈ w → Some x ≠ Status.in_reply_to_id newComment)
           ∨ ((∀ x, x ∈ visited → Some x ≠ Status.in_reply_to_id newComment)
              ∧ (∃ x, x ∈ visited' ∧ Some x = Status.in_reply_to_id newComment)
              ∧ success' = true
              ∧ ∃ i c c' path, k !! i = Some c
                  ∧ repliedAt newComment path c
                  ∧ appendAt path (newReplyNode newComment) c = Some c'
                  ∧ k' = <[i := c']> k))
    | Thrown e =>
        ∃ i l1 l2, e = visitedTwice i ∧ k ≫= tree_ids = l1 ++ i :: l2
                   ∧ (i ∈ visited ∨ i ∈ l1)
    end.

(** Labels of the highlighted nodes, in display order. *)
Fixpoint tree_highlights (t : PostTree) : list (Status.t + string) :=
  match t with
  | StatusNode s k h => (if h then [inl s] else []) ++ (k ≫= tree_highlights)
  | PlaceholderNode m k h => (if h then [inr m] else []) ++ (k ≫= tree_highlights)
  end.

Module PatchSample.
(** A tree in which the identifier of [R] occurs twice, a reply to a post
    that is not in it, and a reply to the fresh reply of [Sample]. *)
Definition twice : PostTree :=
  StatusNode Sample.P [StatusNode Sample.R [] false; StatusNode Sample.R [] false] true.
Definition stray : Status.t := Status.mk "77" (Some "Q") None.
(** The same identifier twice, the second occurrence below the first. *)
Definition nested : PostTree :=
  StatusNode Sample.P [StatusNode Sample.R [StatusNode Sample.R [] false] false] true.
Definition answerR : Status.t := Status.mk "5" (Some "R") None.
Definition nestedPatched : PostTree :=
  StatusNode Sample.P
    [StatusNode Sample.R [StatusNode Sample.R [] false; StatusNode answerR [] true] false]
    true.
Definition thread42Patched : PostTree :=
  StatusNode Sample.P
    [StatusNode Sample.R [] false;
     StatusNode Sample.post42 [StatusNode Sample.reply99 [] true] false]
    true.
Definition reply100 : Status.t := Status.mk "100" (Some "99") None.
End PatchSample.

(** ** Where the posts of a built tree come from *)

(** The posts in the tree and those still in the pool are, counted with
    multiplicity, among the requested post and the posts of the input; the
    requested post is in the tree, its node is the one highlighted node,
    and there is no placeholder. *)
Definition Sourced (req : Status.t) (pool0 : list Status.t)
    (rootPost : nat) (st : BuildState) (T : OTree) : Prop :=
  Inv rootPost st T
  ∧ tree_posts (erase T) ++ unsortedStatuses st ⊆+ req :: pool0
  ∧ req ∈ tree_posts (erase T)
  ∧ tree_highlights (erase T) = [inl req]
  ∧ placeholderCount (erase T) = 0.

(** ** The spine and the links of a built tree *)

(** Consecutive posts, each answering the one before it. *)
Fixpoint replyChain (l : list Status.t) : Prop :=
  match l with
  | [] => True
  | p :: rest =>
      match head rest with
      | Some c => Status.in_reply_to_id c = Some (Status.id p)
      | None => True
      end ∧ replyChain rest
  end.

(** The nodes reached from the root through first children wrap the posts
    of [chain], in order, and then the requested post, whose node is the
    highlighted one. *)
Definition spineOf (chain : list Status.t) (req : Status.t) (t : PostTree) : Prop :=
  ∀ j s, (chain ++ [req]) !! j = Some s →
    ∃ X, subtree_at (replicate j 0) t = Some X
         ∧ nodeLabel X = (inl s, bool_decide (j = length chain)).

(** The post of a node paired with the post of one of its children. *)
Definition linksTo (parent : option Status.t) (c : PostTree) : list (Status.t * Status.t) :=
  match parent, treeStatus c with
  | Some p, Some s => [(p, s)]
  | _, _ => []
  end.

Fixpoint tree_links (t : PostTree) : list (Status.t * Status.t) :=
  match t with
  | StatusNode s k _ => (k ≫= linksTo (Some s)) ++ (k ≫= tree_links)
  | PlaceholderNode _ k _ => k ≫= tree_links
  end.

(** The links that do not start at the root. *)
Definition inner_links (t : PostTree) : list (Status.t * Status.t) :=
  kids t ≫= tree_links.

(** The child answers the parent. *)
Definition genuine (link : Status.t * Status.t) : Prop :=
  Status.in_reply_to_id link.2 = Some (Status.id link.1).

(** The state during the upward walk, with the posts walked so far. *)
Definition Climbed (req : Status.t) (pool0 : list Status.t)
    (rootPost : nat) (st : BuildState) (T : OTree) : Prop :=
  Inv rootPost st T
  ∧ idMap st = {[Status.id req := rootPost]}
  ∧ ∃ chain top,
      chain ++ unsortedStatuses st ≡ₚ pool0
      ∧ replyChain (chain ++ [req])
      ∧ spineOf chain req (erase T)
      ∧ head (chain ++ [req]) = Some top
      ∧ rootInReplyTo (heap st) rootPost = Status.in_reply_to_id top
      ∧ treeStatus (erase T) = Some top
      ∧ Forall genuine (tree_links (erase T)).

(** Every entry of the index that points at a status node other than the
    root points at a node wrapping a post with the identifier of the
    entry. *)
Definition indexSound (rootNode : nat) (st : BuildState) : Prop :=
  ∀ k r n s, idMap st !! k = Some r → r ≠ rootNode →
    heap st !! r = Some n → tryGetStatus n = Some s → Status.id s = k.

(** The state during the attachment loop. *)
Definition Linked (req : Status.t) (chain : list Status.t)
    (rootNode : nat) (st : BuildState) (T : OTree) : Prop :=
  Inv rootNode st T
  ∧ indexSound rootNode st
  ∧ spineOf chain req (erase T)
  ∧ Forall genuine (inner_links (erase T)).

(** ** Top-level posts *)

(** A child of the root that wraps [x] and is not highlighted. *)
Definition underRoot (x : Status.t) (t : PostTree) : Prop :=
  ∃ i c, kids t !! i = Some c ∧ nodeLabel c = (inl x, false).

(** Every top-level post of [pool1] is still in the pool or is a child of
    the root. *)
Definition TopLevelKept (pool1 : list Status.t)
    (rootNode : nat) (st : BuildState) (T : OTree) : Prop :=
  Inv rootNode st T
  ∧ ∀ x, x ∈ pool1 → Status.in_reply_to_id x = None →
      x ∈ unsortedStatuses st ∨ underRoot x (erase T).

(** ** The order of the children in a flat thread *)

(** What a pass of the [for] loop does to a pool in which every post can
    be attached: after [splice(i, 1)] the index is still incremented, so
    the post that slid into slot [i] is passed over.  [taken] are the
    posts attached by the pass, [skipped] those left for the next pass. *)
Fixpoint taken {A} (l : list A) : list A :=
  match l with
  | [] => []
  | x :: l' => x :: match l' with [] => [] | _ :: l'' => taken l'' end
  end.

Fixpoint skipped {A} (l : list A) : list A :=
  match l with
  | [] => []
  | _ :: l' => match l' with [] => [] | y :: l'' => y :: skipped l'' end
  end.

(** The passes of the outer [while], one after the other. *)
Fixpoint passOrder {A} (fuel : nat) (l : list A) : list A :=
  match fuel with
  | 0 => []
  | S fuel' =>
      match l with
      | [] => []
      | _ :: _ => taken l ++ passOrder fuel' (skipped l)
      end
  end.

(** A post that is top-level or answers the requested post, and does not
    have the identifier of the requested post. *)
Definition flatReply (req x : Status.t) : Prop :=
  (Status.in_reply_to_id x = None ∨ Status.in_reply_to_id x = Some (Status.id req))
  ∧ Status.id x ≠ Status.id req.

Definition pushStatus (t : PostTree) (s : Status.t) : PostTree :=
  pushKid (StatusNode s [] false) t.

Module FlatSample.
Definition a : Status.t := Status.mk "a" (Some "P") None.
Definition b : Status.t := Status.mk "b" (Some "P") None.
Definition c : Status.t := Status.mk "c" (Some "P") None.
Definition d : Status.t := Status.mk "d" None None.
End FlatSample.

(** ** Pools in which every post answers a post of the context *)




(** * Properties *)

(** ** Default rule presets *)

(** C9: [defaultHomeFeedRules] is a hide rule on [in_reply_to_id notEqual
    null] followed by an attach-linked rule; [defaultFeedRules] is the same
    two rules followed by a rule applying the label "pillbug" when the fact
    [application] at path [$.name] equals "pillbug". *)
Theorem default_rule_presets :
  (Feed.event <$> Feed.defaultHomeFeedRules) = [Feed.hidePost; Feed.attachLinked]
  ∧ (Feed.conditions <$> Feed.defaultHomeFeedRules !! 0)
      = Some (Feed.all [Feed.mkCondition "in_reply_to_id" Feed.notEqual None None])
  ∧ ∃ labelRule,
      Feed.defaultFeedRules = Feed.defaultHomeFeedRules ++ [labelRule]
      ∧ Feed.event labelRule = Feed.applyLabel "pillbug"
      ∧ Feed.conditions labelRule
          = Feed.all [Feed.mkCondition "application" Feed.equal (Some "$.name") (Some "pillbug")].
Proof.
  split; [reflexivity|]. split; [reflexivity|].
  eexists. split; [reflexivity|]. split; reflexivity.
Qed.

(** ** Failure of the context fetch *)

(** C7: once the requested post has been fetched, a failure of the context
    fetch (made for the reblogged original when there is one) is caught:
    the fetcher returns the requested post as a highlighted root with a
    single placeholder child describing the failure. *)
Theorem context_failure_degrades
    (unwrapResponse : ∀ A : Type, Response A → Outcome A)
    (props : LoadPostsProps) (client : Client) (previousTree : option PostTree)
    (response : Response Status.t) (requestedStatus : Status.t) (e : Exn) :
  previousTree = None ∨ newCommentId props = None →
  getStatus client (postId props) = Returned response →
  unwrapResponse _ response = Returned requestedStatus →
  (getStatusContext client
     (default (Status.id requestedStatus) (Status.reblog requestedStatus)) = Thrown e
   ∨ ∃ r, getStatusContext client
            (default (Status.id requestedStatus) (Status.reblog requestedStatus)) = Returned r
          ∧ (unwrapResponse _ r = Thrown e
             ∨ (unwrapResponse _ r = Returned None
                ∧ e = ErrorObject "status context undefined"))) →
  ∃ message,
    fetchPostInfoTree unwrapResponse props (Some client) previousTree
      = Some (Returned (StatusNode requestedStatus [PlaceholderNode message [] false] true))
    ∧ message = "Failed to get context for post " +:+ postId props +:+ ": "
                  +:+ match e with ErrorObject m => m | OtherThrown => "unknown error" end.
Proof.
  intros Hpath Hget Hunwrap Hfail.
  assert (Hctx : fetchContext unwrapResponse client requestedStatus = Thrown e).
  { unfold fetchContext.
    destruct Hfail as [-> | (r & -> & [-> | [-> ->]])]; reflexivity. }
  assert (Hbuild : fullBuild unwrapResponse client (postId props) requestedStatus
                   = Some (StatusNode requestedStatus
                             [contextFailureNode (postId props) e] true)).
  { unfold fullBuild. by rewrite Hctx. }
  eexists. split; [|reflexivity].
  unfold fetchPostInfoTree.
  assert (Hrest : (match getStatus client (postId props) with
                   | Thrown e0 => Some (Thrown e0)
                   | Returned response0 =>
                       match unwrapResponse _ response0 with
                       | Thrown e0 => Some (Thrown e0)
                       | Returned rs =>
                           Returned <$> fullBuild unwrapResponse client (postId props) rs
                       end
                   end)
                  = Some (Returned (StatusNode requestedStatus
                             [contextFailureNode (postId props) e] true))).
  { rewrite Hget, Hunwrap, Hbuild. reflexivity. }
  destruct e; simpl in *;
    destruct Hpath as [-> | ->]; simpl; try destruct previousTree; exact Hrest.
Qed.

(** ** Termination of the loops *)

Lemma attachAt_pool parent i status st :
  unsortedStatuses (attachAt parent i status st) = delete i (unsortedStatuses st).
Proof. reflexivity. Qed.

Lemma length_delete_lookup {A} (l : list A) i x :
  l !! i = Some x → S (length (delete i l)) = length l.
Proof.
  intros H. rewrite length_delete by eauto.
  apply lookup_lt_Some in H. lia.
Qed.

(** The upward walk stops within as many steps as there are posts in the
    pool: every step takes one post out of it. *)
Lemma locateRootLoop_terminates fuel status rootPost st :
  length (unsortedStatuses st) < fuel →
  ∃ r st', locateRootLoop fuel status rootPost st = Some (r, st')
           ∧ length (unsortedStatuses st') ≤ length (unsortedStatuses st).
Proof.
  revert rootPost st. induction fuel as [|fuel IH]; intros rootPost st Hlt; [lia|].
  simpl. destruct (Status.in_reply_to_id status) as [target|]; [|eauto].
  destruct (list_find _ _) as [[i s]|] eqn:Hfind; [|eauto].
  apply list_find_Some in Hfind as (Hi & _ & _).
  pose proof (length_delete_lookup _ _ _ Hi) as Hlen.
  unfold alloc.
  edestruct (IH (length (heap st))
    (mkBuild (heap st ++ [PostTreeStatusNode s [rootPost] false])
       (<[Status.id status := length (heap st)]> (idMap st))
       (delete i (unsortedStatuses st)))) as (r & st' & Heq & Hle).
  { simpl. lia. }
  simpl in Hle. exists r, st'. split; [exact Heq|lia].
Qed.

Lemma forLoop_terminates fuel rootNode i numAdded st :
  length (unsortedStatuses st) - i < fuel →
  ∃ n st', forLoop fuel rootNode i numAdded st = Some (n, st')
           ∧ numAdded ≤ n
           ∧ length (unsortedStatuses st') + (n - numAdded) = length (unsortedStatuses st).
Proof.
  revert i numAdded st. induction fuel as [|fuel IH]; intros i numAdded st Hlt; [lia|].
  simpl. destruct (unsortedStatuses st !! i) as [status|] eqn:Hi.
  2:{ exists numAdded, st. split; [done|]. split; lia. }
  pose proof (length_delete_lookup _ _ _ Hi) as Hlen.
  apply lookup_lt_Some in Hi as Hlti.
  assert (Hattach : ∀ parent,
    ∃ n st', forLoop fuel rootNode (S i) (S numAdded) (attachAt parent i status st)
               = Some (n, st')
             ∧ numAdded ≤ n
             ∧ length (unsortedStatuses st') + (n - numAdded)
                 = length (unsortedStatuses st)).
  { intros parent.
    destruct (IH (S i) (S numAdded) (attachAt parent i status st))
      as (n & st' & Heq & Hle & Hsum).
    { rewrite attachAt_pool. lia. }
    rewrite attachAt_pool in Hsum.
    exists n, st'. split; [done|]. split; lia. }
  destruct (Status.in_reply_to_id status) as [parentId|]; [|apply Hattach].
  destruct (idMap st !! parentId) as [existingParent|]; [apply Hattach|].
  destruct (IH (S i) numAdded st) as (n & st' & Heq & Hle & Hsum); [lia|].
  exists n, st'. split; [done|]. split; lia.
Qed.

Lemma handleStuck_pool rootNode st :
  unsortedStatuses (handleStuck rootNode st) = removelast (unsortedStatuses st).
Proof.
  unfold handleStuck. destruct (last (unsortedStatuses st)) eqn:Hlast; [done|].
  apply last_None in Hlast. by rewrite Hlast.
Qed.

Lemma length_removelast {A} (l : list A) :
  l ≠ [] → S (length (removelast l)) = length l.
Proof.
  intros Hne. destruct (exists_last Hne) as (l' & x & ->).
  rewrite removelast_last, length_app. simpl. lia.
Qed.

(** Every run of the body of the outer loop takes at least one post out of
    a non-empty pool: by attaching it, or through the stuck branch. *)
Lemma attachPass_progress rootNode st :
  unsortedStatuses st ≠ [] →
  ∃ st' continue, attachPass rootNode st = Some (st', continue)
    ∧ length (unsortedStatuses st') < length (unsortedStatuses st)
    ∧ (continue = false → unsortedStatuses st' = []).
Proof.
  intros Hne. unfold attachPass.
  destruct (forLoop_terminates (S (length (unsortedStatuses st))) rootNode 0 0 st)
    as (n & st1 & -> & _ & Hsum); [lia|].
  assert (0 < length (unsortedStatuses st)) by (destruct (unsortedStatuses st); simpl; [done|lia]).
  destruct (unsortedStatuses st1) as [|x l] eqn:Hpool.
  { exists st1, false. rewrite Hpool. simpl. split; [done|]. split; [lia|done]. }
  destruct (decide (n = 0)) as [->|Hn].
  - exists (handleStuck rootNode st1), true. split; [done|]. split; [|done].
    rewrite handleStuck_pool, Hpool.
    pose proof (length_removelast (x :: l) ltac:(done)) as Hpop.
    cbn [length] in *. lia.
  - exists st1, true. split; [done|]. split; [|done]. rewrite Hpool. simpl in *. lia.
Qed.

Lemma attachLoop_terminates fuel rootNode st :
  length (unsortedStatuses st) < fuel →
  ∃ st', attachLoop fuel rootNode st = Some st' ∧ unsortedStatuses st' = [].
Proof.
  revert st. induction fuel as [|fuel IH]; intros st Hlt; [lia|].
  simpl. destruct (unsortedStatuses st) as [|x l] eqn:Hpool; [eauto|].
  destruct (attachPass_progress rootNode st) as (st' & continue & -> & Hless & Hbreak).
  { by rewrite Hpool. }
  destruct continue; [|eauto].
  apply IH. rewrite Hpool in Hless. simpl in *. lia.
Qed.

(** ** Reading the heap back as a tree *)

Lemma OTree_nested_ind (P : OTree → Prop) :
  (∀ r n k, Forall P k → P (ONode r n k)) → ∀ T, P T.
Proof.
  intros Hnode. fix IH 1. intros [r n k]. apply Hnode.
  induction k as [|c k IHk]; constructor; [apply IH|exact IHk].
Qed.

Lemma PostTree_nested_ind (P : PostTree → Prop) :
  (∀ s k h, Forall P k → P (StatusNode s k h)) →
  (∀ m k h, Forall P k → P (PlaceholderNode m k h)) →
  ∀ t, P t.
Proof.
  intros HS HP. fix IH 1. intros [s k h|m k h]; [apply HS|apply HP];
    (induction k as [|c k IHk]; constructor; [apply IH|exact IHk]).
Qed.

Lemma Repr_inv h r n k :
  Repr h (ONode r n k) →
  h !! r = Some n ∧ children n = oref <$> k ∧ Forall (Repr h) k.
Proof. by inversion 1. Qed.

Lemma Repr_refs_bound h T : Repr h T → ∀ r, r ∈ orefs T → r < length h.
Proof.
  induction T as [r n k IH] using OTree_nested_ind. intros HR x Hx.
  apply Repr_inv in HR as (Hr & _ & Hk). simpl in Hx.
  apply elem_of_cons in Hx as [->|Hx]; [by eapply lookup_lt_Some|].
  apply list_elem_of_bind in Hx as (c & Hx & Hc).
  rewrite Forall_forall in IH, Hk. eauto.
Qed.

Lemma oref_in_orefs T : oref T ∈ orefs T.
Proof. destruct T. simpl. left. Qed.

Lemma length_bind_elem {A B} (f : A → list B) (l : list A) x :
  x ∈ l → length (f x) ≤ length (l ≫= f).
Proof.
  induction 1; rewrite bind_cons, length_app; lia.
Qed.

(** A represented shape is what [treeOf] reads, given fuel for its size. *)
Lemma treeOf_Repr h T fuel :
  Repr h T → length (orefs T) ≤ fuel → treeOf fuel h (oref T) = Some (erase T).
Proof.
  revert fuel. induction T as [r n k IH] using OTree_nested_ind.
  intros fuel HR Hfuel. apply Repr_inv in HR as (Hr & Hch & Hk).
  destruct fuel as [|fuel]; simpl in Hfuel; [lia|].
  simpl. rewrite Hr.
  assert (Hkids : mapM (treeOf fuel h) (children n) = Some (erase <$> k)).
  { apply mapM_Some. rewrite Hch.
    apply Forall2_fmap. apply Forall_Forall2_diag.
    rewrite Forall_forall in IH, Hk. apply Forall_forall. intros c Hc.
    pose proof (length_bind_elem orefs k c Hc).
    apply IH; [done|by apply Hk|lia]. }
  by rewrite Hkids.
Qed.

Lemma NoDup_bounded_length (l : list nat) n :
  NoDup l → (∀ x, x ∈ l → x < n) → length l ≤ n.
Proof.
  intros Hnd Hlt.
  trans (length (seq 0 n)); [|by rewrite length_seq].
  apply submseteq_length, NoDup_submseteq; [done|].
  intros x Hx. apply elem_of_seq. specialize (Hlt x Hx). lia.
Qed.

Lemma treeOf_Repr_heap h T :
  Repr h T → NoDup (orefs T) → treeOf (length h) h (oref T) = Some (erase T).
Proof.
  intros HR Hnd. apply treeOf_Repr; [done|].
  apply NoDup_bounded_length; [done|]. by apply Repr_refs_bound.
Qed.

(** Allocation does not disturb what is already there. *)
Lemma Repr_alloc h n T : Repr h T → Repr (h ++ [n]) T.
Proof.
  induction T as [r m k IH] using OTree_nested_ind. intros HR.
  apply Repr_inv in HR as (Hr & Hch & Hk). constructor; [|done|].
  - by apply lookup_app_l_Some.
  - rewrite Forall_forall in IH, Hk. apply Forall_forall. eauto.
Qed.

Lemma oref_graft p C T : oref (graft p C T) = oref T.
Proof. destruct T as [r n k]. simpl. by destruct (decide (r = p)). Qed.

Lemma children_push c n : children (push c n) = children n ++ [c].
Proof. by destruct n. Qed.

(** [push_child] is [graft] on every shape that is represented. *)
Lemma Repr_push h p C T :
  Repr (push_child p (oref C) h) C →
  Repr h T →
  Repr (push_child p (oref C) h) (graft p C T).
Proof.
  intros HC. induction T as [r n k IH] using OTree_nested_ind. intros HR.
  apply Repr_inv in HR as (Hr & Hch & Hk).
  assert (Hkids : Forall (Repr (push_child p (oref C) h)) (graft p C <$> k)).
  { rewrite Forall_forall in IH, Hk. apply Forall_forall. intros c Hc.
    apply list_elem_of_fmap in Hc as (c0 & -> & Hc0). eauto. }
  assert (Hrefs : oref <$> (graft p C <$> k) = oref <$> k).
  { rewrite <- list_fmap_compose. apply list_fmap_ext. intros ? c _. apply oref_graft. }
  simpl. destruct (decide (r = p)) as [->|Hne].
  - constructor.
    + unfold push_child. rewrite list_lookup_alter_eq, Hr. done.
    + rewrite children_push, Hch, fmap_app, Hrefs. done.
    + apply Forall_app. split; [done|]. by constructor.
  - constructor; [|by rewrite Hrefs|done].
    unfold push_child. by rewrite list_lookup_alter_ne.
Qed.

(** ** Grafting at a reference that occurs once *)

Lemma graft_absent p C T : p ∉ orefs T → graft p C T = T.
Proof.
  induction T as [r n k IH] using OTree_nested_ind. simpl. intros Hp.
  apply not_elem_of_cons in Hp as [Hne Hp].
  destruct (decide (r = p)) as [->|_]; [done|]. f_equal.
  induction k as [|c k IHk]; [done|].
  rewrite bind_cons in Hp. apply not_elem_of_app in Hp as [Hc Hk].
  apply Forall_cons in IH as [IHc IH].
  rewrite fmap_cons, IHc, IHk; done.
Qed.

Lemma graft_absent_list p C (k : list OTree) :
  p ∉ k ≫= orefs → graft p C <$> k = k.
Proof.
  induction k as [|c k IHk]; [done|]. rewrite bind_cons. intros Hp.
  apply not_elem_of_app in Hp as [Hc Hk].
  by rewrite fmap_cons, graft_absent, IHk.
Qed.

Lemma graft_one_kid p C (k : list OTree) i c :
  NoDup (k ≫= orefs) → k !! i = Some c → p ∈ orefs c →
  graft p C <$> k = <[i := graft p C c]> k.
Proof.
  revert i. induction k as [|x k IHk]; intros i Hnd Hi Hp; [done|].
  rewrite bind_cons in Hnd. apply NoDup_app in Hnd as (Hx & Hdisj & Hk).
  destruct i as [|i]; simpl in Hi.
  - injection Hi as ->. simpl. f_equal. apply graft_absent_list. by apply Hdisj.
  - simpl. f_equal; [|by apply IHk].
    apply graft_absent. intros Hpx. apply (Hdisj p Hpx).
    apply list_elem_of_bind. exists c. split; [done|].
    by eapply list_elem_of_lookup_2.
Qed.

Lemma NoDup_bind_lookup {A B} (f : A → list B) (k : list A) i c :
  NoDup (k ≫= f) → k !! i = Some c → NoDup (f c).
Proof.
  revert i. induction k as [|x k IHk]; intros i Hnd Hi; [done|].
  rewrite bind_cons in Hnd. apply NoDup_app in Hnd as (Hx & _ & Hk).
  destruct i; simpl in Hi; [by injection Hi as ->|eauto].
Qed.

(** With distinct references in the shape, grafting at a reference that
    occurs in it is appending at the position of that reference. *)
Lemma graft_path p C T :
  NoDup (orefs T) → p ∈ orefs T →
  ∃ path X, osubtree_at path T = Some X ∧ oref X = p
            ∧ oappendAt path C T = Some (graft p C T).
Proof.
  induction T as [r n k IH] using OTree_nested_ind. simpl. intros Hnd Hp.
  apply NoDup_cons in Hnd as [Hr Hnd].
  destruct (decide (r = p)) as [->|Hne].
  - exists [], (ONode p n k). simpl. split; [done|]. split; [done|].
    by rewrite graft_absent_list.
  - apply elem_of_cons in Hp as [->|Hp]; [done|].
    apply list_elem_of_bind in Hp as (c & Hp & Hc).
    apply list_elem_of_lookup in Hc as [i Hi].
    rewrite Forall_forall in IH.
    destruct (IH c) as (path & X & Hsub & HX & Happ);
      [by eapply list_elem_of_lookup_2|by eapply NoDup_bind_lookup|done|].
    exists (i :: path), X. simpl. rewrite Hi, Happ. split; [done|]. split; [done|].
    by rewrite (graft_one_kid p C k i c).
Qed.

(** ** Appending a child at a position *)

Lemma kids_mkTree n k : kids (mkTree n k) = k.
Proof. by destruct n. Qed.

Lemma setKids_mkTree n k k' : setKids k' (mkTree n k) = mkTree n k'.
Proof. by destruct n. Qed.

Lemma pushKid_mkTree c n k x : pushKid x (mkTree n k) = mkTree (push c n) (k ++ [x]).
Proof. by destruct n. Qed.

Lemma erase_oappendAt path C T T' :
  oappendAt path C T = Some T' →
  appendAt path (erase C) (erase T) = Some (erase T').
Proof.
  revert T T'. induction path as [|i path IH]; intros [r n k] T' Happ; simpl in Happ.
  - injection Happ as <-. simpl.
    by rewrite fmap_app, (pushKid_mkTree (oref C)).
  - destruct (k !! i) as [x|] eqn:Hi; [|done].
    destruct (oappendAt path C x) as [x'|] eqn:Hx; [|done].
    injection Happ as <-. simpl.
    rewrite kids_mkTree, list_lookup_fmap, Hi. simpl.
    rewrite (IH _ _ Hx), setKids_mkTree, list_fmap_insert. done.
Qed.

Lemma erase_osubtree_at path T X :
  osubtree_at path T = Some X → subtree_at path (erase T) = Some (erase X).
Proof.
  revert T. induction path as [|i path IH]; intros [r n k] Hsub; simpl in *.
  - by injection Hsub as <-.
  - destruct (k !! i) as [c|] eqn:Hi; [|done].
    rewrite kids_mkTree, list_lookup_fmap, Hi. simpl. eauto.
Qed.

Lemma bind_insert_perm {A B} (f : A → list B) (k : list A) i x x' extra :
  k !! i = Some x → f x' ≡ₚ f x ++ extra →
  <[i := x']> k ≫= f ≡ₚ (k ≫= f) ++ extra.
Proof.
  intros Hi Hperm.
  rewrite <- (take_drop_middle k i x Hi) at 2.
  rewrite insert_take_drop by (by eapply lookup_lt_Some).
  rewrite !bind_app, !bind_cons, Hperm.
  rewrite <- !(assoc (++)). f_equiv. f_equiv. apply Permutation_app_comm.
Qed.

Lemma sum_list_insert {A} (f : A → nat) (k : list A) i x x' d :
  k !! i = Some x → f x' = f x + d →
  sum_list_with f (<[i := x']> k) = sum_list_with f k + d.
Proof.
  intros Hi Hd.
  rewrite <- (take_drop_middle k i x Hi) at 2.
  rewrite insert_take_drop by (by eapply lookup_lt_Some).
  rewrite !sum_list_with_app. simpl. lia.
Qed.

Lemma tree_ids_unfold t :
  tree_ids t = match treeStatus t with Some s => [Status.id s] | None => [] end
               ++ (kids t ≫= tree_ids).
Proof. by destruct t. Qed.

Lemma tree_posts_unfold t :
  tree_posts t = match treeStatus t with Some s => [s] | None => [] end
                 ++ (kids t ≫= tree_posts).
Proof. by destruct t. Qed.

Lemma placeholderCount_unfold t :
  placeholderCount t = match treeStatus t with Some _ => 0 | None => 1 end
                       + sum_list_with placeholderCount (kids t).
Proof. by destruct t. Qed.

Lemma nodeCount_unfold t : nodeCount t = S (sum_list_with nodeCount (kids t)).
Proof. by destruct t. Qed.

Lemma tree_edges_unfold t :
  tree_edges t = ((λ c, (nodeKey t, nodeKey c)) <$> kids t) ++ (kids t ≫= tree_edges).
Proof. by destruct t. Qed.

Lemma treeStatus_pushKid c t : treeStatus (pushKid c t) = treeStatus t.
Proof. by destruct t. Qed.
Lemma kids_pushKid c t : kids (pushKid c t) = kids t ++ [c].
Proof. by destruct t. Qed.
Lemma nodeKey_pushKid c t : nodeKey (pushKid c t) = nodeKey t.
Proof. by destruct t. Qed.
Lemma nodeLabel_pushKid c t : nodeLabel (pushKid c t) = nodeLabel t.
Proof. by destruct t. Qed.
Lemma treeStatus_setKids k t : treeStatus (setKids k t) = treeStatus t.
Proof. by destruct t. Qed.
Lemma kids_setKids k t : kids (setKids k t) = k.
Proof. by destruct t. Qed.
Lemma nodeKey_setKids k t : nodeKey (setKids k t) = nodeKey t.
Proof. by destruct t. Qed.
Lemma nodeLabel_setKids k t : nodeLabel (setKids k t) = nodeLabel t.
Proof. by destruct t. Qed.

Lemma appendAt_inv_cons i p c t t' :
  appendAt (i :: p) c t = Some t' →
  ∃ x x', kids t !! i = Some x ∧ appendAt p c x = Some x'
          ∧ t' = setKids (<[i := x']> (kids t)) t.
Proof.
  simpl. destruct (kids t !! i) as [x|]; [|done].
  destruct (appendAt p c x) as [x'|] eqn:Hx; [|done].
  intros [= <-]. by exists x, x'.
Qed.

Lemma appendAt_nodeKey p c t t' : appendAt p c t = Some t' → nodeKey t' = nodeKey t.
Proof.
  destruct p as [|i p].
  - intros [= <-]. apply nodeKey_pushKid.
  - intros (x & x' & _ & _ & ->)%appendAt_inv_cons. apply nodeKey_setKids.
Qed.

Lemma appendAt_ids p c t t' :
  appendAt p c t = Some t' → tree_ids t' ≡ₚ tree_ids t ++ tree_ids c.
Proof.
  revert t t'. induction p as [|i p IH]; intros t t'.
  - intros [= <-].
    rewrite (tree_ids_unfold (pushKid _ _)), (tree_ids_unfold t), treeStatus_pushKid, kids_pushKid.
    rewrite bind_app, <- (assoc (++)). simpl. by rewrite app_nil_r.
  - intros (x & x' & Hi & Hx & ->)%appendAt_inv_cons.
    rewrite (tree_ids_unfold (setKids _ _)), (tree_ids_unfold t).
    rewrite treeStatus_setKids, kids_setKids.
    rewrite (bind_insert_perm _ _ _ _ _ _ Hi (IH _ _ Hx)). by rewrite (assoc (++)).
Qed.

Lemma appendAt_posts p c t t' :
  appendAt p c t = Some t' → tree_posts t' ≡ₚ tree_posts t ++ tree_posts c.
Proof.
  revert t t'. induction p as [|i p IH]; intros t t'.
  - intros [= <-].
    rewrite (tree_posts_unfold (pushKid _ _)), (tree_posts_unfold t), treeStatus_pushKid, kids_pushKid.
    rewrite bind_app, <- (assoc (++)). simpl. by rewrite app_nil_r.
  - intros (x & x' & Hi & Hx & ->)%appendAt_inv_cons.
    rewrite (tree_posts_unfold (setKids _ _)), (tree_posts_unfold t).
    rewrite treeStatus_setKids, kids_setKids.
    rewrite (bind_insert_perm _ _ _ _ _ _ Hi (IH _ _ Hx)). by rewrite (assoc (++)).
Qed.

Lemma appendAt_placeholderCount p c t t' :
  appendAt p c t = Some t' →
  placeholderCount t' = placeholderCount t + placeholderCount c.
Proof.
  revert t t'. induction p as [|i p IH]; intros t t'.
  - intros [= <-]. rewrite (placeholderCount_unfold (pushKid _ _)), (placeholderCount_unfold t).
    rewrite treeStatus_pushKid, kids_pushKid, sum_list_with_app. simpl. lia.
  - intros (x & x' & Hi & Hx & ->)%appendAt_inv_cons.
    rewrite (placeholderCount_unfold (setKids _ _)), (placeholderCount_unfold t).
    rewrite treeStatus_setKids, kids_setKids.
    rewrite (sum_list_insert _ _ _ _ _ _ Hi (IH _ _ Hx)). lia.
Qed.

Lemma appendAt_nodeCount p c t t' :
  appendAt p c t = Some t' → nodeCount t' = nodeCount t + nodeCount c.
Proof.
  revert t t'. induction p as [|i p IH]; intros t t'.
  - intros [= <-]. rewrite (nodeCount_unfold (pushKid _ _)), (nodeCount_unfold t).
    rewrite kids_pushKid, sum_list_with_app. simpl. lia.
  - intros (x & x' & Hi & Hx & ->)%appendAt_inv_cons.
    rewrite (nodeCount_unfold (setKids _ _)), (nodeCount_unfold t), kids_setKids.
    rewrite (sum_list_insert _ _ _ _ _ _ Hi (IH _ _ Hx)). lia.
Qed.

Lemma appendAt_edges p c t t' X :
  appendAt p c t = Some t' → subtree_at p t = Some X →
  tree_edges t' ≡ₚ tree_edges t ++ (nodeKey X, nodeKey c) :: tree_edges c.
Proof.
  revert t t'. induction p as [|i p IH]; intros t t'.
  - intros [= <-] [= <-]. rewrite (tree_edges_unfold (pushKid _ _)), (tree_edges_unfold t).
    rewrite nodeKey_pushKid, kids_pushKid, fmap_app, bind_app. simpl.
    rewrite app_nil_r, <- !(assoc (++)). f_equiv.
    rewrite (assoc (++)), (Permutation_app_comm [_]), <- (assoc (++)). done.
  - intros (x & x' & Hi & Hx & ->)%appendAt_inv_cons. simpl. rewrite Hi. intros HX.
    rewrite (tree_edges_unfold (setKids _ _)), (tree_edges_unfold t).
    rewrite nodeKey_setKids, kids_setKids.
    rewrite (bind_insert_perm _ _ _ _ _ _ Hi (IH _ _ Hx HX)).
    rewrite list_fmap_insert, (appendAt_nodeKey _ _ _ _ Hx).
    rewrite (list_insert_id ((λ c0, (nodeKey t, nodeKey c0)) <$> kids t)).
    + by rewrite (assoc (++)).
    + by rewrite list_lookup_fmap, Hi.
Qed.

(** ** The loops as sequences of attachments *)

Lemma forLoop_attached fuel rootNode i numAdded st n st' T :
  forLoop fuel rootNode i numAdded st = Some (n, st') →
  ∃ T', rtc (Attached rootNode) (st, T) (st', T').
Proof.
  revert i numAdded st T. induction fuel as [|fuel IH]; intros i numAdded st T; [done|].
  simpl. destruct (unsortedStatuses st !! i) as [status|] eqn:Hi.
  2:{ intros [= _ <-]. by exists T. }
  destruct (Status.in_reply_to_id status) as [parentId|] eqn:Hreply.
  - destruct (idMap st !! parentId) as [existingParent|] eqn:Hparent.
    + intros Hrun.
      destruct (IH _ _ _ (graft existingParent (leaf (length (heap st)) status) T) Hrun)
        as [T' Hrtc].
      exists T'. eapply rtc_l; [|exact Hrtc]. by eapply attached_reply.
    + apply IH.
  - intros Hrun.
    destruct (IH _ _ _ (graft rootNode (leaf (length (heap st)) status) T) Hrun)
      as [T' Hrtc].
    exists T'. eapply rtc_l; [|exact Hrtc]. by eapply attached_top.
Qed.

Lemma forLoop_numAdded_le fuel rootNode i numAdded st n st' :
  forLoop fuel rootNode i numAdded st = Some (n, st') → numAdded ≤ n.
Proof.
  revert i numAdded st. induction fuel as [|fuel IH]; intros i numAdded st; [done|].
  simpl. destruct (unsortedStatuses st !! i) as [x|]; [|intros [= <- _]; lia].
  destruct (Status.in_reply_to_id x) as [parentId|].
  - destruct (idMap st !! parentId).
    + intros Hrun%IH. lia.
    + apply IH.
  - intros Hrun%IH. lia.
Qed.

(** A pass that attached nothing left the state alone and found every
    post from [i] on replying to something outside the index. *)
Lemma forLoop_none_added fuel rootNode i numAdded st st' :
  forLoop fuel rootNode i numAdded st = Some (numAdded, st') →
  st' = st ∧ ∀ j x, i ≤ j → unsortedStatuses st !! j = Some x → stuckOn st x.
Proof.
  revert i. induction fuel as [|fuel IH]; intros i; [done|].
  simpl. destruct (unsortedStatuses st !! i) as [x|] eqn:Hi.
  2:{ intros [= <-]. split; [done|]. intros j y Hle Hj.
      apply lookup_ge_None in Hi. apply lookup_lt_Some in Hj. lia. }
  destruct (Status.in_reply_to_id x) as [parentId|] eqn:Hreply.
  - destruct (idMap st !! parentId) as [existingParent|] eqn:Hparent.
    + intros Hrun%forLoop_numAdded_le. lia.
    + intros Hrun. destruct (IH _ Hrun) as [-> Hstuck]. split; [done|].
      intros j y Hle Hj. destruct (decide (j = i)) as [->|Hne].
      * rewrite Hi in Hj. injection Hj as <-. by exists parentId.
      * apply (Hstuck j); [lia|done].
  - intros Hrun%forLoop_numAdded_le. lia.
Qed.

Lemma attachPass_attached rootNode st st' continue T :
  attachPass rootNode st = Some (st', continue) →
  ∃ T', rtc (Attached rootNode) (st, T) (st', T').
Proof.
  unfold attachPass.
  destruct (forLoop _ _ _ _ _) as [[n st1]|] eqn:Hfor; [|done].
  destruct (forLoop_attached _ _ _ _ _ _ _ T Hfor) as [T1 Hrtc].
  destruct (unsortedStatuses st1) as [|x l] eqn:Hpool.
  { intros [= <- _]. by exists T1. }
  destruct (decide (n = 0)) as [->|Hn].
  - intros [= <- _].
    destruct (last (unsortedStatuses st1)) as [status|] eqn:Hlast.
    2:{ apply last_None in Hlast. congruence. }
    exists (graft rootNode (leaf (length (heap st1)) status) T1).
    eapply rtc_r; [exact Hrtc|]. apply attached_stuck; [done|].
    destruct (forLoop_none_added _ _ _ _ _ _ Hfor) as [-> Hstuck].
    intros y [j Hj]%list_elem_of_lookup. apply (Hstuck j); [lia|done].
  - intros [= <- _]. by exists T1.
Qed.

Lemma attachLoop_attached fuel rootNode st st' T :
  attachLoop fuel rootNode st = Some st' →
  ∃ T', rtc (Attached rootNode) (st, T) (st', T').
Proof.
  revert st T. induction fuel as [|fuel IH]; intros st T; [done|].
  simpl. destruct (unsortedStatuses st) as [|x l] eqn:Hpool.
  { intros [= <-]. by exists T. }
  destruct (attachPass rootNode st) as [[st1 continue]|] eqn:Hpass; [|done].
  destruct (attachPass_attached _ _ _ _ T Hpass) as [T1 Hrtc].
  destruct continue.
  - intros Hrun. destruct (IH _ T1 Hrun) as [T' Hrtc'].
    exists T'. by etrans.
  - intros [= <-]. by exists T1.
Qed.

Lemma rtc_Attached_invariant rootNode (J : BuildState → OTree → Prop) :
  (∀ st T st' T', Attached rootNode (st, T) (st', T') → J st T → J st' T') →
  ∀ st T st' T', rtc (Attached rootNode) (st, T) (st', T') → J st T → J st' T'.
Proof.
  intros Hstep st T st' T' Hrtc.
  remember (st, T) as a eqn:Ha. remember (st', T') as b eqn:Hb.
  revert st T Ha. induction Hrtc as [x|x [st1 T1] z Hxy Hyz IH]; intros st T ->.
  - injection Hb as -> ->. done.
  - intros HJ. eapply IH; [done..|]. eapply Hstep; [exact Hxy|exact HJ].
Qed.

(** ** Preservation of the shape invariant *)

Lemma Repr_leaf_after_push h parent status :
  parent < length h →
  Repr (push_child parent (length h) (h ++ [PostTreeStatusNode status [] false]))
       (leaf (length h) status).
Proof.
  intros Hlt. constructor; [|done|constructor].
  unfold push_child. rewrite list_lookup_alter_ne by lia.
  by rewrite lookup_app_r, Nat.sub_diag by lia.
Qed.

Lemma oappendAt_orefs path C T T' :
  oappendAt path C T = Some T' → orefs T' ≡ₚ orefs T ++ orefs C.
Proof.
  revert T T'. induction path as [|i path IH]; intros [r n k] T' Happ; simpl in Happ.
  - injection Happ as <-. simpl. rewrite bind_app. simpl. by rewrite app_nil_r.
  - destruct (k !! i) as [x|] eqn:Hi; [|done].
    destruct (oappendAt path C x) as [x'|] eqn:Hx; [|done].
    injection Happ as <-. simpl.
    by rewrite (bind_insert_perm _ _ _ _ _ _ Hi (IH _ _ Hx)).
Qed.

Lemma orefs_graft_leaf p r s T :
  NoDup (orefs T) → r ∉ orefs T → NoDup (orefs (graft p (leaf r s) T)).
Proof.
  intros Hnd Hr. destruct (decide (p ∈ orefs T)) as [Hp|Hp].
  2:{ by rewrite graft_absent. }
  destruct (graft_path p (leaf r s) T Hnd Hp) as (path & X & _ & _ & Happ).
  rewrite (oappendAt_orefs _ _ _ _ Happ). simpl.
  apply NoDup_app. split; [done|]. split; [|apply NoDup_singleton].
  intros x Hx ->%list_elem_of_singleton. done.
Qed.

Lemma Inv_attachAt rootNode st T parent i status :
  Inv rootNode st T → parent < length (heap st) →
  Inv rootNode (attachAt parent i status st)
      (graft parent (leaf (length (heap st)) status) T).
Proof.
  intros [HR Hroot Hnd Hmap] Hparent. constructor; simpl.
  - apply (Repr_push _ parent (leaf (length (heap st)) status)).
    + by apply Repr_leaf_after_push.
    + by apply Repr_alloc.
  - by rewrite oref_graft.
  - apply orefs_graft_leaf; [done|].
    intros Hin. apply (Repr_refs_bound _ _ HR) in Hin. lia.
  - unfold push_child. rewrite length_alter, length_app. simpl.
    intros k r Hk. destruct (decide (Status.id status = k)) as [<-|Hne].
    + rewrite lookup_insert_eq in Hk. injection Hk as <-. lia.
    + rewrite lookup_insert_ne in Hk by done. apply Hmap in Hk. lia.
Qed.

Lemma Inv_root_bound rootNode st T : Inv rootNode st T → rootNode < length (heap st).
Proof.
  intros [HR Hroot _ _]. apply (Repr_refs_bound _ _ HR). rewrite <- Hroot.
  apply oref_in_orefs.
Qed.

Lemma Inv_handleStuck rootNode st T status :
  Inv rootNode st T → last (unsortedStatuses st) = Some status →
  Inv rootNode (handleStuck rootNode st)
      (graft rootNode (leaf (length (heap st)) status) T).
Proof.
  intros HInv Hlast. pose proof (Inv_root_bound _ _ _ HInv) as Hroot'.
  destruct HInv as [HR Hroot Hnd Hmap].
  unfold handleStuck. rewrite Hlast. unfold alloc. constructor; simpl.
  - apply (Repr_push _ rootNode (leaf (length (heap st)) status)).
    + constructor; [|done|constructor].
      unfold push_child. rewrite list_lookup_alter_ne by lia.
      rewrite lookup_app_l by (rewrite length_app; simpl; lia).
      by rewrite lookup_app_r, Nat.sub_diag by lia.
    + by do 2 apply Repr_alloc.
  - by rewrite oref_graft.
  - apply orefs_graft_leaf; [done|].
    intros Hin. apply (Repr_refs_bound _ _ HR) in Hin. lia.
  - unfold push_child. rewrite length_alter, !length_app. simpl.
    intros k r Hk. destruct (decide (Status.id status = k)) as [<-|Hne].
    + rewrite lookup_insert_eq in Hk. injection Hk as <-. lia.
    + rewrite lookup_insert_ne in Hk by done. apply Hmap in Hk. lia.
Qed.

Lemma Inv_Attached rootNode st T st' T' :
  Attached rootNode (st, T) (st', T') → Inv rootNode st T → Inv rootNode st' T'.
Proof.
  inversion 1; subst; intros HInv.
  - apply Inv_attachAt; [done|]. by eapply Inv_root_bound.
  - apply Inv_attachAt; [done|]. by eapply inv_idMap.
  - by apply Inv_handleStuck.
Qed.

(** ** A proof rule for the whole build *)

Lemma buildState_unfold requestedStatus anc desc :
  buildState requestedStatus anc desc =
  match locateRootLoop (S (length (anc ++ desc))) requestedStatus 0
          (rootedState requestedStatus (anc ++ desc)) with
  | None => None
  | Some (rootPost, st1) =>
      match attachStatusesToTree rootPost st1 with
      | None => None
      | Some st2 => Some (rootPost, st2)
      end
  end.
Proof. reflexivity. Qed.

Section BuildRule.
Variable requestedStatus : Status.t.
Variable J : nat → BuildState → OTree → Prop.

Hypothesis J_up : ∀ rootPost st T i newRootStatus,
  J rootPost st T →
  list_find (idIs (rootInReplyTo (heap st) rootPost)) (unsortedStatuses st)
    = Some (i, newRootStatus) →
  J (length (heap st)) (raisedState requestedStatus newRootStatus rootPost i st)
    (raisedShape newRootStatus rootPost st T).

Hypothesis J_attached : ∀ rootNode st T st' T',
  Attached rootNode (st, T) (st', T') → J rootNode st T → J rootNode st' T'.

Lemma locateRootLoop_rule fuel rootPost st T r st' :
  J rootPost st T →
  locateRootLoop fuel requestedStatus rootPost st = Some (r, st') →
  ∃ T', J r st' T'.
Proof.
  revert rootPost st T. induction fuel as [|fuel IH]; intros rootPost st T HJ; [done|].
  simpl. destruct (Status.in_reply_to_id requestedStatus) as [target|].
  2:{ intros [= <- <-]. eauto. }
  destruct (list_find _ _) as [[i s]|] eqn:Hfind.
  2:{ intros [= <- <-]. eauto. }
  unfold alloc. apply (IH _ _ (raisedShape s rootPost st T)). by apply J_up.
Qed.

Lemma attachStatusesToTree_rule rootNode st T st' :
  J rootNode st T →
  attachStatusesToTree rootNode st = Some st' →
  ∃ T', J rootNode st' T'.
Proof.
  intros HJ Hrun. unfold attachStatusesToTree in Hrun.
  destruct (attachLoop_attached _ _ _ _ T Hrun) as [T' Hrtc].
  exists T'. revert HJ. eapply (rtc_Attached_invariant rootNode (J rootNode)); [|done].
  apply J_attached.
Qed.

Lemma buildState_rule anc desc rootPost st :
  J 0 (rootedState requestedStatus (anc ++ desc))
      (ONode 0 (PostTreeStatusNode requestedStatus [] true) []) →
  buildState requestedStatus anc desc = Some (rootPost, st) →
  ∃ T, J rootPost st T.
Proof.
  intros HJ. rewrite buildState_unfold.
  destruct (locateRootLoop _ _ _ _) as [[r st1]|] eqn:Hlocate; [|done].
  destruct (attachStatusesToTree r st1) as [st2|] eqn:Hattach; [|done].
  intros [= <- <-].
  destruct (locateRootLoop_rule (S (length (anc ++ desc))) 0
              (rootedState requestedStatus (anc ++ desc)) _ r st1 HJ Hlocate)
    as [T1 HJ1].
  eapply attachStatusesToTree_rule; eauto.
Qed.
End BuildRule.

(** The shape invariant holds throughout. *)
Lemma Inv_rooted requestedStatus pool :
  Inv 0 (rootedState requestedStatus pool)
      (ONode 0 (PostTreeStatusNode requestedStatus [] true) []).
Proof.
  constructor; simpl.
  - by repeat constructor.
  - done.
  - apply NoDup_singleton.
  - intros k r [<- <-]%lookup_singleton_Some. lia.
Qed.

Lemma Inv_raised status newRootStatus rootPost i st T :
  Inv rootPost st T →
  Inv (length (heap st)) (raisedState status newRootStatus rootPost i st)
      (raisedShape newRootStatus rootPost st T).
Proof.
  intros [HR Hroot Hnd Hmap]. constructor; simpl.
  - constructor.
    + by rewrite lookup_app_r, Nat.sub_diag by lia.
    + simpl. by rewrite Hroot.
    + constructor; [by apply Repr_alloc|constructor].
  - done.
  - rewrite app_nil_r. apply NoDup_cons. split; [|done].
    intros Hin. apply (Repr_refs_bound _ _ HR) in Hin. lia.
  - rewrite length_app. simpl. intros k r Hk.
    destruct (decide (Status.id status = k)) as [<-|Hne].
    + rewrite lookup_insert_eq in Hk. injection Hk as <-. lia.
    + rewrite lookup_insert_ne in Hk by done. apply Hmap in Hk. lia.
Qed.

Lemma buildThreadTree_shape requestedStatus anc desc rootPost st T :
  buildState requestedStatus anc desc = Some (rootPost, st) →
  Inv rootPost st T →
  buildThreadTree requestedStatus anc desc = Some (erase T).
Proof.
  intros Hbuild [HR Hroot Hnd _]. unfold buildThreadTree. rewrite Hbuild, <- Hroot.
  by apply treeOf_Repr_heap.
Qed.

(** The build never runs out of fuel. *)
Lemma buildState_total requestedStatus anc desc :
  ∃ rootPost st, buildState requestedStatus anc desc = Some (rootPost, st)
                 ∧ unsortedStatuses st = [].
Proof.
  rewrite buildState_unfold.
  destruct (locateRootLoop_terminates (S (length (anc ++ desc))) requestedStatus 0
              (rootedState requestedStatus (anc ++ desc)))
    as (r & st1 & Hlocate & _); [simpl; lia|].
  rewrite Hlocate.
  destruct (attachLoop_terminates (S (length (unsortedStatuses st1))) r st1)
    as (st2 & Hattach & Hempty); [lia|].
  unfold attachStatusesToTree. rewrite Hattach. eauto.
Qed.

(** The rule in the form used below: an invariant that contains the shape
    invariant holds of the final state, and the returned tree is the
    erasure of the final shape. *)
Lemma buildThreadTree_rule requestedStatus (J : nat → BuildState → OTree → Prop)
    anc desc :
  (∀ rootPost st T, J rootPost st T → Inv rootPost st T) →
  (∀ rootPost st T i newRootStatus,
     J rootPost st T →
     list_find (idIs (rootInReplyTo (heap st) rootPost)) (unsortedStatuses st)
       = Some (i, newRootStatus) →
     J (length (heap st)) (raisedState requestedStatus newRootStatus rootPost i st)
       (raisedShape newRootStatus rootPost st T)) →
  (∀ rootNode st T st' T',
     Attached rootNode (st, T) (st', T') → J rootNode st T → J rootNode st' T') →
  J 0 (rootedState requestedStatus (anc ++ desc))
      (ONode 0 (PostTreeStatusNode requestedStatus [] true) []) →
  ∃ rootPost st T,
    buildState requestedStatus anc desc = Some (rootPost, st)
    ∧ unsortedStatuses st = []
    ∧ J rootPost st T
    ∧ buildThreadTree requestedStatus anc desc = Some (erase T).
Proof.
  intros HInv Hup Hatt Hinit.
  destruct (buildState_total requestedStatus anc desc) as (rootPost & st & Hbuild & Hempty).
  destruct (buildState_rule requestedStatus J Hup Hatt anc desc rootPost st Hinit Hbuild)
    as [T HJ].
  exists rootPost, st, T. repeat split; try done.
  eapply buildThreadTree_shape; eauto.
Qed.

Lemma buildThreadTree_total requestedStatus anc desc :
  ∃ t, buildThreadTree requestedStatus anc desc = Some t.
Proof.
  destruct (buildThreadTree_rule requestedStatus Inv anc desc) as (r & st & T & _ & _ & _ & Ht).
  - done.
  - intros. by apply Inv_raised.
  - apply Inv_Attached.
  - apply Inv_rooted.
  - eauto.
Qed.

(** ** What an attachment does to the returned tree *)

Lemma graft_leaf_cases p r s T :
  NoDup (orefs T) →
  ((p ∉ orefs T) ∧ graft p (leaf r s) T = T)
  ∨ (∃ path X, osubtree_at path T = Some X ∧ oref X = p
       ∧ appendAt path (StatusNode s [] false) (erase T)
           = Some (erase (graft p (leaf r s) T))).
Proof.
  intros Hnd. destruct (decide (p ∈ orefs T)) as [Hp|Hp].
  - right. destruct (graft_path p (leaf r s) T Hnd Hp) as (path & X & Hsub & HX & Happ).
    exists path, X. split; [done|]. split; [done|].
    by apply erase_oappendAt in Happ.
  - left. split; [done|]. by apply graft_absent.
Qed.

(** Every attachment takes one post out of the pool and either leaves the
    tree below the root as it is (the post went below an object outside the
    tree) or appends the post, as a status node without children that is
    not highlighted, below one node of the tree. *)
Lemma Attached_effect rootNode st T st' T' :
  Attached rootNode (st, T) (st', T') → Inv rootNode st T →
  ∃ status,
    unsortedStatuses st ≡ₚ status :: unsortedStatuses st'
    ∧ (erase T' = erase T
       ∨ ∃ path, appendAt path (StatusNode status [] false) (erase T) = Some (erase T')).
Proof.
  intros Hstep HInv.
  assert (Hcases : ∀ parent status,
    erase (graft parent (leaf (length (heap st)) status) T) = erase T
    ∨ ∃ path, appendAt path (StatusNode status [] false) (erase T)
                = Some (erase (graft parent (leaf (length (heap st)) status) T))).
  { intros parent status.
    destruct (graft_leaf_cases parent (length (heap st)) status T (inv_nodup _ _ _ HInv))
      as [[_ ->]|(path & X & _ & _ & Happ)]; [by left|right; eauto]. }
  inversion Hstep as [? ? i s Hi Hreply|? ? i s pid parent Hi Hreply Hparent|? ? s Hlast Hstuck];
    subst; exists s; (split; [|apply Hcases]).
  - rewrite attachAt_pool. by apply delete_Permutation.
  - rewrite attachAt_pool. by apply delete_Permutation.
  - rewrite handleStuck_pool.
    apply last_Some in Hlast as [l' ->]. rewrite removelast_last.
    by rewrite Permutation_app_comm.
Qed.

(** * Termination and failure behaviour of the full build *)

(** C4: the build terminates on every input.  The upward walk and the
    attachment loop both finish within the fuel given by the size of the
    pool, the pool is empty at the end, a tree is returned, and every run
    of the body of the attachment loop on a non-empty pool takes at least
    one post out of the pool, whether or not any post can be attached. *)
Theorem buildThreadTree_terminates (requestedStatus : Status.t)
    (ancestors descendants : list Status.t) :
  (∃ rootPost st1 st2,
      locateRootNode (S (length (ancestors ++ descendants))) requestedStatus
        (initialState ancestors descendants) = Some (rootPost, st1)
      ∧ attachStatusesToTree rootPost st1 = Some st2
      ∧ unsortedStatuses st2 = []
      ∧ ∃ t, treeOf (length (heap st2)) (heap st2) rootPost = Some t
             ∧ buildThreadTree requestedStatus ancestors descendants = Some t)
  ∧ (∀ rootNode st, unsortedStatuses st ≠ [] →
       ∃ st' continue, attachPass rootNode st = Some (st', continue)
         ∧ length (unsortedStatuses st') < length (unsortedStatuses st))
  ∧ (∀ fuel rootNode st, length (unsortedStatuses st) < fuel →
       ∃ st', attachLoop fuel rootNode st = Some st' ∧ unsortedStatuses st' = []).
Proof.
  split; [|split].
  - destruct (buildState_total requestedStatus ancestors descendants)
      as (rootPost & st2 & Hbuild & Hempty).
    destruct (buildState_rule requestedStatus Inv
                (λ rootPost st T i s HInv _, Inv_raised _ s _ i _ _ HInv)
                Inv_Attached ancestors descendants rootPost st2
                (Inv_rooted _ _) Hbuild) as [T HInv].
    pose proof (buildThreadTree_shape _ _ _ _ _ _ Hbuild HInv) as Hresult.
    pose proof Hresult as Htree.
    unfold buildThreadTree in Htree. rewrite Hbuild in Htree.
    unfold buildState in Hbuild.
    destruct (locateRootNode _ _ _) as [[r st1]|] eqn:Hlocate; [|done].
    destruct (attachStatusesToTree r st1) as [st2'|] eqn:Hattach; [|done].
    injection Hbuild as -> ->.
    exists rootPost, st1, st2. repeat split; try done.
    by exists (erase T).
  - intros rootNode st Hne.
    destruct (attachPass_progress rootNode st Hne) as (st' & c & Hpass & Hlt & _).
    by exists st', c.
  - intros fuel rootNode st. apply attachLoop_terminates.
Qed.

(** C3 (as amended): the full build has no identifier-revisit check and
    never fails: whatever the reply chain above the requested post looks
    like, cyclic or not, the upward walk ends within as many steps as the
    pool has posts, because each step takes the matched post out of the
    pool, and the fetcher returns a tree. *)
Theorem full_build_never_throws
    (unwrapResponse : ∀ A : Type, Response A → Outcome A)
    (props : LoadPostsProps) (client : Client) (previousTree : option PostTree)
    (response : Response Status.t) (requestedStatus : Status.t) :
  previousTree = None ∨ newCommentId props = None →
  getStatus client (postId props) = Returned response →
  unwrapResponse _ response = Returned requestedStatus →
  (∃ t, fetchPostInfoTree unwrapResponse props (Some client) previousTree
          = Some (Returned t))
  ∧ (∀ fuel rootPost st, length (unsortedStatuses st) < fuel →
       ∃ r st', locateRootLoop fuel requestedStatus rootPost st = Some (r, st')
                ∧ length (unsortedStatuses st') ≤ length (unsortedStatuses st)).
Proof.
  intros Hpath Hget Hunwrap. split; [|intros; by apply locateRootLoop_terminates].
  assert (Hfull : ∃ t, fullBuild unwrapResponse client (postId props) requestedStatus
                       = Some t).
  { unfold fullBuild. destruct (fetchContext _ _ _) as [ctx|e]; [|eauto].
    apply buildThreadTree_total. }
  destruct Hfull as [t Ht]. exists t.
  assert (Hrest : (match getStatus client (postId props) with
                   | Thrown e0 => Some (Thrown e0)
                   | Returned response0 =>
                       match unwrapResponse _ response0 with
                       | Thrown e0 => Some (Thrown e0)
                       | Returned rs =>
                           Returned <$> fullBuild unwrapResponse client (postId props) rs
                       end
                   end) = Some (Returned t)).
  { by rewrite Hget, Hunwrap, Ht. }
  unfold fetchPostInfoTree.
  destruct Hpath as [-> | ->]; simpl; try destruct previousTree; exact Hrest.
Qed.

(** The chain A → B → A: requested post [A] replies to [B], the only
    ancestor [B] replies to [A].  The fetcher returns the tree [B [A]]. *)
Lemma cyclic_chain_is_built :
  Status.in_reply_to_id Sample.A = Some (Status.id Sample.B)
  ∧ Status.in_reply_to_id Sample.B = Some (Status.id Sample.A)
  ∧ buildThreadTree Sample.A [Sample.B] []
      = Some (StatusNode Sample.B [StatusNode Sample.A [] true] false)
  ∧ fetchPostInfoTree unwrapOn200 (mkLoadProps "A" None) (Some Sample.client) None
      = Some (Returned (StatusNode Sample.B [StatusNode Sample.A [] true] false))
  ∧ ¬ ∃ e, fetchPostInfoTree unwrapOn200 (mkLoadProps "A" None) (Some Sample.client) None
             = Some (Thrown e).
Proof.
  split; [reflexivity|]. split; [reflexivity|].
  split; [vm_compute; reflexivity|]. split; [vm_compute; reflexivity|].
  intros [e He]. vm_compute in He. discriminate He.
Qed.

Lemma full_build_never_throws_witness :
  (∃ t, fetchPostInfoTree unwrapOn200 (mkLoadProps "A" None) (Some Sample.client) None
          = Some (Returned t))
  ∧ (∀ fuel rootPost st, length (unsortedStatuses st) < fuel →
       ∃ r st', locateRootLoop fuel Sample.A rootPost st = Some (r, st')
                ∧ length (unsortedStatuses st') ≤ length (unsortedStatuses st)).
Proof.
  apply (full_build_never_throws unwrapOn200 (mkLoadProps "A" None) Sample.client None
           (mkResponse 200 "OK" Sample.A) Sample.A).
  - left. reflexivity.
  - reflexivity.
  - reflexivity.
Defined.

Lemma context_failure_degrades_witness :
  ∃ message,
    fetchPostInfoTree unwrapOn200 (mkLoadProps "P" None) (Some Sample.client) None
      = Some (Returned (StatusNode Sample.P [PlaceholderNode message [] false] true))
    ∧ message = "Failed to get context for post P: Network Error".
Proof.
  apply (context_failure_degrades unwrapOn200 (mkLoadProps "P" None) Sample.client None
           (mkResponse 200 "OK" Sample.P) Sample.P (ErrorObject "Network Error")).
  - left. reflexivity.
  - reflexivity.
  - reflexivity.
  - left. reflexivity.
Defined.


(** ** Distinct identifiers *)

Lemma idsAccounted_raised input status newRootStatus rootPost i st T :
  idsAccounted input rootPost st T →
  unsortedStatuses st !! i = Some newRootStatus →
  idsAccounted input (length (heap st))
    (raisedState status newRootStatus rootPost i st)
    (raisedShape newRootStatus rootPost st T).
Proof.
  intros [HInv Hsub] Hi. split; [by apply Inv_raised|].
  simpl. rewrite app_nil_r.
  rewrite (delete_Permutation _ _ _ Hi), fmap_cons in Hsub.
  by rewrite <- Permutation_middle in Hsub.
Qed.

Lemma idsAccounted_Attached input rootNode st T st' T' :
  Attached rootNode (st, T) (st', T') →
  idsAccounted input rootNode st T → idsAccounted input rootNode st' T'.
Proof.
  intros Hstep [HInv Hsub]. split; [by eapply Inv_Attached|].
  destruct (Attached_effect _ _ _ _ _ Hstep HInv) as (status & Hpool & [->|[path Happ]]).
  - rewrite Hpool, fmap_cons in Hsub.
    etrans; [|exact Hsub]. apply submseteq_skips_l, submseteq_cons. done.
  - rewrite (appendAt_ids _ _ _ _ Happ). simpl.
    rewrite Hpool, fmap_cons in Hsub. by rewrite <- (assoc (++)).
Qed.

(** C5 (as amended): when the identifiers of the requested post and of the
    posts of the pool are pairwise distinct, the build returns one tree in
    which no identifier occurs twice, and every identifier in it comes from
    the input. *)
Theorem distinct_ids_stay_distinct (requestedStatus : Status.t)
    (ancestors descendants : list Status.t) :
  NoDup (Status.id requestedStatus :: (Status.id <$> ancestors ++ descendants)) →
  ∃ t, buildThreadTree requestedStatus ancestors descendants = Some t
       ∧ NoDup (tree_ids t)
       ∧ tree_ids t ⊆+ Status.id requestedStatus :: (Status.id <$> ancestors ++ descendants).
Proof.
  intros Hnd.
  set (input := Status.id requestedStatus :: (Status.id <$> ancestors ++ descendants)) in *.
  destruct (buildThreadTree_rule requestedStatus (idsAccounted input) ancestors descendants)
    as (r & st & T & _ & Hempty & [_ Hsub] & Ht).
  - by intros ??? [? _].
  - intros rootPost st T i s HJ (Hi & _ & _)%list_find_Some.
    by apply idsAccounted_raised.
  - apply idsAccounted_Attached.
  - split; [apply Inv_rooted|]. done.
  - rewrite Hempty, app_nil_r in Hsub. exists (erase T). split; [done|]. split; [|done].
    apply submseteq_Permutation in Hsub as [k Hk]. rewrite Hk in Hnd.
    by apply NoDup_app in Hnd as [? _].
Qed.

Lemma distinct_ids_stay_distinct_witness :
  ∃ t, buildThreadTree Sample.P [] [Sample.S; Sample.R] = Some t
       ∧ NoDup (tree_ids t)
       ∧ tree_ids t ⊆+ ["P"; "S"; "R"].
Proof.
  apply (distinct_ids_stay_distinct Sample.P [] [Sample.S; Sample.R]).
  apply (bool_decide_unpack _). vm_compute. exact I.
Defined.

(** The same post reported both as ancestor and as descendant ends up in
    two nodes. *)
Lemma duplicated_input_is_duplicated :
  ∃ t, buildThreadTree Sample.P [Sample.X] [Sample.X] = Some t
       ∧ tree_ids t = ["P"; "X"; "X"]
       ∧ ¬ NoDup (tree_ids t).
Proof.
  eexists. split; [vm_compute; reflexivity|]. split; [reflexivity|].
  simpl. intros Hnd. apply NoDup_cons in Hnd as [_ Hnd].
  apply NoDup_cons in Hnd as [Hx _]. apply Hx. left.
Qed.

(** ** No placeholder is ever reachable from the root *)

Lemma onlyStatuses_Attached rootNode st T st' T' :
  Attached rootNode (st, T) (st', T') →
  onlyStatuses rootNode st T → onlyStatuses rootNode st' T'.
Proof.
  intros Hstep [HInv Hcount]. split; [by eapply Inv_Attached|].
  destruct (Attached_effect _ _ _ _ _ Hstep HInv) as (status & _ & [->|[path Happ]]).
  - done.
  - rewrite (appendAt_placeholderCount _ _ _ _ Happ), Hcount. done.
Qed.

Lemma buildThreadTree_onlyStatuses requestedStatus anc desc :
  ∃ t, buildThreadTree requestedStatus anc desc = Some t ∧ placeholderCount t = 0.
Proof.
  destruct (buildThreadTree_rule requestedStatus onlyStatuses anc desc)
    as (r & st & T & _ & _ & [_ Hcount] & Ht).
  - by intros ??? [? _].
  - intros rootPost st T i s [HInv Hcount] _. split; [by apply Inv_raised|].
    simpl. lia.
  - apply onlyStatuses_Attached.
  - split; [apply Inv_rooted|]. done.
  - eauto.
Qed.

(** C1: a reply [X] to a post that is nowhere in the context.  The stuck
    branch creates the placeholder "Missing post id Z" and indexes [X] under
    it, but the node pushed onto the root is the status node of [X] itself:
    the placeholder is not part of the returned tree.  Since no other place
    pushes a placeholder either, no tree returned by the build contains
    one. *)
Theorem stuck_post_gets_no_placeholder :
  buildThreadTree Sample.P [] [Sample.X]
    = Some (StatusNode Sample.P [StatusNode Sample.X [] false] true)
  ∧ (∃ st, buildState Sample.P [] [Sample.X] = Some (0, st)
           ∧ heap st = [ PostTreeStatusNode Sample.P [1] true;
                         PostTreeStatusNode Sample.X [] false;
                         PostTreePlaceholderNode "Missing post id Z" [1] false ]
           ∧ idMap st !! "X" = Some 2)
  ∧ ∀ requestedStatus ancestors descendants,
      ∃ t, buildThreadTree requestedStatus ancestors descendants = Some t
           ∧ placeholderCount t = 0.
Proof.
  split; [vm_compute; reflexivity|]. split.
  - eexists. split; [vm_compute; reflexivity|]. split; [reflexivity|].
    vm_compute. reflexivity.
  - apply buildThreadTree_onlyStatuses.
Qed.

(** * The incremental patch *)

Lemma NoDup_submseteq_mono {A} (l k : list A) : l ⊆+ k → NoDup k → NoDup l.
Proof.
  intros [k' Hk]%submseteq_Permutation Hnd. rewrite Hk in Hnd.
  by apply NoDup_app in Hnd as [? _].
Qed.

Lemma subtree_at_ids path t X s :
  subtree_at path t = Some X → treeStatus X = Some s → Status.id s ∈ tree_ids t.
Proof.
  revert t. induction path as [|i path IH]; intros t; simpl.
  - intros [= <-] Hs. rewrite tree_ids_unfold, Hs. left.
  - destruct (kids t !! i) as [x|] eqn:Hi; [|done]. intros Hsub Hs.
    rewrite tree_ids_unfold. apply elem_of_app. right.
    apply list_elem_of_bind. exists x. split; [eauto|].
    by eapply list_elem_of_lookup_2.
Qed.

Lemma tree_ids_subtree_at t x :
  x ∈ tree_ids t →
  ∃ path X s, subtree_at path t = Some X ∧ treeStatus X = Some s ∧ Status.id s = x.
Proof.
  induction t as [s k h IH|m k h IH] using PostTree_nested_ind; simpl.
  - intros [->|Hx]%elem_of_cons.
    + by exists [], (StatusNode s k h), s.
    + apply list_elem_of_bind in Hx as (c & Hx & Hc).
      rewrite Forall_forall in IH.
      destruct (IH c Hc Hx) as (path & X & s' & Hsub & Hs & Hid).
      apply list_elem_of_lookup in Hc as [i Hi].
      exists (i :: path), X, s'. simpl. by rewrite Hi.
  - intros Hx. apply list_elem_of_bind in Hx as (c & Hx & Hc).
    rewrite Forall_forall in IH.
    destruct (IH c Hc Hx) as (path & X & s' & Hsub & Hs & Hid).
    apply list_elem_of_lookup in Hc as [i Hi].
    exists (i :: path), X, s'. simpl. by rewrite Hi.
Qed.

Lemma forChildren_cons f c k visited success :
  forChildren f (c :: k) visited success =
  match f c visited success with
  | Thrown e => Thrown e
  | Returned (c', visited', success') =>
      match forChildren f k visited' success' with
      | Thrown e => Thrown e
      | Returned (k', visited'', success'') => Returned (c' :: k', visited'', success'')
      end
  end.
Proof. reflexivity. Qed.

Section Patch.
Variable newComment : Status.t.

Lemma forChildren_walksThrough k :
  Forall (walksThrough newComment) k →
  ∀ visited success,
    (∀ x, x ∈ k ≫= tree_ids → Some x ≠ Status.in_reply_to_id newComment) →
    NoDup (visited ++ (k ≫= tree_ids)) →
    forChildren (tryAttachTo newComment) k visited success
      = Returned (k, visited ++ (k ≫= tree_ids), success).
Proof.
  induction 1 as [|c k Hc _ IHk]; intros visited success Hno Hnd.
  { simpl. by rewrite app_nil_r. }
  rewrite bind_cons in Hno, Hnd. rewrite (assoc (++)) in Hnd.
  rewrite forChildren_cons, Hc.
  - rewrite IHk; [by rewrite bind_cons, (assoc (++))| |done].
    intros x Hx. apply Hno, elem_of_app. by right.
  - intros x Hx. apply Hno, elem_of_app. by left.
  - by apply NoDup_app in Hnd as [? _].
Qed.

Lemma tryAttachTo_walksThrough t : walksThrough newComment t.
Proof.
  induction t as [s k h IH|m k h IH] using PostTree_nested_ind;
    intros visited success Hno Hnd; simpl in *.
  - destruct (decide (Status.id s ∈ visited)) as [Hin|_].
    { apply NoDup_app in Hnd as (_ & Hdisj & _). destruct (Hdisj _ Hin). left. }
    destruct (decide (Some (Status.id s) = Status.in_reply_to_id newComment)) as [Heq|_].
    { destruct (Hno (Status.id s)); [left|done]. }
    rewrite (forChildren_walksThrough k IH).
    + by rewrite <- (assoc (++)).
    + intros x Hx. apply Hno. by right.
    + by rewrite <- (assoc (++)).
  - by rewrite (forChildren_walksThrough k IH).
Qed.

Variable tid : string.
Hypothesis Htarget : Status.in_reply_to_id newComment = Some tid.

(** A walk through children of which exactly the [i]-th holds the
    target. *)
Lemma forChildren_match (Q : PostTree → Prop) k i x :
  k !! i = Some x → tid ∈ tree_ids x →
  (∀ visited success, NoDup (visited ++ tree_ids x) →
     ∃ x' w, tryAttachTo newComment x visited success = Returned (x', visited ++ w, true)
             ∧ w ⊆+ tree_ids x ∧ Q x') →
  ∀ visited success, NoDup (visited ++ (k ≫= tree_ids)) →
    ∃ x' w, forChildren (tryAttachTo newComment) k visited success
              = Returned (<[i := x']> k, visited ++ w, true)
            ∧ w ⊆+ k ≫= tree_ids ∧ Q x'.
Proof.
  intros Hi Htid Hx. revert i Hi.
  induction k as [|c k IHk]; intros i Hi visited success Hnd; [done|].
  rewrite bind_cons in Hnd. rewrite bind_cons.
  destruct i as [|i]; simpl in Hi.
  - injection Hi as ->. rewrite forChildren_cons.
    destruct (Hx visited success) as (x' & w & -> & Hw & HQ).
    { rewrite (assoc (++)) in Hnd. by apply NoDup_app in Hnd as [? _]. }
    assert (Hnd' : NoDup ((visited ++ w) ++ (k ≫= tree_ids))).
    { eapply NoDup_submseteq_mono; [|exact Hnd].
      rewrite <- (assoc (++)). apply submseteq_skips_l. by apply submseteq_skips_r. }
    rewrite (forChildren_walksThrough k); [| |intros y Hy Heq|done].
    + exists x', (w ++ (k ≫= tree_ids)). split; [by rewrite (assoc (++))|].
      split; [by apply submseteq_skips_r|done].
    + apply Forall_forall. intros ??. apply tryAttachTo_walksThrough.
    + rewrite Htarget in Heq. injection Heq as ->.
      apply NoDup_app in Hnd as (_ & _ & Hnd). apply NoDup_app in Hnd as (_ & Hdisj & _).
      by apply (Hdisj tid).
  - rewrite forChildren_cons, (tryAttachTo_walksThrough c).
    + destruct (IHk i Hi (visited ++ tree_ids c) success) as (x' & w & -> & Hw & HQ).
      { by rewrite <- (assoc (++)). }
      exists x', (tree_ids c ++ w). split; [by rewrite (assoc (++))|].
      split; [by apply submseteq_skips_l|done].
    + intros y Hy Heq. rewrite Htarget in Heq. injection Heq as ->.
      apply NoDup_app in Hnd as (_ & _ & Hnd). apply NoDup_app in Hnd as (_ & Hdisj & _).
      apply (Hdisj tid Hy). apply list_elem_of_bind. exists x. split; [done|].
      by eapply list_elem_of_lookup_2.
    + rewrite (assoc (++)) in Hnd. by apply NoDup_app in Hnd as [? _].
Qed.

(** The walk finds the node with the target identifier wherever it is,
    and appends the new reply there. *)
Lemma tryAttachTo_match path :
  ∀ t X s0 visited success,
    subtree_at path t = Some X → treeStatus X = Some s0 → Status.id s0 = tid →
    NoDup (visited ++ tree_ids t) →
    ∃ t' w, tryAttachTo newComment t visited success = Returned (t', visited ++ w, true)
            ∧ w ⊆+ tree_ids t
            ∧ appendAt path (newReplyNode newComment) t = Some t'.
Proof.
  induction path as [|i path IH]; intros t X s0 visited success Hsub Hs Hid Hnd.
  - injection Hsub as <-. destruct t as [s k h|m k h]; [|done].
    injection Hs as ->. simpl in *.
    destruct (decide (Status.id s0 ∈ visited)) as [Hin|_].
    { apply NoDup_app in Hnd as (_ & Hdisj & _). destruct (Hdisj _ Hin). left. }
    destruct (decide (Some (Status.id s0) = Status.in_reply_to_id newComment)) as [_|Hne].
    2:{ destruct Hne. by rewrite Htarget, Hid. }
    rewrite Hid. exists (StatusNode s0 (k ++ [newReplyNode newComment]) h), [tid].
    split; [done|]. split; [|done].
    apply submseteq_skip, submseteq_nil_l.
  - simpl in Hsub. destruct (kids t !! i) as [x|] eqn:Hi; [|done].
    assert (Htid : tid ∈ tree_ids x) by (rewrite <- Hid; by eapply subtree_at_ids).
    assert (Hkids : ∀ visited success, NoDup (visited ++ (kids t ≫= tree_ids)) →
              ∃ x' w, forChildren (tryAttachTo newComment) (kids t) visited success
                        = Returned (<[i := x']> (kids t), visited ++ w, true)
                      ∧ w ⊆+ kids t ≫= tree_ids
                      ∧ appendAt path (newReplyNode newComment) x = Some x').
    { apply (forChildren_match _ _ _ x Hi Htid). intros. by eapply IH. }
    destruct t as [s k h|m k h]; simpl in *.
    + destruct (decide (Status.id s ∈ visited)) as [Hin|_].
      { apply NoDup_app in Hnd as (_ & Hdisj & _). destruct (Hdisj _ Hin). left. }
      destruct (decide (Some (Status.id s) = Status.in_reply_to_id newComment)) as [Heq|_].
      1:{ exfalso. rewrite Htarget in Heq. injection Heq as Heq.
          apply NoDup_app in Hnd as (_ & _ & Hnd). apply NoDup_cons in Hnd as [Hnotin _].
          apply Hnotin. rewrite Heq. apply list_elem_of_bind. exists x. split; [done|].
          by eapply list_elem_of_lookup_2. }
      destruct (Hkids (visited ++ [Status.id s]) success) as (x' & w & -> & Hw & Happ).
      { by rewrite <- (assoc (++)). }
      rewrite Hi, Happ.
      exists (StatusNode s (<[i := x']> k) h), (Status.id s :: w).
      split; [by rewrite <- (assoc (++))|]. split; [by apply submseteq_skip|done].
    + destruct (Hkids visited success Hnd) as (x' & w & -> & Hw & Happ).
      rewrite Hi, Happ. by exists (PlaceholderNode m (<[i := x']> k) h), w.
Qed.
End Patch.

Lemma appendAt_subtree_at p c t t' X :
  appendAt p c t = Some t' → subtree_at p t = Some X →
  subtree_at p t' = Some (pushKid c X).
Proof.
  revert t t'. induction p as [|i p IH]; intros t t'.
  - by intros [= <-] [= <-].
  - intros (x & x' & Hi & Hx & ->)%appendAt_inv_cons. simpl. rewrite Hi, kids_setKids.
    rewrite list_lookup_insert_eq by (by eapply lookup_lt_Some). eauto.
Qed.

(** What [appendAt] leaves alone: every position of the old tree is a
    position of the new one with the same payload and flag; only the node at
    [p] has other children, namely one more at the end. *)
Lemma appendAt_frame p c t t' :
  appendAt p c t = Some t' →
  ∀ q Y, subtree_at q t = Some Y →
    ∃ Y', subtree_at q t' = Some Y'
          ∧ nodeLabel Y' = nodeLabel Y
          ∧ (q ≠ p → length (kids Y') = length (kids Y))
          ∧ (q = p → kids Y' = kids Y ++ [c]).
Proof.
  revert t t'. induction p as [|i p IH]; intros t t'.
  - intros [= <-] [|j q] Y; simpl.
    + intros [= <-]. exists (pushKid c t).
      rewrite nodeLabel_pushKid, kids_pushKid. done.
    + destruct (kids t !! j) as [z|] eqn:Hj; [|done]. intros HY.
      rewrite kids_pushKid, lookup_app_l by (by eapply lookup_lt_Some).
      rewrite Hj. exists Y. done.
  - intros (x & x' & Hi & Hx & ->)%appendAt_inv_cons [|j q] Y; simpl.
    + intros [= <-]. exists (setKids (<[i := x']> (kids t)) t).
      rewrite nodeLabel_setKids, kids_setKids, length_insert. done.
    + rewrite kids_setKids. destruct (decide (j = i)) as [->|Hne].
      * rewrite Hi, list_lookup_insert_eq by (by eapply lookup_lt_Some). intros HY.
        destruct (IH _ _ Hx q Y HY) as (Y' & HY' & Hlabel & Hother & Hsame).
        exists Y'. split; [done|]. split; [done|]. split.
        -- intros Hq. apply Hother. congruence.
        -- intros [= ->]. by apply Hsame.
      * rewrite list_lookup_insert_ne by done.
        destruct (kids t !! j) as [z|] eqn:Hj; [|done]. intros HY.
        exists Y. split; [done|]. split; [done|]. split; [done|]. congruence.
Qed.

Lemma patchNewReply_match t newComment path X s :
  NoDup (tree_ids t) →
  subtree_at path t = Some X → treeStatus X = Some s →
  Status.in_reply_to_id newComment = Some (Status.id s) →
  ∃ t', patchNewReply t newComment = Returned t'
        ∧ appendAt path (newReplyNode newComment) t = Some t'.
Proof.
  intros Hnd Hsub Hs Htarget. unfold patchNewReply.
  destruct (tryAttachTo_match newComment (Status.id s) Htarget path t X s [] false
              Hsub Hs eq_refl Hnd) as (t' & w & -> & _ & Happ).
  by exists t'.
Qed.

Lemma patchNewReply_nomatch t newComment :
  NoDup (tree_ids t) →
  (∀ x, x ∈ tree_ids t → Some x ≠ Status.in_reply_to_id newComment) →
  patchNewReply t newComment = Returned (pushKid (newReplyNode newComment) t).
Proof.
  intros Hnd Hno. unfold patchNewReply.
  by rewrite (tryAttachTo_walksThrough newComment t [] false Hno Hnd).
Qed.

(** The patch branch of the fetcher is [patchNewReply] on the fetched
    comment. *)
Lemma fetchPostInfoTree_patch
    (unwrapResponse : ∀ A : Type, Response A → Outcome A)
    (props : LoadPostsProps) (client : Client) (previousTree : PostTree)
    (commentId text : string) (newComment : Status.t) :
  newCommentId props = Some commentId →
  getStatus client commentId = Returned (mkResponse 200 text newComment) →
  fetchPostInfoTree unwrapResponse props (Some client) (Some previousTree)
    = Some (patchNewReply previousTree newComment).
Proof.
  intros Hid Hget. unfold fetchPostInfoTree. by rewrite Hid, Hget.
Qed.

(** C6: on a tree whose status nodes carry pairwise distinct identifiers,
    a new post replying to the identifier of a node of the tree becomes one
    new highlighted child, last among the children of exactly that node;
    a new post replying to nothing in the tree becomes the last child of
    the root.  It is never dropped. *)
Theorem patchNewReply_attaches (t : PostTree) (newComment : Status.t) :
  NoDup (tree_ids t) →
  (∀ path X s,
     subtree_at path t = Some X → treeStatus X = Some s →
     Status.in_reply_to_id newComment = Some (Status.id s) →
     ∃ t', patchNewReply t newComment = Returned t'
           ∧ appendAt path (StatusNode newComment [] true) t = Some t'
           ∧ subtree_at path t' = Some (pushKid (StatusNode newComment [] true) X)
           ∧ nodeCount t' = S (nodeCount t))
  ∧ ((∀ x, x ∈ tree_ids t → Some x ≠ Status.in_reply_to_id newComment) →
     patchNewReply t newComment = Returned (pushKid (StatusNode newComment [] true) t)).
Proof.
  intros Hnd. split.
  - intros path X s Hsub Hs Htarget.
    destruct (patchNewReply_match t newComment path X s Hnd Hsub Hs Htarget)
      as (t' & Hpatch & Happ).
    exists t'. split; [done|]. split; [done|]. split.
    + by eapply appendAt_subtree_at.
    + rewrite (appendAt_nodeCount _ _ _ _ Happ). simpl. lia.
  - by apply patchNewReply_nomatch.
Qed.

(** C10: on a tree whose status nodes carry pairwise distinct identifiers,
    a patch that returns has changed the tree at one position only: the
    node there has the new highlighted, childless status node as one more
    last child; every node of the old tree is still at its position with
    the same status or message and the same flag, and all nodes but that
    one have as many children as before. *)
Theorem patchNewReply_frame (t t' : PostTree) (newComment : Status.t) :
  NoDup (tree_ids t) →
  patchNewReply t newComment = Returned t' →
  ∃ path X,
    subtree_at path t = Some X
    ∧ appendAt path (StatusNode newComment [] true) t = Some t'
    ∧ nodeCount t' = S (nodeCount t)
    ∧ ∀ q Y, subtree_at q t = Some Y →
        ∃ Y', subtree_at q t' = Some Y'
              ∧ nodeLabel Y' = nodeLabel Y
              ∧ (q ≠ path → length (kids Y') = length (kids Y))
              ∧ (q = path → kids Y' = kids Y ++ [StatusNode newComment [] true]).
Proof.
  intros Hnd Hpatch.
  assert (Hwhere : ∃ path X, subtree_at path t = Some X
                     ∧ appendAt path (newReplyNode newComment) t = Some t').
  { destruct (Status.in_reply_to_id newComment) as [tid|] eqn:Htarget.
    - destruct (decide (tid ∈ tree_ids t)) as [Hin|Hout].
      + destruct (tree_ids_subtree_at t tid Hin) as (path & X & s & Hsub & Hs & <-).
        destruct (patchNewReply_match t newComment path X s Hnd Hsub Hs Htarget)
          as (t'' & Hpatch' & Happ).
        rewrite Hpatch in Hpatch'. injection Hpatch' as <-. by exists path, X.
      + rewrite (patchNewReply_nomatch t newComment Hnd) in Hpatch.
        * injection Hpatch as <-. by exists [], t.
        * rewrite Htarget. intros x Hx [= ->]. done.
    - rewrite (patchNewReply_nomatch t newComment Hnd) in Hpatch.
      + injection Hpatch as <-. by exists [], t.
      + rewrite Htarget. done. }
  destruct Hwhere as (path & X & Hsub & Happ).
  exists path, X. split; [done|]. split; [done|]. split.
  - rewrite (appendAt_nodeCount _ _ _ _ Happ). simpl. lia.
  - by apply appendAt_frame.
Qed.

Lemma patchNewReply_attaches_witness :
  (∀ path X s,
     subtree_at path Sample.thread42 = Some X → treeStatus X = Some s →
     Status.in_reply_to_id Sample.reply99 = Some (Status.id s) →
     ∃ t', patchNewReply Sample.thread42 Sample.reply99 = Returned t'
           ∧ appendAt path (StatusNode Sample.reply99 [] true) Sample.thread42 = Some t'
           ∧ subtree_at path t' = Some (pushKid (StatusNode Sample.reply99 [] true) X)
           ∧ nodeCount t' = S (nodeCount Sample.thread42))
  ∧ ((∀ x, x ∈ tree_ids Sample.thread42 →
           Some x ≠ Status.in_reply_to_id Sample.reply99) →
     patchNewReply Sample.thread42 Sample.reply99
       = Returned (pushKid (StatusNode Sample.reply99 [] true) Sample.thread42)).
Proof.
  apply (patchNewReply_attaches Sample.thread42 Sample.reply99).
  apply (bool_decide_unpack _). vm_compute. exact I.
Defined.

Lemma patchNewReply_frame_witness :
  ∃ path X,
    subtree_at path Sample.thread42 = Some X
    ∧ appendAt path (StatusNode Sample.reply99 [] true) Sample.thread42
        = Some (StatusNode Sample.P
                  [StatusNode Sample.R [] false;
                   StatusNode Sample.post42 [StatusNode Sample.reply99 [] true] false]
                  true)
    ∧ nodeCount (StatusNode Sample.P
                  [StatusNode Sample.R [] false;
                   StatusNode Sample.post42 [StatusNode Sample.reply99 [] true] false]
                  true) = S (nodeCount Sample.thread42)
    ∧ ∀ q Y, subtree_at q Sample.thread42 = Some Y →
        ∃ Y', subtree_at q
                (StatusNode Sample.P
                  [StatusNode Sample.R [] false;
                   StatusNode Sample.post42 [StatusNode Sample.reply99 [] true] false]
                  true) = Some Y'
              ∧ nodeLabel Y' = nodeLabel Y
              ∧ (q ≠ path → length (kids Y') = length (kids Y))
              ∧ (q = path → kids Y' = kids Y ++ [StatusNode Sample.reply99 [] true]).
Proof.
  apply (patchNewReply_frame Sample.thread42 _ Sample.reply99).
  - apply (bool_decide_unpack _). vm_compute. exact I.
  - vm_compute. reflexivity.
Defined.

(** * Threads that resolve *)

Lemma lookup_push_child h p c r n :
  h !! r = Some n →
  ∃ n', push_child p c h !! r = Some n' ∧ tryGetStatus n' = tryGetStatus n.
Proof.
  intros Hr. unfold push_child. destruct (decide (p = r)) as [->|Hne].
  - rewrite list_lookup_alter_eq, Hr. simpl. exists (push c n). split; [done|].
    by destruct n.
  - rewrite list_lookup_alter_ne by done. eauto.
Qed.

Lemma lookup_attach h p c m r n :
  h !! r = Some n →
  ∃ n', push_child p c (h ++ [m]) !! r = Some n' ∧ tryGetStatus n' = tryGetStatus n.
Proof. intros Hr. apply lookup_push_child. by apply lookup_app_l_Some. Qed.

Lemma Repr_osubtree_at h path T X :
  Repr h T → osubtree_at path T = Some X → Repr h X.
Proof.
  revert T. induction path as [|i path IH]; intros [r n k] HR; simpl.
  - by intros [= <-].
  - destruct (k !! i) as [c|] eqn:Hi; [|done].
    apply Repr_inv in HR as (_ & _ & Hk). rewrite Forall_forall in Hk.
    apply IH, Hk. by eapply list_elem_of_lookup_2.
Qed.

Lemma nodeKey_at h path T X n s :
  Repr h T → osubtree_at path T = Some X →
  h !! oref X = Some n → tryGetStatus n = Some s →
  nodeKey (erase X) = inl (Status.id s).
Proof.
  intros HR Hsub Hn Hs. pose proof (Repr_osubtree_at _ _ _ _ HR Hsub) as HX.
  destruct X as [r m k]. apply Repr_inv in HX as (Hr & _ & _). simpl in *.
  rewrite Hr in Hn. injection Hn as ->. destruct n; simplify_eq/=. done.
Qed.

Lemma orefs_graft_keeps p C T r : r ∈ orefs T → r ∈ orefs (graft p C T).
Proof.
  induction T as [x n k IH] using OTree_nested_ind. simpl.
  intros [->|Hr]%elem_of_cons.
  - destruct (decide (x = p)); simpl; left.
  - assert (r ∈ (graft p C <$> k) ≫= orefs).
    { apply list_elem_of_bind in Hr as (c & Hr & Hc).
      apply list_elem_of_bind. exists (graft p C c). split.
      - rewrite Forall_forall in IH. by apply IH.
      - by apply list_elem_of_fmap_2. }
    destruct (decide (x = p)); simpl; right; [|done].
    rewrite bind_app. apply elem_of_app. by left.
Qed.

Lemma orefs_graft_adds p C T : p ∈ orefs T → oref C ∈ orefs (graft p C T).
Proof.
  induction T as [x n k IH] using OTree_nested_ind. simpl.
  destruct (decide (x = p)) as [->|Hne].
  - intros _. simpl. right. rewrite bind_app. apply elem_of_app. right.
    rewrite bind_cons. apply elem_of_app. left. apply oref_in_orefs.
  - intros [->|Hp]%elem_of_cons; [done|]. simpl. right.
    apply list_elem_of_bind in Hp as (c & Hp & Hc).
    apply list_elem_of_bind. exists (graft p C c). split.
    + rewrite Forall_forall in IH. by apply IH.
    + by apply list_elem_of_fmap_2.
Qed.

Section Threaded.
Variable req : Status.t.
Variable pool1 : list Status.t.
Variable rootStatus : Status.t.
Variable alias : string → string.

Hypothesis alias_pool : ∀ x, x ∈ pool1 → alias (Status.id x) = Status.id x.
Hypothesis resolves_pool : Forall (Resolves req pool1) pool1.

(** With a pool that resolves, a pass can only pass over every post when
    the pool is empty: the stuck branch is never taken. *)
Lemma Threaded_never_stuck rootNode st T :
  Threaded req pool1 rootStatus alias rootNode st T →
  (∀ x, x ∈ unsortedStatuses st → stuckOn st x) →
  unsortedStatuses st = [].
Proof.
  intros HT Hstuck.
  assert (Hno : ∀ x, Resolves req pool1 x → x ∈ unsortedStatuses st → False).
  { induction 1 as [x Hx|x Hx|x y Hy Hx _ IH]; intros Hin;
      destruct (Hstuck x Hin) as (parentId & Hreply & Hnone); rewrite Hx in Hreply.
    - done.
    - injection Hreply as <-.
      destruct (th_requested _ _ _ _ _ _ _ HT) as [r Hr]. congruence.
    - injection Hreply as <-.
      destruct (th_pool _ _ _ _ _ _ _ HT y Hy) as [Hin'|[r Hr]]; [by apply IH|congruence]. }
  destruct (unsortedStatuses st) as [|x l] eqn:Hpool; [done|].
  exfalso. apply (Hno x).
  - rewrite Forall_forall in resolves_pool. apply resolves_pool.
    apply (th_sub _ _ _ _ _ _ _ HT). rewrite Hpool. left.
  - left.
Qed.
Lemma Threaded_attachAt rootNode st T parent i status n sp :
  Threaded req pool1 rootStatus alias rootNode st T →
  unsortedStatuses st !! i = Some status →
  parent ∈ orefs T → heap st !! parent = Some n → tryGetStatus n = Some sp →
  Threaded req pool1 rootStatus alias rootNode (attachAt parent i status st)
    (graft parent (leaf (length (heap st)) status) T).
Proof.
  intros [HInv (n0 & Hroot & Hroots) Hindexed Hreq Hpool Hsub] Hi Hparent Hn Hsp.
  pose proof (delete_Permutation _ _ _ Hi) as Hperm.
  assert (Hlt : parent < length (heap st)) by (by eapply lookup_lt_Some).
  constructor.
  - by apply Inv_attachAt.
  - destruct (lookup_attach (heap st) parent (length (heap st))
                (PostTreeStatusNode status [] false) rootNode n0 Hroot) as (n' & Hn' & Hs').
    exists n'. split; [exact Hn'|]. by rewrite Hs'.
  - intros k r Hk. simpl in Hk.
    destruct (decide (Status.id status = k)) as [<-|Hne].
    + rewrite lookup_insert_eq in Hk. injection Hk as <-. split.
      * by apply (orefs_graft_adds parent (leaf (length (heap st)) status)).
      * exists (PostTreeStatusNode status [] false), status. simpl. split; [|split; [done|]].
        -- unfold push_child. rewrite list_lookup_alter_ne by lia.
           by rewrite lookup_app_r, Nat.sub_diag by lia.
        -- symmetry. apply alias_pool, Hsub. by eapply list_elem_of_lookup_2.
    + rewrite lookup_insert_ne in Hk by done.
      destruct (Hindexed k r Hk) as (Hr & n1 & s1 & Hn1 & Hs1 & Hid). split.
      * by apply orefs_graft_keeps.
      * destruct (lookup_attach (heap st) parent (length (heap st))
                    (PostTreeStatusNode status [] false) r n1 Hn1) as (n' & Hn' & Hs').
        exists n', s1. split; [exact Hn'|]. split; [by rewrite Hs'|done].
  - simpl. destruct (decide (Status.id status = Status.id req)) as [->|Hne].
    + rewrite lookup_insert_eq. eauto.
    + by rewrite lookup_insert_ne.
  - intros y Hy. simpl.
    destruct (decide (Status.id status = Status.id y)) as [->|Hne].
    { right. rewrite lookup_insert_eq. eauto. }
    rewrite lookup_insert_ne by done.
    destruct (Hpool y Hy) as [Hin|Hsome]; [|by right].
    rewrite Hperm in Hin. apply elem_of_cons in Hin as [->|Hin]; [done|by left].
  - intros y Hy. rewrite attachAt_pool in Hy. apply Hsub. rewrite Hperm. by right.
Qed.

Lemma Accounted_attachAt E I rootNode st T parent i status n sp :
  Accounted req pool1 rootStatus alias E I rootNode st T →
  unsortedStatuses st !! i = Some status →
  parent ∈ orefs T → heap st !! parent = Some n → tryGetStatus n = Some sp →
  Status.id sp = parentKey rootStatus alias status →
  Accounted req pool1 rootStatus alias E I rootNode (attachAt parent i status st)
    (graft parent (leaf (length (heap st)) status) T).
Proof.
  intros (HT & HE & HI & Hcount) Hi Hparent Hn Hsp Hkey.
  split; [by eapply Threaded_attachAt|].
  pose proof (delete_Permutation _ _ _ Hi) as Hperm.
  pose proof (th_inv _ _ _ _ _ _ _ HT) as HInv.
  destruct (graft_path parent (leaf (length (heap st)) status) T
              (inv_nodup _ _ _ HInv) Hparent) as (path & X & Hsub & HX & Happ).
  apply erase_oappendAt in Happ. simpl in Happ.
  rewrite attachAt_pool.
  rewrite Hperm, fmap_cons in HE. rewrite Hperm in HI.
  split; [|split].
  - rewrite (appendAt_edges _ _ _ _ _ Happ (erase_osubtree_at _ _ _ Hsub)). simpl.
    rewrite <- HX in Hn.
    rewrite (nodeKey_at _ _ _ _ n sp (inv_repr _ _ _ HInv) Hsub Hn Hsp).
    rewrite Hkey, <- (assoc (++)). exact HE.
  - rewrite (appendAt_posts _ _ _ _ Happ). simpl. by rewrite <- (assoc (++)).
  - rewrite (appendAt_placeholderCount _ _ _ _ Happ), Hcount. done.
Qed.

Lemma Accounted_Attached E I rootNode st T st' T' :
  Attached rootNode (st, T) (st', T') →
  Accounted req pool1 rootStatus alias E I rootNode st T →
  Accounted req pool1 rootStatus alias E I rootNode st' T'.
Proof.
  intros Hstep HA. pose proof HA as (HT & _).
  inversion Hstep as [? ? i s Hi Hreply|? ? i s pid parent Hi Hreply Hparent|? ? s Hlast Hstuck];
    subst.
  - destruct (th_root _ _ _ _ _ _ _ HT) as (n & Hn & Hs).
    eapply Accounted_attachAt; eauto.
    + rewrite <- (inv_root _ _ _ (th_inv _ _ _ _ _ _ _ HT)). apply oref_in_orefs.
    + unfold parentKey. by rewrite Hreply.
  - destruct (th_indexed _ _ _ _ _ _ _ HT pid parent Hparent) as (Hin & n & sp & Hn & Hs & Hid).
    eapply Accounted_attachAt; eauto.
    unfold parentKey. by rewrite Hreply.
  - rewrite (Threaded_never_stuck _ _ _ HT Hstuck) in Hlast. done.
Qed.
End Threaded.

(** The attachment loop on a pool that resolves: at the end, the tree has
    the edges and identifiers that were accounted for. *)
Lemma attach_resolving req pool1 rootStatus alias E I rootNode st1 T1 st2 :
  (∀ x, x ∈ pool1 → alias (Status.id x) = Status.id x) →
  Forall (Resolves req pool1) pool1 →
  Accounted req pool1 rootStatus alias E I rootNode st1 T1 →
  attachStatusesToTree rootNode st1 = Some st2 →
  ∃ T2, Accounted req pool1 rootStatus alias E I rootNode st2 T2.
Proof.
  intros Halias Hres HA Hrun. unfold attachStatusesToTree in Hrun.
  destruct (attachLoop_attached _ _ _ _ T1 Hrun) as [T2 Hrtc].
  exists T2. revert HA.
  eapply (rtc_Attached_invariant rootNode
            (Accounted req pool1 rootStatus alias E I rootNode)); [|done].
  intros. by eapply Accounted_Attached.
Qed.

(** ** The upward walk *)

Lemma Walked_rooted req pool :
  Walked req pool 0 (rootedState req pool) (ONode 0 (PostTreeStatusNode req [] true) []).
Proof.
  split; [apply Inv_rooted|]. split; [done|]. split; [|done].
  by exists (PostTreeStatusNode req [] true), req.
Qed.

Lemma Walked_raised req pool0 rootPost st T i s :
  Walked req pool0 rootPost st T →
  unsortedStatuses st !! i = Some s →
  Walked req pool0 (length (heap st)) (raisedState req s rootPost i st)
    (raisedShape s rootPost st T).
Proof.
  intros (HInv & Hmap & _ & HI & Hcount & Hsub) Hi.
  pose proof (delete_Permutation _ _ _ Hi) as Hperm.
  split; [by apply Inv_raised|]. simpl. split; [|split; [|split; [|split]]].
  - rewrite Hmap. apply insert_singleton_eq.
  - exists (PostTreeStatusNode s [rootPost] false), s. split; [|done].
    by rewrite lookup_app_r, Nat.sub_diag by lia.
  - rewrite app_nil_r. rewrite Hperm in HI.
    by rewrite <- Permutation_middle in HI.
  - lia.
  - intros y Hy. apply Hsub. rewrite Hperm. by right.
Qed.

Lemma locateRootLoop_Walked req pool r st1 :
  locateRootLoop (S (length pool)) req 0 (rootedState req pool) = Some (r, st1) →
  ∃ T1, Walked req pool r st1 T1.
Proof.
  intros Hrun.
  apply (locateRootLoop_rule req (Walked req pool) (λ rootPost st T i s HW Hfind,
           Walked_raised req pool rootPost st T i s HW
             (proj1 (proj1 (list_find_Some _ _ _ _) Hfind)))
           _ _ _ _ _ _ (Walked_rooted req pool) Hrun).
Qed.

Lemma remainingPool_unfold req pool :
  remainingPool req pool =
  match locateRootLoop (S (length pool)) req 0 (rootedState req pool) with
  | Some (_, st) => unsortedStatuses st
  | None => []
  end.
Proof. reflexivity. Qed.

(** From the end of the walk to the attachment loop. *)
Lemma Walked_Accounted req pool r st1 T1 :
  (∀ x, x ∈ pool → Status.id x ≠ Status.id req) →
  Walked req pool r st1 T1 →
  ∃ rootStatus,
    (∃ n, heap st1 !! r = Some n ∧ tryGetStatus n = Some rootStatus)
    ∧ (∀ x, x ∈ unsortedStatuses st1 →
         aliasOf req rootStatus (Status.id x) = Status.id x)
    ∧ Accounted req (unsortedStatuses st1) rootStatus (aliasOf req rootStatus)
        (tree_edges (erase T1)
           ++ (expectedEdge rootStatus (aliasOf req rootStatus) <$> unsortedStatuses st1))
        (req :: pool) r st1 T1.
Proof.
  intros Hfresh (HInv & Hmap & (n & s & Hn & Hs) & HI & Hcount & Hsub).
  exists s. split; [by exists n|]. split.
  - intros x Hx. unfold aliasOf. rewrite decide_False; [done|]. by apply Hfresh, Hsub.
  - split; [|done]. constructor.
    + done.
    + by exists n.
    + intros k r' Hk. rewrite Hmap in Hk. apply lookup_singleton_Some in Hk as [<- <-].
      split.
      * rewrite <- (inv_root _ _ _ HInv). apply oref_in_orefs.
      * exists n, s. split; [done|]. split; [done|].
        unfold aliasOf. by rewrite decide_True.
    + rewrite Hmap, lookup_singleton_eq. eauto.
    + intros y Hy. by left.
    + done.
Qed.

(** The build of a thread whose pool, after the upward walk, resolves:
    the tree is the chain found by the walk plus one edge for every
    remaining post, from the node the index holds for its parent. *)
Lemma buildThreadTree_walk_resolving req anc desc r st1 :
  locateRootLoop (S (length (anc ++ desc))) req 0 (rootedState req (anc ++ desc))
    = Some (r, st1) →
  (∀ x, x ∈ anc ++ desc → Status.id x ≠ Status.id req) →
  Forall (Resolves req (unsortedStatuses st1)) (unsortedStatuses st1) →
  ∃ t t1 n rootStatus,
    buildThreadTree req anc desc = Some t
    ∧ treeOf (length (heap st1)) (heap st1) r = Some t1
    ∧ heap st1 !! r = Some n ∧ tryGetStatus n = Some rootStatus
    ∧ tree_edges t ≡ₚ tree_edges t1
        ++ (expectedEdge rootStatus (aliasOf req rootStatus) <$> unsortedStatuses st1)
    ∧ tree_posts t ≡ₚ req :: (anc ++ desc)
    ∧ placeholderCount t = 0.
Proof.
  intros Hwalk Hfresh Hres.
  destruct (locateRootLoop_Walked _ _ _ _ Hwalk) as [T1 HW].
  pose proof HW as (HInv1 & _).
  destruct (Walked_Accounted _ _ _ _ _ Hfresh HW) as (rootStatus & (n & Hn & Hs) & Halias & HA).
  destruct (buildState_total req anc desc) as (r' & st2 & Hbuild & Hempty).
  pose proof Hbuild as Hbuild'. rewrite buildState_unfold, Hwalk in Hbuild'.
  destruct (attachStatusesToTree r st1) as [st2'|] eqn:Hattach; [|done].
  injection Hbuild' as <- <-.
  destruct (attach_resolving _ _ _ _ _ _ _ _ _ _ Halias Hres HA Hattach)
    as (T2 & HT2 & HE & HI & Hcount).
  rewrite Hempty, app_nil_r in HE, HI.
  exists (erase T2), (erase T1), n, rootStatus.
  split; [by eapply buildThreadTree_shape, th_inv|].
  split; [|done].
  rewrite <- (inv_root _ _ _ HInv1).
  apply treeOf_Repr_heap; [apply HInv1|apply HInv1].
Qed.

(** ** Permuting the pool *)

Lemma NoDup_fmap_eq {A B} (f : A → B) (l : list A) x y :
  NoDup (f <$> l) → x ∈ l → y ∈ l → f x = f y → x = y.
Proof.
  induction l as [|a l IH]; [by intros _ ?%elem_of_nil|].
  rewrite fmap_cons. intros [Ha Hnd]%NoDup_cons Hx Hy Heq.
  apply elem_of_cons in Hx as [->|Hx]; apply elem_of_cons in Hy as [->|Hy].
  - done.
  - destruct Ha. rewrite Heq. by apply list_elem_of_fmap_2.
  - destruct Ha. rewrite <- Heq. by apply list_elem_of_fmap_2.
  - by apply IH.
Qed.

(** With distinct identifiers, [findIndex] finds the same post whatever
    the order of the pool. *)
Lemma list_find_idIs_perm target (pool pool' : list Status.t) i s :
  pool ≡ₚ pool' → NoDup (Status.id <$> pool) →
  list_find (idIs target) pool = Some (i, s) →
  ∃ i', list_find (idIs target) pool' = Some (i', s).
Proof.
  intros Hperm Hnd (Hi & Hs & _)%list_find_Some.
  assert (Hin : s ∈ pool') by (rewrite <- Hperm; by eapply list_elem_of_lookup_2).
  destruct (list_find_elem_of (idIs target) pool' s Hin Hs) as [[i' s'] Hfind].
  exists i'. rewrite Hfind. do 2 f_equal.
  apply list_find_Some in Hfind as (Hi' & Hs' & _).
  apply (NoDup_fmap_eq Status.id pool); [done| |by eapply list_elem_of_lookup_2|].
  - rewrite Hperm. by eapply list_elem_of_lookup_2.
  - unfold idIs in *. congruence.
Qed.

Lemma list_find_perm_None {A} (P : A → Prop) `{∀ x, Decision (P x)} (l l' : list A) :
  l ≡ₚ l' → list_find P l = None → list_find P l' = None.
Proof.
  intros Hperm Hnone. apply list_find_None. apply list_find_None in Hnone.
  by rewrite <- Hperm.
Qed.

Lemma locateRootLoop_perm fuel req rootPost h m pool pool' r st1 :
  pool ≡ₚ pool' → NoDup (Status.id <$> pool) →
  locateRootLoop fuel req rootPost (mkBuild h m pool) = Some (r, st1) →
  ∃ st1', locateRootLoop fuel req rootPost (mkBuild h m pool') = Some (r, st1')
          ∧ heap st1' = heap st1 ∧ idMap st1' = idMap st1
          ∧ unsortedStatuses st1 ≡ₚ unsortedStatuses st1'.
Proof.
  revert rootPost h m pool pool'.
  induction fuel as [|fuel IH]; intros rootPost h m pool pool' Hperm Hnd; [done|].
  simpl. destruct (Status.in_reply_to_id req) as [target|].
  2:{ intros [= <- <-]. eexists. split; [done|]. done. }
  destruct (list_find _ pool) as [[i s]|] eqn:Hfind.
  - destruct (list_find_idIs_perm _ _ _ _ _ Hperm Hnd Hfind) as [i' Hfind'].
    rewrite Hfind'. unfold alloc. simpl.
    apply list_find_Some in Hfind as (Hi & _). apply list_find_Some in Hfind' as (Hi' & _).
    pose proof (delete_Permutation _ _ _ Hi) as Hdel.
    pose proof (delete_Permutation _ _ _ Hi') as Hdel'.
    apply IH.
    + apply (Permutation_cons_inv (a := s)). by rewrite <- Hdel, <- Hdel'.
    + rewrite Hdel, fmap_cons in Hnd. by apply NoDup_cons in Hnd as [_ ?].
  - rewrite (list_find_perm_None _ _ _ Hperm Hfind).
    intros [= <- <-]. eexists. split; [done|]. done.
Qed.

Lemma Resolves_perm req (pool pool' : list Status.t) x :
  pool ≡ₚ pool' → Resolves req pool x → Resolves req pool' x.
Proof.
  intros Hperm. induction 1 as [x Hx|x Hx|x y Hy Hx _ IH].
  - by apply resolves_top.
  - by apply resolves_requested.
  - apply (resolves_via _ _ x y); [by rewrite <- Hperm|done|done].
Qed.

(** * Placeholders and the order of the pool *)

(** Two posts of the pool replying to each other, below a top-level
    requested post: each replies to another post of the pool, the returned
    tree has no placeholder, and one of the two posts is wrapped by no node
    of it: it went below the marker that the stuck branch indexed without
    attaching it. *)
Lemma reply_cycle_drops_a_post :
  (∀ x, x ∈ [Sample.A; Sample.B] →
     ∃ y, y ∈ [Sample.A; Sample.B] ∧ y ≠ x
          ∧ Status.in_reply_to_id x = Some (Status.id y))
  ∧ ∃ t, buildThreadTree Sample.P [] [Sample.A; Sample.B] = Some t
         ∧ t = StatusNode Sample.P [StatusNode Sample.B [] false] true
         ∧ placeholderCount t = 0
         ∧ Status.id Sample.A ∉ tree_ids t.
Proof.
  split.
  - intros x [->|[->|[]%elem_of_nil]%elem_of_cons]%elem_of_cons.
    + exists Sample.B. split; [by right; left|]. done.
    + exists Sample.A. split; [by left|]. done.
  - eexists. split; [vm_compute; reflexivity|]. split; [reflexivity|].
    split; [reflexivity|]. simpl.
    intros [?|[?|[]%elem_of_nil]%elem_of_cons]%elem_of_cons; discriminate.
Qed.

(** C8 (as amended): for pools that are permutations of each other, with
    pairwise distinct identifiers, and in which the posts left after the
    upward walk resolve (so that the stuck branch is never taken), the
    returned trees have the same parent/child edges; the order of children
    may differ. *)
Theorem permuted_pools_same_edges (requestedStatus : Status.t)
    (ancestors1 descendants1 ancestors2 descendants2 : list Status.t) :
  ancestors1 ++ descendants1 ≡ₚ ancestors2 ++ descendants2 →
  NoDup (Status.id requestedStatus :: (Status.id <$> ancestors1 ++ descendants1)) →
  Forall (Resolves requestedStatus
            (remainingPool requestedStatus (ancestors1 ++ descendants1)))
         (remainingPool requestedStatus (ancestors1 ++ descendants1)) →
  ∃ t1 t2,
    buildThreadTree requestedStatus ancestors1 descendants1 = Some t1
    ∧ buildThreadTree requestedStatus ancestors2 descendants2 = Some t2
    ∧ tree_edges t1 ≡ₚ tree_edges t2
    ∧ ∀ e, e ∈ tree_edges t1 ↔ e ∈ tree_edges t2.
Proof.
  intros Hperm [Hreq Hnd]%NoDup_cons Hres. rewrite remainingPool_unfold in Hres.
  destruct (locateRootLoop_terminates (S (length (ancestors1 ++ descendants1)))
              requestedStatus 0 (rootedState requestedStatus (ancestors1 ++ descendants1)))
    as (r & st1 & Hwalk & _); [simpl; lia|].
  rewrite Hwalk in Hres.
  destruct (locateRootLoop_perm _ _ _ _ _ _ _ _ _ Hperm Hnd Hwalk)
    as (st1' & Hwalk' & Hheap & _ & Hpool).
  rewrite (Permutation_length Hperm) in Hwalk'.
  assert (Hfresh : ∀ x, x ∈ ancestors1 ++ descendants1 →
                     Status.id x ≠ Status.id requestedStatus).
  { intros x Hx Heq. apply Hreq. rewrite <- Heq. by apply list_elem_of_fmap_2. }
  destruct (buildThreadTree_walk_resolving _ _ _ _ _ Hwalk Hfresh Hres)
    as (t1 & u1 & n1 & s1 & Ht1 & Hu1 & Hn1 & Hs1 & HE1 & _).
  destruct (buildThreadTree_walk_resolving _ _ _ _ _ Hwalk')
    as (t2 & u2 & n2 & s2 & Ht2 & Hu2 & Hn2 & Hs2 & HE2 & _).
  { intros x Hx. apply Hfresh. by rewrite Hperm. }
  { apply Forall_forall. intros x Hx. apply (Resolves_perm _ _ _ _ Hpool).
    rewrite Forall_forall in Hres. apply Hres. by rewrite Hpool. }
  rewrite Hheap in Hu2, Hn2.
  assert (u2 = u1) as -> by congruence.
  assert (s2 = s1) as -> by congruence.
  assert (HE : tree_edges t1 ≡ₚ tree_edges t2) by (by rewrite HE1, HE2, Hpool).
  exists t1, t2. split; [done|]. split; [done|]. split; [done|].
  intros e. by rewrite HE.
Qed.

Lemma permuted_pools_same_edges_witness :
  ∃ t1 t2,
    buildThreadTree Sample.P [] [Sample.S; Sample.R] = Some t1
    ∧ buildThreadTree Sample.P [Sample.R] [Sample.S] = Some t2
    ∧ tree_edges t1 ≡ₚ tree_edges t2
    ∧ ∀ e, e ∈ tree_edges t1 ↔ e ∈ tree_edges t2.
Proof.
  apply (permuted_pools_same_edges Sample.P [] [Sample.S; Sample.R] [Sample.R] [Sample.S]).
  - simpl. apply Permutation_swap.
  - apply (bool_decide_unpack _). vm_compute. exact I.
  - assert (Hrem : remainingPool Sample.P ([] ++ [Sample.S; Sample.R])
                   = [Sample.S; Sample.R]) by (vm_compute; reflexivity).
    rewrite Hrem. apply Forall_cons. split; [|apply Forall_cons; split; [|constructor]].
    + apply (resolves_via _ _ Sample.S Sample.R); [|reflexivity|].
      * apply elem_of_cons. right. apply elem_of_cons. left. reflexivity.
      * apply resolves_requested. reflexivity.
    + apply resolves_requested. reflexivity.
Defined.

(** The same two posts in two orders, neither with its parent in reach:
    the post that is last in the pool goes below the root, and a reply to
    it that is looked at afterwards goes below the detached placeholder. *)
Lemma permuted_pools_differ :
  [Sample.Y; Sample.X] ≡ₚ [Sample.X; Sample.Y]
  ∧ ∃ t1 t2,
      buildThreadTree Sample.P [] [Sample.Y; Sample.X] = Some t1
      ∧ buildThreadTree Sample.P [] [Sample.X; Sample.Y] = Some t2
      ∧ tree_edges t1 = [(inl "P", inl "X")]
      ∧ tree_edges t2 = [(inl "P", inl "Y"); (inl "P", inl "X")]
      ∧ ¬ (∀ e, e ∈ tree_edges t1 ↔ e ∈ tree_edges t2).
Proof.
  split; [apply Permutation_swap|].
  eexists _, _. split; [vm_compute; reflexivity|]. split; [vm_compute; reflexivity|].
  split; [reflexivity|]. split; [reflexivity|].
  intros Hsame. specialize (Hsame (inl "P", inl "Y")). simpl in Hsame.
  assert (Hin : (inl "P", inl "Y") ∈ [(@inl string string "P", @inl string string "X")]).
  { apply Hsame. left. }
  apply list_elem_of_singleton in Hin. discriminate Hin.
Qed.

(** * Two small threads

    Requested post [P] replying to [Q], ancestors [Q], no descendants: the
    root wraps [Q], not highlighted, and its only child wraps [P],
    highlighted. *)
Example reply_below_its_parent :
  buildThreadTree (Status.mk "P" (Some "Q") None) [Status.mk "Q" None None] []
  = Some (StatusNode (Status.mk "Q" None None)
            [StatusNode (Status.mk "P" (Some "Q") None) [] true] false).
Proof. vm_compute. reflexivity. Qed.

(** A reply to the requested post that is not the root is attached below
    the root: the index entry of the requested post is overwritten with the
    new root at each step up. *)
Example reply_to_requested_goes_below_root :
  buildThreadTree (Status.mk "P" (Some "Q") None) [Status.mk "Q" None None]
    [Status.mk "C" (Some "P") None]
  = Some (StatusNode (Status.mk "Q" None None)
            [StatusNode (Status.mk "P" (Some "Q") None) [] true;
             StatusNode (Status.mk "C" (Some "P") None) [] false] false).
Proof. vm_compute. reflexivity. Qed.

(** * Grouping of notifications *)

Lemma filter_none {A} (P : A → Prop) `{∀ x, Decision (P x)} (l : list A) :
  (∀ x, x ∈ l → ¬ P x) → filter P l = [].
Proof.
  induction l as [|x l IH]; intros Hno; [done|].
  rewrite filter_cons_False by (apply Hno; left).
  apply IH. intros y Hy. apply Hno. by right.
Qed.

Section GroupByProperties.
Context {TKey TValue : Type}.
Variable stringify : TKey → string.
Variable groupSelector : TValue → TKey.

#[local] Abbreviation key x := (stringify (groupSelector x)).
#[local] Abbreviation step := (Notifications.groupStep stringify groupSelector).

Lemma mapGet_None k (m : list (string * Notifications.Group TKey TValue)) :
  Notifications.mapGet k m = None → k ∉ m.*1.
Proof.
  unfold Notifications.mapGet. destruct (list_find _ m) as [[j e]|] eqn:Hfind; [done|].
  intros _ (e & -> & He)%list_elem_of_fmap.
  apply list_find_None in Hfind. rewrite Forall_forall in Hfind. by apply (Hfind e).
Qed.

Lemma mapGet_Some k (m : list (string * Notifications.Group TKey TValue)) j :
  Notifications.mapGet k m = Some j → ∃ g, m !! j = Some (k, g).
Proof.
  unfold Notifications.mapGet. destruct (list_find _ m) as [[j' [k' g]]|] eqn:Hfind; [|done].
  intros [= <-]. apply list_find_Some in Hfind as (Hj & Hk & _). simpl in Hk. subst k'.
  by exists g.
Qed.

Lemma fst_alter_pushItem i j (m : list (string * Notifications.Group TKey TValue)) :
  (alter (Notifications.pushItem i) j m).*1 = m.*1.
Proof.
  revert j. induction m as [|e m IH]; intros [|j]; simpl; [done..| |]; f_equal. apply IH.
Qed.

Lemma Grouped_step done m i :
  Grouped stringify groupSelector done m →
  Grouped stringify groupSelector (done ++ [i]) (step m i).
Proof.
  intros (Hnd & Hentries & Hcover). unfold Notifications.groupStep.
  destruct (Notifications.mapGet (key i) m) as [j|] eqn:Hget.
  - destruct (mapGet_Some _ _ _ Hget) as [g Hj]. split; [|split].
    + by rewrite fst_alter_pushItem.
    + intros j' k' g' Hj'. destruct (decide (j = j')) as [<-|Hne].
      * rewrite list_lookup_alter_eq, Hj in Hj'. injection Hj' as <- <-.
        destruct (Hentries j _ g Hj) as (Hk & Hitems & x & rest & Hhead & Hgroup).
        simpl. split; [done|]. split.
        -- rewrite filter_app, Hitems. f_equal.
           rewrite filter_cons_True by done. done.
        -- exists x, (rest ++ [i]). by rewrite Hhead.
      * rewrite list_lookup_alter_ne in Hj' by done.
        destruct (Hentries j' k' g' Hj') as (Hk & Hitems & Hhead).
        split; [done|]. split; [|done].
        rewrite filter_app, Hitems, filter_cons_False, filter_nil, app_nil_r; [done|].
        intros Heq. apply Hne.
        eapply (NoDup_lookup (m.*1)); [done| |].
        -- by rewrite list_lookup_fmap, Hj.
        -- by rewrite list_lookup_fmap, Hj', Heq.
    + rewrite fst_alter_pushItem. intros x [Hx|Hx%list_elem_of_singleton]%elem_of_app.
      * by apply Hcover.
      * subst x. apply list_elem_of_fmap. exists (key i, g). split; [done|].
        by eapply list_elem_of_lookup_2.
  - apply mapGet_None in Hget. split; [|split].
    + rewrite fmap_app. apply NoDup_app. split; [done|]. split; [|apply NoDup_singleton].
      intros k Hk Hk'%list_elem_of_singleton. by subst k.
    + intros j k g Hj. apply lookup_app_Some in Hj as [Hj|[_ Hj]].
      * destruct (Hentries j k g Hj) as (Hk & Hitems & Hhead).
        split; [done|]. split; [|done].
        rewrite filter_app, Hitems, filter_cons_False, filter_nil, app_nil_r; [done|].
        intros Heq. apply Hget. rewrite Heq. apply list_elem_of_fmap.
        exists (k, g). split; [done|]. by eapply list_elem_of_lookup_2.
      * apply list_lookup_singleton_Some in Hj as [_ [= <- <-]]. simpl.
        split; [done|]. split; [|by exists i, []].
        rewrite filter_app, filter_cons_True, filter_nil by done.
        assert (Hnone : filter (λ x, key x = key i) done = []); [|by rewrite Hnone].
        apply filter_none. intros x Hx Heq.
        apply Hget. rewrite <- Heq. by apply Hcover.
    + rewrite fmap_app. intros x [Hx|Hx%list_elem_of_singleton]%elem_of_app;
        apply elem_of_app; [left; by apply Hcover|subst x; right; left].
Qed.

Lemma Grouped_foldl values : ∀ done m,
  Grouped stringify groupSelector done m →
  Grouped stringify groupSelector (done ++ values) (foldl step m values).
Proof.
  induction values as [|i values IH]; intros done m HG; simpl.
  - by rewrite app_nil_r.
  - rewrite (cons_middle i), (assoc (++)). by apply IH, Grouped_step.
Qed.

Lemma Grouped_result values :
  Grouped stringify groupSelector values (foldl step [] values).
Proof.
  apply (Grouped_foldl values [] []). split; [constructor|]. split; [done|].
  by intros x ?%elem_of_nil.
Qed.
Lemma alter_as_insert {A} (f : A → A) (l : list A) j x :
  l !! j = Some x → alter f j l = <[j := f x]> l.
Proof.
  revert j. induction l as [|y l IH]; intros [|j] Hj; simplify_eq/=; [done|].
  f_equal. by apply IH.
Qed.

Lemma groupStep_items m i :
  (step m i).*2 ≫= Notifications.items ≡ₚ (m.*2 ≫= Notifications.items) ++ [i].
Proof.
  unfold Notifications.groupStep.
  destruct (Notifications.mapGet (key i) m) as [j|] eqn:Hget.
  - destruct (mapGet_Some _ _ _ Hget) as [g Hj].
    rewrite (alter_as_insert _ _ _ _ Hj), list_fmap_insert.
    apply (bind_insert_perm _ _ _ g); [by rewrite list_lookup_fmap, Hj|done].
  - rewrite fmap_app, bind_app. done.
Qed.

Lemma foldl_groupStep_items values : ∀ m,
  (foldl step m values).*2 ≫= Notifications.items
    ≡ₚ (m.*2 ≫= Notifications.items) ++ values.
Proof.
  induction values as [|i values IH]; intros m; simpl.
  - by rewrite app_nil_r.
  - rewrite IH, groupStep_items, <- (assoc (++)). done.
Qed.

(** X1: the groups partition the input: taken together their items are the
    input values, each as often as it occurs there. *)
Theorem groupBySerializedValue_partition (values : list TValue) :
  Notifications.groupBySerializedValue stringify groupSelector values
    ≫= Notifications.items
  ≡ₚ values.
Proof.
  unfold Notifications.groupBySerializedValue.
  by rewrite foldl_groupStep_items.
Qed.

Lemma groupBySerializedValue_group_spec (values : list TValue)
    (g : Notifications.Group TKey TValue) :
  g ∈ Notifications.groupBySerializedValue stringify groupSelector values →
  Notifications.items g
    = filter (λ x, key x = stringify (Notifications.group g)) values
  ∧ ∃ x rest, Notifications.items g = x :: rest
              ∧ Notifications.group g = groupSelector x.
Proof.
  unfold Notifications.groupBySerializedValue.
  intros ([k g'] & -> & [j Hj]%list_elem_of_lookup)%list_elem_of_fmap.
  destruct (Grouped_result values) as (_ & Hentries & _).
  destruct (Hentries j k g' Hj) as (-> & Hitems & Hhead). done.
Qed.

(** X2: every group holds exactly the values whose serialised grouping value is
    that of the group, in the order of the input; it is never empty, and
    its [group] is the grouping value of its first item. *)
Theorem groupBySerializedValue_groups (values : list TValue)
    (g : Notifications.Group TKey TValue) :
  g ∈ Notifications.groupBySerializedValue stringify groupSelector values →
  Notifications.items g
    = filter (λ x, key x = stringify (Notifications.group g)) values
  ∧ ∃ x rest, Notifications.items g = x :: rest
              ∧ Notifications.group g = groupSelector x.
Proof.
  unfold Notifications.groupBySerializedValue.
  intros ([k g'] & -> & [j Hj]%list_elem_of_lookup)%list_elem_of_fmap.
  destruct (Grouped_result values) as (_ & Hentries & _).
  destruct (Hentries j k g' Hj) as (-> & Hitems & Hhead). done.
Qed.

(** X3: no two groups of the result have the same serialised grouping value,
    and every input value is in a group. *)
Theorem groupBySerializedValue_distinct_keys (values : list TValue) :
  NoDup ((λ g, stringify (Notifications.group g))
           <$> Notifications.groupBySerializedValue stringify groupSelector values)
  ∧ ∀ x, x ∈ values →
      ∃ g, g ∈ Notifications.groupBySerializedValue stringify groupSelector values
           ∧ stringify (Notifications.group g) = key x
           ∧ x ∈ Notifications.items g.
Proof.
  unfold Notifications.groupBySerializedValue.
  destruct (Grouped_result values) as (Hnd & Hentries & Hcover).
  assert (Hkeys : (λ g, stringify (Notifications.group g)) <$> (foldl step [] values).*2
                  = (foldl step [] values).*1).
  { rewrite <- list_fmap_compose. apply list_eq. intros j.
    rewrite !list_lookup_fmap.
    destruct (foldl step [] values !! j) as [[k g]|] eqn:Hj; [|done]. simpl.
    by destruct (Hentries j k g Hj) as (-> & _). }
  split; [by rewrite Hkeys|].
  intros x Hx. pose proof (Hcover x Hx) as Hin.
  apply list_elem_of_fmap in Hin as ([k g] & Hk & [j Hj]%list_elem_of_lookup).
  simpl in Hk. subst k.
  destruct (Hentries j _ g Hj) as (Hkey & Hitems & _).
  exists g. split; [|split; [done|]].
  - apply list_elem_of_fmap. exists (key x, g). split; [done|].
    by eapply list_elem_of_lookup_2.
  - rewrite Hitems. by apply list_elem_of_filter.
Qed.

Lemma groupStep_extends m i j k g :
  m !! j = Some (k, g) →
  ∃ g', step m i !! j = Some (k, g')
        ∧ Notifications.group g' = Notifications.group g
        ∧ Notifications.items g `prefix_of` Notifications.items g'.
Proof.
  intros Hj. unfold Notifications.groupStep.
  destruct (Notifications.mapGet (key i) m) as [j'|] eqn:Hget.
  - destruct (decide (j' = j)) as [->|Hne].
    + rewrite list_lookup_alter_eq, Hj. simpl.
      eexists. split; [done|]. split; [done|]. simpl. by apply prefix_app_r.
    + rewrite list_lookup_alter_ne by done. by exists g.
  - exists g. split; [by apply lookup_app_l_Some|done].
Qed.

Lemma foldl_groupStep_extends values : ∀ m j k g,
  m !! j = Some (k, g) →
  ∃ g', foldl step m values !! j = Some (k, g')
        ∧ Notifications.group g' = Notifications.group g
        ∧ Notifications.items g `prefix_of` Notifications.items g'.
Proof.
  induction values as [|i values IH]; intros m j k g Hj; simpl.
  - by exists g.
  - destruct (groupStep_extends m i j k g Hj) as (g1 & Hj1 & Hgroup1 & Hprefix1).
    destruct (IH _ j k g1 Hj1) as (g2 & Hj2 & Hgroup2 & Hprefix2).
    exists g2. split; [done|]. split; [congruence|by etrans].
Qed.

(** X4: more input only extends the result: a group keeps its position and
    its [group], its items are continued, and new groups come after the
    old ones.  So the groups are in the order in which their first items
    occur in the input. *)
Theorem groupBySerializedValue_extends (values more : list TValue) j
    (g : Notifications.Group TKey TValue) :
  Notifications.groupBySerializedValue stringify groupSelector values !! j = Some g →
  ∃ g', Notifications.groupBySerializedValue stringify groupSelector (values ++ more) !! j
          = Some g'
        ∧ Notifications.group g' = Notifications.group g
        ∧ Notifications.items g `prefix_of` Notifications.items g'.
Proof.
  unfold Notifications.groupBySerializedValue. rewrite foldl_app, !list_lookup_fmap.
  destruct (foldl step [] values !! j) as [[k g0]|] eqn:Hj; [|done].
  intros [= <-].
  destruct (foldl_groupStep_extends more _ j k g0 Hj) as (g' & -> & Hgroup & Hprefix).
  by exists g'.
Qed.
End GroupByProperties.

Lemma bind_regroup {A B C} (f : A → list B) (g : B → list C) (h : A → list C)
    (l : list A) :
  (∀ x, x ∈ l → f x ≫= g ≡ₚ h x) → (l ≫= f) ≫= g ≡ₚ l ≫= h.
Proof.
  induction l as [|x l IH]; intros Hfg; [done|].
  rewrite !bind_cons, bind_app. f_equiv; [apply Hfg; left|].
  apply IH. intros y Hy. apply Hfg. by right.
Qed.

Section GetNotificationsProperties.
Context {Day : Type}.
Variable startOfDay : string → Day.
Variable stringifyDay : Day → string.
Variable stringifyKind : KindKey.t → string.

#[local] Abbreviation dayOf n := (startOfDay (Notification.created_at n)).
#[local] Abbreviation fetchNotifications :=
  (Notifications.getNotificationsAsync startOfDay stringifyDay stringifyKind).
#[local] Abbreviation byDay :=
  (Notifications.groupBySerializedValue stringifyDay
     (λ n, startOfDay (Notification.created_at n))).
#[local] Abbreviation byKind :=
  (Notifications.groupBySerializedValue stringifyKind Notifications.kindOf).

Lemma getNotificationsAsync_inv getNotifications days :
  fetchNotifications getNotifications = Returned days →
  ∃ response,
    getNotifications 40 = Returned response ∧ status response = 200
    ∧ days = (λ dayGroup,
                Notifications.mkDayGroups (Notifications.group dayGroup)
                  (byKind (Notifications.items dayGroup)))
             <$> byDay (data response).
Proof.
  unfold Notifications.getNotificationsAsync.
  destruct (getNotifications 40) as [response|e]; [|done].
  destruct (decide (status response = 200)) as [H200|]; [|done].
  intros [= <-]. by exists response.
Qed.

(** The kind groups of a day group: a first notification that gives the
    group its key, and members that all serialise to the key of the group
    and to the day. *)
Lemma getNotificationsAsync_members getNotifications days response :
  getNotifications 40 = Returned response →
  fetchNotifications getNotifications = Returned days →
  ∀ day kindGroup,
    day ∈ days → kindGroup ∈ Notifications.kindGroups day →
    (∃ first rest,
        Notifications.items kindGroup = first :: rest
        ∧ KindKey.type (Notifications.group kindGroup) = Notification.type first
        ∧ KindKey.status_id (Notifications.group kindGroup)
            = Status.id <$> Notification.status first)
    ∧ ∀ n, n ∈ Notifications.items kindGroup →
        n ∈ data response
        ∧ stringifyKind (Notifications.kindOf n)
            = stringifyKind (Notifications.group kindGroup)
        ∧ stringifyDay (dayOf n) = stringifyDay (Notifications.created_day day).
Proof.
  intros Hget (response' & Hget' & H200 & ->)%getNotificationsAsync_inv.
  rewrite Hget in Hget'. injection Hget' as <-.
  intros day kindGroup (dayGroup & -> & HdayGroup)%list_elem_of_fmap HkindGroup.
  simpl in *.
  destruct (groupBySerializedValue_group_spec _ _ _ _ HkindGroup)
    as (Hitems & first & rest & Hfirst & Hgroup).
  destruct (groupBySerializedValue_group_spec _ _ _ _ HdayGroup) as (Hday & _).
  split.
  - exists first, rest. by rewrite Hgroup.
  - intros n Hn. rewrite Hitems in Hn.
    apply list_elem_of_filter in Hn as [Hkind Hn].
    rewrite Hday in Hn. apply list_elem_of_filter in Hn as [Hsameday Hn].
    done.
Qed.

(** X5: the facet only gets groups when the server answered 200; then no
    notification is lost or shown twice; every kind group has a first
    notification, whose type and status identifier are those of the
    group; and all notifications of a kind group serialise to the key of
    the group and to the day of their day group. *)
Theorem getNotificationsAsync_groups getNotifications days :
  fetchNotifications getNotifications = Returned days →
  ∃ response,
    getNotifications 40 = Returned response ∧ status response = 200
    ∧ (days ≫= Notifications.kindGroups) ≫= Notifications.items ≡ₚ data response
    ∧ ∀ day kindGroup,
        day ∈ days → kindGroup ∈ Notifications.kindGroups day →
        (∃ first rest,
            Notifications.items kindGroup = first :: rest
            ∧ KindKey.type (Notifications.group kindGroup) = Notification.type first
            ∧ KindKey.status_id (Notifications.group kindGroup)
                = Status.id <$> Notification.status first)
        ∧ ∀ n, n ∈ Notifications.items kindGroup →
            n ∈ data response
            ∧ stringifyKind (Notifications.kindOf n)
                = stringifyKind (Notifications.group kindGroup)
            ∧ stringifyDay (dayOf n) = stringifyDay (Notifications.created_day day).
Proof.
  intros Hfetch.
  pose proof Hfetch as (response & Hget & H200 & Hdays)%getNotificationsAsync_inv.
  exists response. split; [done|]. split; [done|]. split.
  - rewrite Hdays, list_fmap_bind.
    rewrite (bind_regroup _ _ Notifications.items).
    + unfold Notifications.groupBySerializedValue. by rewrite foldl_groupStep_items.
    + intros dayGroup _. simpl.
      unfold Notifications.groupBySerializedValue. by rewrite foldl_groupStep_items.
  - by apply getNotificationsAsync_members with getNotifications.
Qed.

(** X6: when the serialisation tells apart the kinds that occur in the
    response, all notifications of a kind group have the type and the
    status identifier of the group, so what the facet shows for the first
    notification holds for each of them. *)
Theorem getNotificationsAsync_same_kind getNotifications response days :
  getNotifications 40 = Returned response →
  Forall (λ n, Forall (λ m,
            stringifyKind (Notifications.kindOf n) = stringifyKind (Notifications.kindOf m) →
            Notifications.kindOf n = Notifications.kindOf m) (data response))
         (data response) →
  fetchNotifications getNotifications = Returned days →
  ∀ day kindGroup n,
    day ∈ days → kindGroup ∈ Notifications.kindGroups day →
    n ∈ Notifications.items kindGroup →
    Notification.type n = KindKey.type (Notifications.group kindGroup)
    ∧ Status.id <$> Notification.status n
        = KindKey.status_id (Notifications.group kindGroup).
Proof.
  intros Hget Hinj Hfetch day kindGroup n Hday HkindGroup Hn.
  destruct (getNotificationsAsync_members _ _ _ Hget Hfetch day kindGroup Hday HkindGroup)
    as ((first & rest & Hitems & Htype & Hid) & Hall).
  destruct (Hall n Hn) as (Hdata & Hkind & _).
  destruct (Hall first) as (Hdata1 & Hkind1 & _); [rewrite Hitems; left|].
  rewrite Forall_forall in Hinj. specialize (Hinj n Hdata).
  rewrite Forall_forall in Hinj. specialize (Hinj first Hdata1).
  assert (Heq : Notifications.kindOf n = Notifications.kindOf first).
  { apply Hinj. by rewrite Hkind, Hkind1. }
  injection Heq as Heq1 Heq2. by rewrite Htype, Hid.
Qed.
End GetNotificationsProperties.

Lemma groupBySerializedValue_groups_witness :
  Notifications.items
    (Notifications.mkGroup "2024-05-02"
       [NotificationSample.liked; NotificationSample.followed;
        NotificationSample.likedAgain])
    = filter (λ x, NotificationSample.startOfDay (Notification.created_at x) = "2024-05-02")
        NotificationSample.all
  ∧ ∃ x rest,
      Notifications.items
        (Notifications.mkGroup "2024-05-02"
           [NotificationSample.liked; NotificationSample.followed;
            NotificationSample.likedAgain]) = x :: rest
      ∧ "2024-05-02" = NotificationSample.startOfDay (Notification.created_at x).
Proof.
  apply (groupBySerializedValue_groups id
           (λ n, NotificationSample.startOfDay (Notification.created_at n))
           NotificationSample.all
           (Notifications.mkGroup "2024-05-02"
              [NotificationSample.liked; NotificationSample.followed;
               NotificationSample.likedAgain])).
  apply list_elem_of_lookup. exists 0. vm_compute. reflexivity.
Defined.

Lemma groupBySerializedValue_extends_witness :
  ∃ g', Notifications.groupBySerializedValue id
          (λ n, NotificationSample.startOfDay (Notification.created_at n))
          ([NotificationSample.liked] ++ [NotificationSample.mentioned;
                                          NotificationSample.likedAgain]) !! 0 = Some g'
        ∧ Notifications.group g' = "2024-05-02"
        ∧ [NotificationSample.liked] `prefix_of` Notifications.items g'.
Proof.
  apply (groupBySerializedValue_extends id
           (λ n, NotificationSample.startOfDay (Notification.created_at n))
           [NotificationSample.liked]
           [NotificationSample.mentioned; NotificationSample.likedAgain] 0
           (Notifications.mkGroup "2024-05-02" [NotificationSample.liked])).
  vm_compute. reflexivity.
Defined.

Lemma getNotificationsAsync_groups_witness :
  ∃ response,
    NotificationSample.server 40 = Returned response ∧ status response = 200
    ∧ (NotificationSample.grouped ≫= Notifications.kindGroups) ≫= Notifications.items
        ≡ₚ data response
    ∧ ∀ day kindGroup,
        day ∈ NotificationSample.grouped → kindGroup ∈ Notifications.kindGroups day →
        (∃ first rest,
            Notifications.items kindGroup = first :: rest
            ∧ KindKey.type (Notifications.group kindGroup) = Notification.type first
            ∧ KindKey.status_id (Notifications.group kindGroup)
                = Status.id <$> Notification.status first)
        ∧ ∀ n, n ∈ Notifications.items kindGroup →
            n ∈ data response
            ∧ NotificationSample.stringifyKind (Notifications.kindOf n)
                = NotificationSample.stringifyKind (Notifications.group kindGroup)
            ∧ id (NotificationSample.startOfDay (Notification.created_at n))
                = id (Notifications.created_day day).
Proof.
  apply (getNotificationsAsync_groups NotificationSample.startOfDay id
           NotificationSample.stringifyKind NotificationSample.server
           NotificationSample.grouped).
  vm_compute. reflexivity.
Defined.

Lemma getNotificationsAsync_same_kind_witness :
  Forall (λ day,
    Forall (λ kindGroup,
      Forall (λ n,
        Notification.type n = KindKey.type (Notifications.group kindGroup)
        ∧ Status.id <$> Notification.status n
            = KindKey.status_id (Notifications.group kindGroup))
        (Notifications.items kindGroup))
      (Notifications.kindGroups day))
    NotificationSample.grouped.
Proof.
  apply Forall_forall. intros day Hday.
  apply Forall_forall. intros kindGroup HkindGroup.
  apply Forall_forall. intros n Hn.
  apply (getNotificationsAsync_same_kind NotificationSample.startOfDay id
           NotificationSample.stringifyKind NotificationSample.server
           (mkResponse 200 "OK" NotificationSample.all) NotificationSample.grouped
           eq_refl) with day; [| |done..].
  - apply (bool_decide_unpack _). vm_compute. exact I.
  - vm_compute. reflexivity.
Defined.

(** * The patch on arbitrary trees *)

Section PatchWalk.
Variable newComment : Status.t.

Lemma repliedAt_child i path c t :
  kids t !! i = Some c → repliedAt newComment path c → repliedAt newComment (i :: path) t.
Proof.
  intros Hi (X & s & Hsub & Hs & Hreply). exists X, s. simpl. by rewrite Hi.
Qed.

Lemma patchWalkChildren_cons c k :
  patchWalk newComment c → patchWalkChildren newComment k →
  patchWalkChildren newComment (c :: k).
Proof.
  intros Hc Hk visited success. rewrite forChildren_cons.
  specialize (Hc visited success).
  destruct (tryAttachTo newComment c visited success) as [[[c' v1] s1]|e].
  2:{ destruct Hc as (i & l1 & l2 & -> & Hids & Hin).
      exists i, l1, (l2 ++ (k ≫= tree_ids)). split; [done|]. split; [|done].
      by rewrite bind_cons, Hids, <- (assoc (++)). }
  destruct Hc as (w1 & -> & Hw1 & Hchange1).
  specialize (Hk (visited ++ w1) s1).
  destruct (forChildren _ k (visited ++ w1) s1) as [[[k' v2] s2]|e].
  2:{ destruct Hk as (i & l1 & l2 & -> & Hids & Hin).
      exists i, (tree_ids c ++ l1), l2. split; [done|]. split.
      - by rewrite bind_cons, Hids, <- (assoc (++)).
      - destruct Hin as [Hin|Hin]; [apply elem_of_app in Hin as [Hin|Hin]|].
        + by left.
        + right. apply elem_of_app. left. by apply Hw1.
        + right. apply elem_of_app. by right. }
  destruct Hk as (w2 & -> & Hw2 & Hchange2).
  exists (w1 ++ w2). split; [by rewrite (assoc (++))|]. split.
  { intros x [Hx|Hx]%elem_of_app; rewrite bind_cons; apply elem_of_app; auto. }
  destruct Hchange1 as [(-> & -> & -> & Hno1)|(Hfresh & (x & Hx & Htarget) & -> & path & Hat & Happ)].
  - destruct Hchange2 as [(-> & -> & -> & Hno2)
                         |(Hfresh & Hseen & -> & i & c0 & c0' & path & Hi & Hat & Happ & ->)].
    + left. split; [done|]. split; [done|]. split; [done|].
      intros x [Hx|Hx]%elem_of_app; auto.
    + right. split; [|split; [done|split; [done|]]].
      * intros x Hx. apply Hfresh, elem_of_app. by left.
      * by exists (S i), c0, c0', path.
  - destruct Hchange2 as [(-> & -> & _)|(Hfresh2 & _)].
    + right. split; [done|]. split; [|split; [done|]].
      * exists x. split; [|done]. apply elem_of_app. left.
        exact Hx.
      * by exists 0, c, c', path.
    + destruct (Hfresh2 x Hx Htarget).
Qed.

Lemma patchWalkChildren_all k :
  Forall (patchWalk newComment) k → patchWalkChildren newComment k.
Proof.
  induction 1 as [|c k Hc _ IH]; [|by apply patchWalkChildren_cons].
  intros visited success. simpl. exists []. rewrite app_nil_r.
  split; [done|]. split; [by intros x ?%elem_of_nil|]. left.
  repeat split. by intros x ?%elem_of_nil.
Qed.

Lemma patchWalk_all t : patchWalk newComment t.
Proof.
  induction t as [s k h IH|m k h IH] using PostTree_nested_ind;
    apply patchWalkChildren_all in IH; intros visited success; simpl.
  - destruct (decide (Status.id s ∈ visited)) as [Hin|Hout].
    { exists (Status.id s), [], (k ≫= tree_ids). split; [done|]. split; [done|]. by left. }
    destruct (decide (Some (Status.id s) = Status.in_reply_to_id newComment)) as [Htarget|Hno].
    { exists [Status.id s]. split; [done|]. split.
      - intros x ->%list_elem_of_singleton. left.
      - right. split; [|split; [|split; [done|exists []; split; [|done]]]].
        + intros x Hx Heq. rewrite <- Htarget in Heq. injection Heq as ->. done.
        + exists (Status.id s). split; [|done]. apply elem_of_app. right. left.
        + by exists (StatusNode s k h), s. }
    specialize (IH (visited ++ [Status.id s]) success).
    destruct (forChildren _ k _ success) as [[[k' v'] s']|e].
    + destruct IH as (w & -> & Hw & Hchange).
      exists (Status.id s :: w). split; [by rewrite <- (assoc (++))|]. split.
      * intros x [->|Hx]%elem_of_cons; [left|right; by apply Hw].
      * destruct Hchange as [(-> & -> & -> & Hnone)
                            |(Hfresh & Hseen & -> & i & c & c' & path & Hi & Hat & Happ & ->)].
        -- left. repeat split. intros x [->|Hx]%elem_of_cons; auto.
        -- right. split; [|split; [done|split; [done|]]].
           ++ intros x Hx. apply Hfresh, elem_of_app. by left.
           ++ exists (i :: path). split; [by apply repliedAt_child with c|].
              simpl. by rewrite Hi, Happ.
    + destruct IH as (i & l1 & l2 & -> & Hids & Hin).
      exists i, (Status.id s :: l1), l2. split; [done|]. split; [by rewrite Hids|].
      destruct Hin as [Hin|Hin]; [apply elem_of_app in Hin as [Hin|Hin]|].
      * by left.
      * apply list_elem_of_singleton in Hin as ->. right. left.
      * right. by right.
  - specialize (IH visited success).
    destruct (forChildren _ k visited success) as [[[k' v'] s']|e]; [|done].
    destruct IH as (w & -> & Hw & Hchange). exists w. split; [done|]. split; [done|].
    destruct Hchange as [(-> & -> & -> & Hnone)
                        |(Hfresh & Hseen & -> & i & c & c' & path & Hi & Hat & Happ & ->)].
    + by left.
    + right. split; [done|]. split; [done|]. split; [done|].
      exists (i :: path). split; [by apply repliedAt_child with c|].
      simpl. by rewrite Hi, Happ.
Qed.

(** Every patch that returns has appended the new reply at one position:
    below a post it answers, or below the root when the tree holds none. *)
Lemma patchNewReply_returned t t' :
  patchNewReply t newComment = Returned t' →
  (∃ path, repliedAt newComment path t
           ∧ appendAt path (newReplyNode newComment) t = Some t')
  ∨ ((∀ x, x ∈ tree_ids t → Some x ≠ Status.in_reply_to_id newComment)
     ∧ t' = pushKid (newReplyNode newComment) t).
Proof.
  unfold patchNewReply. pose proof (patchWalk_all t [] false) as Hwalk.
  destruct (tryAttachTo newComment t [] false) as [[[t1 v1] s1]|e]; [|done].
  destruct Hwalk as (w & _ & _ & [(-> & -> & -> & Hnone)|(_ & _ & -> & path & Hat & Happ)]).
  - intros [= <-]. by right.
  - intros [= <-]. left. by exists path.
Qed.

End PatchWalk.

Lemma tree_highlights_unfold t :
  tree_highlights t = (if (nodeLabel t).2 then [(nodeLabel t).1] else [])
                      ++ (kids t ≫= tree_highlights).
Proof. by destruct t. Qed.

Lemma appendAt_highlights p c t t' :
  appendAt p c t = Some t' → tree_highlights t' ≡ₚ tree_highlights t ++ tree_highlights c.
Proof.
  revert t t'. induction p as [|i p IH]; intros t t'.
  - intros [= <-].
    rewrite (tree_highlights_unfold (pushKid _ _)), (tree_highlights_unfold t).
    rewrite nodeLabel_pushKid, kids_pushKid.
    rewrite bind_app, <- (assoc (++)). simpl. by rewrite app_nil_r.
  - intros (x & x' & Hi & Hx & ->)%appendAt_inv_cons.
    rewrite (tree_highlights_unfold (setKids _ _)), (tree_highlights_unfold t).
    rewrite nodeLabel_setKids, kids_setKids.
    rewrite (bind_insert_perm _ _ _ _ _ _ Hi (IH _ _ Hx)). by rewrite (assoc (++)).
Qed.

Lemma appendAt_nodeLabel p c t t' : appendAt p c t = Some t' → nodeLabel t' = nodeLabel t.
Proof.
  destruct p as [|i p].
  - intros [= <-]. apply nodeLabel_pushKid.
  - intros (x & x' & _ & _ & ->)%appendAt_inv_cons. apply nodeLabel_setKids.
Qed.

Lemma appendAt_defined p c t t' :
  appendAt p c t = Some t' → ∃ X, subtree_at p t = Some X.
Proof.
  revert t t'. induction p as [|i p IH]; intros t t'; [by eexists|].
  intros (x & x' & Hi & Hx & ->)%appendAt_inv_cons. simpl. rewrite Hi. eauto.
Qed.

Lemma subtree_at_snoc p i t X c :
  subtree_at p t = Some X → kids X !! i = Some c → subtree_at (p ++ [i]) t = Some c.
Proof.
  revert t. induction p as [|j p IH]; intros t; simpl.
  - intros [= ->] ->. done.
  - destruct (kids t !! j) as [x|]; [|done]. apply IH.
Qed.

(** The position at which a returned patch has appended the reply. *)
Lemma patchNewReply_position t t' newComment :
  patchNewReply t newComment = Returned t' →
  ∃ path, appendAt path (newReplyNode newComment) t = Some t'.
Proof.
  intros [(path & _ & Happ)|[_ ->]]%patchNewReply_returned; [by exists path|by exists []].
Qed.

(** * Properties of the patch that need no distinct identifiers *)

(** X7: whatever the previous tree, a patch that returns has put the new
    reply, highlighted and without children, as the last child of a status
    node whose identifier is the one the reply answers, or, when no status
    node of the tree has that identifier, as the last child of the root.
    The root keeps its payload and the tree has one node more. *)
Theorem patchNewReply_places_reply (t t' : PostTree) (newComment : Status.t) :
  patchNewReply t newComment = Returned t' →
  ((∃ path X s, subtree_at path t = Some X ∧ treeStatus X = Some s
        ∧ Status.in_reply_to_id newComment = Some (Status.id s)
        ∧ appendAt path (StatusNode newComment [] true) t = Some t')
   ∨ ((∀ x, x ∈ tree_ids t → Some x ≠ Status.in_reply_to_id newComment)
      ∧ t' = pushKid (StatusNode newComment [] true) t))
  ∧ nodeLabel t' = nodeLabel t
  ∧ nodeCount t' = S (nodeCount t).
Proof.
  intros Hpatch. split; [|split].
  - apply patchNewReply_returned in Hpatch as [(path & (X & s & HX & Hs & Hreply) & Happ)|Hroot].
    + left. by exists path, X, s.
    + by right.
  - apply patchNewReply_position in Hpatch as [path Happ].
    by apply appendAt_nodeLabel in Happ.
  - apply patchNewReply_position in Hpatch as [path Happ].
    rewrite (appendAt_nodeCount _ _ _ _ Happ). simpl. lia.
Qed.

Lemma patchNewReply_places_reply_witness :
  ((∃ path X s, subtree_at path PatchSample.nested = Some X ∧ treeStatus X = Some s
        ∧ Status.in_reply_to_id PatchSample.answerR = Some (Status.id s)
        ∧ appendAt path (StatusNode PatchSample.answerR [] true) PatchSample.nested
            = Some PatchSample.nestedPatched)
   ∨ ((∀ x, x ∈ tree_ids PatchSample.nested →
         Some x ≠ Status.in_reply_to_id PatchSample.answerR)
      ∧ PatchSample.nestedPatched
          = pushKid (StatusNode PatchSample.answerR [] true) PatchSample.nested))
  ∧ nodeLabel PatchSample.nestedPatched = nodeLabel PatchSample.nested
  ∧ nodeCount PatchSample.nestedPatched = S (nodeCount PatchSample.nested).
Proof.
  apply (patchNewReply_places_reply PatchSample.nested PatchSample.nestedPatched
           PatchSample.answerR).
  vm_compute. reflexivity.
Defined.

(** X8: the patch throws in one situation only: the walk comes to a status
    node whose identifier it has recorded before, so that identifier occurs
    twice among the status nodes of the previous tree.  The error names
    that identifier. *)
Theorem patchNewReply_throws_on_repeat (t : PostTree) (newComment : Status.t) (e : Exn) :
  patchNewReply t newComment = Thrown e →
  ∃ i l1 l2 l3,
    e = ErrorObject ("visited the same status " +:+ i +:+ " twice.")
    ∧ tree_ids t = l1 ++ i :: l2 ++ i :: l3.
Proof.
  unfold patchNewReply. pose proof (patchWalk_all newComment t [] false) as Hwalk.
  destruct (tryAttachTo newComment t [] false) as [[[t1 v1] [|]]|e']; [done..|].
  intros [= <-]. destruct Hwalk as (i & l1 & l2 & -> & Hids & [[]%elem_of_nil|Hin]).
  apply list_elem_of_split in Hin as (l1a & l1b & ->).
  exists i, l1a, l1b, l2. split; [done|]. by rewrite Hids, <- (assoc (++)).
Qed.

Lemma patchNewReply_throws_on_repeat_witness :
  ∃ i l1 l2 l3,
    ErrorObject "visited the same status R twice."
      = ErrorObject ("visited the same status " +:+ i +:+ " twice.")
    ∧ tree_ids PatchSample.twice = l1 ++ i :: l2 ++ i :: l3.
Proof.
  apply (patchNewReply_throws_on_repeat PatchSample.twice PatchSample.stray).
  vm_compute. reflexivity.
Defined.

(** X9: whatever the previous tree, a patch that returns keeps every post
    and every highlight of the tree and adds the new reply to both: the
    post the page was opened for stays highlighted next to the new reply. *)
Theorem patchNewReply_keeps_posts (t t' : PostTree) (newComment : Status.t) :
  patchNewReply t newComment = Returned t' →
  tree_posts t' ≡ₚ tree_posts t ++ [newComment]
  ∧ tree_highlights t' ≡ₚ tree_highlights t ++ [inl newComment]
  ∧ placeholderCount t' = placeholderCount t.
Proof.
  intros [path Happ]%patchNewReply_position. split; [|split].
  - by rewrite (appendAt_posts _ _ _ _ Happ).
  - by rewrite (appendAt_highlights _ _ _ _ Happ).
  - rewrite (appendAt_placeholderCount _ _ _ _ Happ). simpl. lia.
Qed.

Lemma patchNewReply_keeps_posts_witness :
  tree_posts PatchSample.thread42Patched ≡ₚ tree_posts Sample.thread42 ++ [Sample.reply99]
  ∧ tree_highlights PatchSample.thread42Patched
      ≡ₚ tree_highlights Sample.thread42 ++ [inl Sample.reply99]
  ∧ placeholderCount PatchSample.thread42Patched = placeholderCount Sample.thread42.
Proof.
  apply (patchNewReply_keeps_posts Sample.thread42 PatchSample.thread42Patched
           Sample.reply99).
  vm_compute. reflexivity.
Defined.

(** X10: two patches in a row.  On a tree with pairwise distinct
    identifiers that does not hold the identifier of the first reply, a
    second reply that answers the first one is attached below it, wherever
    the first reply went. *)
Theorem patchNewReply_twice (t t1 : PostTree) (first second : Status.t) :
  NoDup (Status.id first :: tree_ids t) →
  Status.in_reply_to_id second = Some (Status.id first) →
  patchNewReply t first = Returned t1 →
  ∃ path t2,
    patchNewReply t1 second = Returned t2
    ∧ subtree_at path t2 = Some (StatusNode first [StatusNode second [] true] true)
    ∧ nodeCount t2 = S (S (nodeCount t)).
Proof.
  intros [Hfresh Hnd]%NoDup_cons Hreply Hpatch.
  apply patchNewReply_position in Hpatch as [path Happ].
  destruct (appendAt_defined _ _ _ _ Happ) as [X HX].
  pose proof (appendAt_subtree_at _ _ _ _ _ Happ HX) as HX1.
  assert (Hat : subtree_at (path ++ [length (kids X)]) t1 = Some (newReplyNode first)).
  { apply (subtree_at_snoc _ _ _ _ _ HX1).
    rewrite kids_pushKid. by rewrite lookup_app_r, Nat.sub_diag by lia. }
  assert (Hnd1 : NoDup (tree_ids t1)).
  { rewrite (appendAt_ids _ _ _ _ Happ). simpl. apply NoDup_app. split; [done|].
    split; [|apply NoDup_singleton].
    intros x Hx ->%list_elem_of_singleton. done. }
  destruct (patchNewReply_match t1 second _ _ first Hnd1 Hat eq_refl Hreply)
    as (t2 & Hpatch2 & Happ2).
  exists (path ++ [length (kids X)]), t2. split; [done|]. split.
  - by rewrite (appendAt_subtree_at _ _ _ _ _ Happ2 Hat).
  - rewrite (appendAt_nodeCount _ _ _ _ Happ2), (appendAt_nodeCount _ _ _ _ Happ). simpl. lia.
Qed.

Lemma patchNewReply_twice_witness :
  ∃ path t2,
    patchNewReply PatchSample.thread42Patched PatchSample.reply100 = Returned t2
    ∧ subtree_at path t2
        = Some (StatusNode Sample.reply99 [StatusNode PatchSample.reply100 [] true] true)
    ∧ nodeCount t2 = S (S (nodeCount Sample.thread42)).
Proof.
  apply (patchNewReply_twice Sample.thread42 PatchSample.thread42Patched
           Sample.reply99 PatchSample.reply100).
  - apply (bool_decide_unpack _). vm_compute. exact I.
  - reflexivity.
  - vm_compute. reflexivity.
Defined.

(** * Posts and highlights of a built tree *)

Lemma nodeCount_posts t : nodeCount t = length (tree_posts t) + placeholderCount t.
Proof.
  induction t as [s k h IH|m k h IH] using PostTree_nested_ind; simpl;
    (assert (Hk : sum_list_with nodeCount k
                  = length (k ≫= tree_posts) + sum_list_with placeholderCount k);
     [|lia]);
    (induction k as [|c k IHk]; [done|]);
    apply Forall_cons in IH as [Hc IH];
    rewrite bind_cons, length_app; simpl; rewrite Hc, (IHk IH); lia.
Qed.

Lemma Sourced_raised req pool0 status rootPost i s st T :
  Sourced req pool0 rootPost st T →
  unsortedStatuses st !! i = Some s →
  Sourced req pool0 (length (heap st)) (raisedState status s rootPost i st)
    (raisedShape s rootPost st T).
Proof.
  intros (HInv & Hsub & Hreq & Hhl & Hcount) Hi.
  split; [by apply Inv_raised|]. simpl. rewrite !app_nil_r. split; [|split; [|split]].
  - rewrite (delete_Permutation _ _ _ Hi) in Hsub.
    by rewrite <- Permutation_middle in Hsub.
  - by right.
  - done.
  - lia.
Qed.

Lemma Sourced_Attached req pool0 rootNode st T st' T' :
  Attached rootNode (st, T) (st', T') →
  Sourced req pool0 rootNode st T → Sourced req pool0 rootNode st' T'.
Proof.
  intros Hstep (HInv & Hsub & Hreq & Hhl & Hcount). split; [by eapply Inv_Attached|].
  destruct (Attached_effect _ _ _ _ _ Hstep HInv) as (status & Hpool & [->|[path Happ]]).
  - split; [|done]. rewrite Hpool in Hsub.
    etrans; [|exact Hsub]. apply submseteq_skips_l, submseteq_cons. done.
  - split; [|split; [|split]].
    + rewrite (appendAt_posts _ _ _ _ Happ). simpl.
      rewrite Hpool in Hsub. by rewrite <- (assoc (++)).
    + rewrite (appendAt_posts _ _ _ _ Happ). apply elem_of_app. by left.
    + pose proof (appendAt_highlights _ _ _ _ Happ) as Hperm.
      simpl in Hperm. rewrite app_nil_r, Hhl in Hperm.
      symmetry in Hperm. by apply Permutation_singleton_l in Hperm.
    + rewrite (appendAt_placeholderCount _ _ _ _ Happ), Hcount. done.
Qed.

Lemma buildThreadTree_sourced req anc desc :
  ∃ t, buildThreadTree req anc desc = Some t
       ∧ tree_posts t ⊆+ req :: (anc ++ desc)
       ∧ req ∈ tree_posts t
       ∧ tree_highlights t = [inl req]
       ∧ placeholderCount t = 0.
Proof.
  destruct (buildThreadTree_rule req (Sourced req (anc ++ desc)) anc desc)
    as (r & st & T & _ & Hempty & (_ & Hsub & Hreq & Hhl & Hcount) & Ht).
  - by intros ??? [? _].
  - intros rootPost st T i s HJ (Hi & _ & _)%list_find_Some. by apply Sourced_raised.
  - apply Sourced_Attached.
  - split; [apply Inv_rooted|]. simpl. split; [|split; [left|done]].
    apply submseteq_cons_l. eexists. split; [done|]. done.
  - exists (erase T). rewrite Hempty, app_nil_r in Hsub. done.
Qed.

(** X11: whatever the input, the posts of the returned tree are posts of
    the input, none more often than the input has it; the requested post is
    among them; every node wraps a post, so the tree has at least one node
    and at most one more than the pool has posts. *)
Theorem buildThreadTree_posts_from_input (requestedStatus : Status.t)
    (ancestors descendants : list Status.t) :
  ∃ t, buildThreadTree requestedStatus ancestors descendants = Some t
       ∧ tree_posts t ⊆+ requestedStatus :: (ancestors ++ descendants)
       ∧ requestedStatus ∈ tree_posts t
       ∧ nodeCount t = length (tree_posts t)
       ∧ nodeCount t ≤ S (length (ancestors ++ descendants)).
Proof.
  destruct (buildThreadTree_sourced requestedStatus ancestors descendants)
    as (t & Ht & Hsub & Hreq & _ & Hcount).
  exists t. split; [done|]. split; [done|]. split; [done|].
  assert (Hn : nodeCount t = length (tree_posts t)) by (rewrite nodeCount_posts; lia).
  split; [done|]. rewrite Hn. apply submseteq_length in Hsub. simpl in Hsub. done.
Qed.

(** X12: whatever the input, exactly one node of the returned tree is
    highlighted, and it wraps the requested post. *)
Theorem buildThreadTree_one_highlight (requestedStatus : Status.t)
    (ancestors descendants : list Status.t) :
  ∃ t, buildThreadTree requestedStatus ancestors descendants = Some t
       ∧ tree_highlights t = [inl requestedStatus].
Proof.
  destruct (buildThreadTree_sourced requestedStatus ancestors descendants)
    as (t & Ht & _ & _ & Hhl & _).
  by exists t.
Qed.

(** * The spine and the links of a built tree *)

Lemma tree_links_unfold t :
  tree_links t = (kids t ≫= linksTo (treeStatus t)) ++ (kids t ≫= tree_links).
Proof.
  destruct t as [s k h|m k h]; simpl; [done|].
  assert (Hnil : k ≫= linksTo None = []) by (induction k; [done|by rewrite bind_cons]).
  by rewrite Hnil.
Qed.

Lemma appendAt_treeStatus p c t t' : appendAt p c t = Some t' → treeStatus t' = treeStatus t.
Proof.
  destruct p as [|i p].
  - intros [= <-]. apply treeStatus_pushKid.
  - intros (x & x' & _ & _ & ->)%appendAt_inv_cons. apply treeStatus_setKids.
Qed.

Lemma appendAt_links p c t t' X :
  appendAt p c t = Some t' → subtree_at p t = Some X →
  tree_links t' ≡ₚ tree_links t ++ linksTo (treeStatus X) c ++ tree_links c.
Proof.
  revert t t'. induction p as [|i p IH]; intros t t'.
  - intros [= <-] [= <-].
    rewrite (tree_links_unfold (pushKid _ _)), (tree_links_unfold t).
    rewrite treeStatus_pushKid, kids_pushKid, !bind_app. simpl. rewrite !app_nil_r.
    rewrite <- !(assoc (++)). f_equiv. rewrite !(assoc (++)). f_equiv.
    apply Permutation_app_comm.
  - intros (x & x' & Hi & Hx & ->)%appendAt_inv_cons. simpl. rewrite Hi. intros HX.
    rewrite (tree_links_unfold (setKids _ _)), (tree_links_unfold t).
    rewrite treeStatus_setKids, kids_setKids.
    rewrite (bind_insert_perm tree_links _ _ _ _ _ Hi (IH _ _ Hx HX)).
    rewrite (bind_insert_perm (linksTo (treeStatus t)) _ _ _ x' [] Hi).
    + rewrite app_nil_r. by rewrite (assoc (++)).
    + rewrite app_nil_r. unfold linksTo. by rewrite (appendAt_treeStatus _ _ _ _ Hx).
Qed.

Lemma appendAt_inner_links p c t t' X :
  appendAt p c t = Some t' → subtree_at p t = Some X →
  inner_links t' ≡ₚ inner_links t
    ++ match p with [] => [] | _ :: _ => linksTo (treeStatus X) c end ++ tree_links c.
Proof.
  destruct p as [|i p].
  - intros [= <-] _. unfold inner_links. rewrite kids_pushKid, bind_app. simpl.
    by rewrite app_nil_r.
  - intros (x & x' & Hi & Hx & ->)%appendAt_inv_cons. simpl. rewrite Hi. intros HX.
    unfold inner_links. rewrite kids_setKids.
    by rewrite (bind_insert_perm tree_links _ _ _ _ _ Hi (appendAt_links _ _ _ _ _ Hx HX)).
Qed.

Lemma subtree_links path t X i c p s :
  subtree_at path t = Some X → kids X !! i = Some c →
  treeStatus X = Some p → treeStatus c = Some s → (p, s) ∈ tree_links t.
Proof.
  revert t. induction path as [|j path IH]; intros t; simpl.
  - intros [= ->] Hi Hp Hs. rewrite tree_links_unfold. apply elem_of_app. left.
    apply list_elem_of_bind. exists c. split; [|by eapply list_elem_of_lookup_2].
    unfold linksTo. rewrite Hp, Hs. left.
  - destruct (kids t !! j) as [x|] eqn:Hj; [|done]. intros HX Hi Hp Hs.
    rewrite tree_links_unfold. apply elem_of_app. right.
    apply list_elem_of_bind. exists x. split; [by eapply IH|by eapply list_elem_of_lookup_2].
Qed.

Lemma subtree_inner_links j path t X i c p s :
  subtree_at (j :: path) t = Some X → kids X !! i = Some c →
  treeStatus X = Some p → treeStatus c = Some s → (p, s) ∈ inner_links t.
Proof.
  simpl. destruct (kids t !! j) as [x|] eqn:Hj; [|done]. intros HX Hi Hp Hs.
  apply list_elem_of_bind. exists x.
  split; [by eapply subtree_links|by eapply list_elem_of_lookup_2].
Qed.

Lemma treeStatus_mkTree n k : treeStatus (mkTree n k) = tryGetStatus n.
Proof. by destruct n. Qed.

Lemma osubtree_at_orefs path T X : osubtree_at path T = Some X → oref X ∈ orefs T.
Proof.
  revert T. induction path as [|i path IH]; intros [r n k]; simpl.
  - intros [= <-]. left.
  - destruct (k !! i) as [c|] eqn:Hi; [|done]. intros HX. right.
    apply list_elem_of_bind. exists c. split; [by apply IH|by eapply list_elem_of_lookup_2].
Qed.

Lemma osubtree_at_proper i path T X :
  NoDup (orefs T) → osubtree_at (i :: path) T = Some X → oref X ≠ oref T.
Proof.
  destruct T as [r n k]. simpl. intros [Hr _]%NoDup_cons.
  destruct (k !! i) as [c|] eqn:Hi; [|done]. intros HX%osubtree_at_orefs Heq.
  apply Hr. rewrite <- Heq. apply list_elem_of_bind. exists c.
  split; [done|by eapply list_elem_of_lookup_2].
Qed.

(** ** The upward walk *)

Lemma Climbed_rooted req pool :
  Climbed req pool 0 (rootedState req pool) (ONode 0 (PostTreeStatusNode req [] true) []).
Proof.
  split; [apply Inv_rooted|]. split; [done|]. exists [], req. simpl.
  split; [done|]. split; [done|]. split; [|by repeat split].
  intros [|j] s; simpl; [|by rewrite lookup_nil].
  intros [= <-]. by eexists.
Qed.

Lemma Climbed_raised req pool0 rootPost st T i s :
  Climbed req pool0 rootPost st T →
  list_find (idIs (rootInReplyTo (heap st) rootPost)) (unsortedStatuses st) = Some (i, s) →
  Climbed req pool0 (length (heap st)) (raisedState req s rootPost i st)
    (raisedShape s rootPost st T).
Proof.
  intros (HInv & Hmap & chain & top & Hperm & Hchain & Hspine & Hhead & Hroot & Htop & Hlinks)
         (Hi & Hs & _)%list_find_Some.
  unfold idIs in Hs. rewrite Hroot in Hs.
  split; [by apply Inv_raised|]. split.
  { simpl. rewrite Hmap. apply insert_singleton_eq. }
  exists (s :: chain), s.
  assert (Herase : erase (raisedShape s rootPost st T) = StatusNode s [erase T] false)
    by reflexivity.
  rewrite Herase. split; [|split; [|split; [|split; [|split; [|split]]]]].
  - simpl. rewrite <- Hperm. pose proof (delete_Permutation _ _ _ Hi) as Hdel.
    rewrite Hdel at 2. by rewrite <- Permutation_middle.
  - simpl. rewrite Hhead. done.
  - intros [|j] x; simpl.
    + intros [= <-]. by eexists.
    + intros Hj. destruct (Hspine j x Hj) as (X & HX & Hlabel).
      exists X. split; [done|]. rewrite Hlabel. f_equal.
      apply bool_decide_ext. lia.
  - done.
  - unfold rootInReplyTo. simpl. by rewrite lookup_app_r, Nat.sub_diag by lia.
  - done.
  - rewrite tree_links_unfold. simpl. rewrite Htop, !app_nil_r. simpl.
    apply Forall_cons. split; [|done].
    unfold genuine. simpl. done.
Qed.

Lemma locateRootLoop_stops fuel req rootPost st r st' :
  locateRootLoop fuel req rootPost st = Some (r, st') →
  (Status.in_reply_to_id req = None ∧ r = rootPost ∧ st' = st)
  ∨ list_find (idIs (rootInReplyTo (heap st') r)) (unsortedStatuses st') = None.
Proof.
  revert rootPost st. induction fuel as [|fuel IH]; intros rootPost st; [done|].
  simpl. destruct (Status.in_reply_to_id req) as [target|] eqn:Hreq.
  2:{ intros [= <- <-]. by left. }
  destruct (list_find (idIs (rootInReplyTo (heap st) rootPost)) (unsortedStatuses st))
    as [[i s]|] eqn:Hfind.
  - unfold alloc. intros Hrun. destruct (IH _ _ Hrun) as [(Hnone & _)|Hstop]; [done|by right].
  - intros [= <- <-]. by right.
Qed.

(** ** The attachment loop *)

Lemma indexSound_attachAt rootNode st T parent i status :
  Inv rootNode st T → parent < length (heap st) →
  indexSound rootNode st → indexSound rootNode (attachAt parent i status st).
Proof.
  intros HInv Hlt Hsound k r n s Hk Hne Hn Hs. simpl in Hk, Hn.
  destruct (decide (Status.id status = k)) as [<-|Hkk].
  - rewrite lookup_insert_eq in Hk. injection Hk as <-.
    unfold push_child in Hn. rewrite list_lookup_alter_ne in Hn by lia.
    rewrite lookup_app_r, Nat.sub_diag in Hn by lia. injection Hn as <-.
    simpl in Hs. by injection Hs as <-.
  - rewrite lookup_insert_ne in Hk by done.
    pose proof (inv_idMap _ _ _ HInv k r Hk) as Hr.
    destruct (lookup_lt_is_Some_2 (heap st) r Hr) as [n0 Hn0].
    destruct (lookup_attach (heap st) parent (length (heap st))
                (PostTreeStatusNode status [] false) r n0 Hn0) as (n' & Hn' & Hs').
    rewrite Hn' in Hn. injection Hn as <-.
    eapply Hsound; [done..|]. by rewrite <- Hs'.
Qed.

Lemma indexSound_handleStuck rootNode st T status :
  Inv rootNode st T → last (unsortedStatuses st) = Some status →
  indexSound rootNode st → indexSound rootNode (handleStuck rootNode st).
Proof.
  intros HInv Hlast Hsound. pose proof (Inv_root_bound _ _ _ HInv) as Hroot.
  unfold handleStuck. rewrite Hlast. unfold alloc.
  intros k r n s Hk Hne Hn Hs. simpl in Hk, Hn.
  destruct (decide (Status.id status = k)) as [<-|Hkk].
  - rewrite lookup_insert_eq in Hk. injection Hk as <-.
    unfold push_child in Hn.
    rewrite list_lookup_alter_ne in Hn by (rewrite length_app; simpl; lia).
    rewrite lookup_app_r, Nat.sub_diag in Hn by lia. injection Hn as <-. done.
  - rewrite lookup_insert_ne in Hk by done.
    pose proof (inv_idMap _ _ _ HInv k r Hk) as Hr.
    destruct (lookup_lt_is_Some_2 (heap st) r Hr) as [n0 Hn0].
    destruct (lookup_push_child
                ((heap st ++ [PostTreeStatusNode status [] false])
                   ++ [PostTreePlaceholderNode
                         ("Missing post id " +:+ showNullable (Status.in_reply_to_id status))
                         [length (heap st)] false])
                rootNode (length (heap st)) r n0) as (n' & Hn' & Hs').
    { by do 2 apply lookup_app_l_Some. }
    rewrite Hn' in Hn. injection Hn as <-.
    eapply Hsound; [done..|]. by rewrite <- Hs'.
Qed.

Lemma Linked_graft req chain rootNode st T parent status :
  Linked req chain rootNode st T →
  (parent ≠ rootNode → ∀ n sp, heap st !! parent = Some n → tryGetStatus n = Some sp →
     Status.in_reply_to_id status = Some (Status.id sp)) →
  spineOf chain req (erase (graft parent (leaf (length (heap st)) status) T))
  ∧ Forall genuine (inner_links (erase (graft parent (leaf (length (heap st)) status) T))).
Proof.
  intros (HInv & Hsound & Hspine & Hlinks) Hgen.
  destruct (graft_leaf_cases parent (length (heap st)) status T (inv_nodup _ _ _ HInv))
    as [[_ ->]|(path & X & HX & Hor & Happ)]; [done|].
  split.
  - intros j x Hj. destruct (Hspine j x Hj) as (Y & HY & Hlabel).
    destruct (appendAt_frame _ _ _ _ Happ _ _ HY) as (Y' & HY' & Hlabel' & _).
    exists Y'. split; [done|]. by rewrite Hlabel'.
  - rewrite (appendAt_inner_links _ _ _ _ _ Happ (erase_osubtree_at _ _ _ HX)).
    simpl (tree_links (StatusNode _ _ _)). rewrite app_nil_r.
    apply Forall_app. split; [done|].
    destruct path as [|i path]; [constructor|].
    assert (Hne : parent ≠ rootNode).
    { rewrite <- Hor, <- (inv_root _ _ _ HInv).
      by apply (osubtree_at_proper i path), HX; apply HInv. }
    pose proof (Repr_osubtree_at _ _ _ _ (inv_repr _ _ _ HInv) HX) as HRX.
    destruct X as [r n kX]. simpl in Hor. subst r.
    apply Repr_inv in HRX as (Hn & _ & _).
    simpl. rewrite treeStatus_mkTree. unfold linksTo.
    destruct (tryGetStatus n) as [sp|] eqn:Hsp; [|constructor]. simpl.
    constructor; [|constructor]. unfold genuine. simpl. by eapply Hgen.
Qed.

Lemma Linked_Attached req chain rootNode st T st' T' :
  Attached rootNode (st, T) (st', T') →
  Linked req chain rootNode st T → Linked req chain rootNode st' T'.
Proof.
  intros Hstep HL. pose proof HL as (HInv & Hsound & _).
  split; [by eapply Inv_Attached|].
  inversion Hstep as [? ? i s Hi Hreply|? ? i s pid parent Hi Hreply Hparent|? ? s Hlast Hstuck];
    subst.
  - split; [eapply indexSound_attachAt; [done|by eapply Inv_root_bound|done]|].
    by apply (Linked_graft req chain rootNode).
  - split; [eapply indexSound_attachAt; [done|by eapply inv_idMap|done]|].
    apply (Linked_graft req chain rootNode); [done|]. intros Hne n sp Hn Hsp.
    rewrite Hreply. f_equal. symmetry. by eapply Hsound.
  - split; [by eapply indexSound_handleStuck|].
    by apply (Linked_graft req chain rootNode).
Qed.

(** The walk and the loop together. *)
Lemma buildThreadTree_climb req anc desc :
  ∃ t chain top,
    buildThreadTree req anc desc = Some t
    ∧ chain ++ remainingPool req (anc ++ desc) ≡ₚ anc ++ desc
    ∧ replyChain (chain ++ [req])
    ∧ spineOf chain req t
    ∧ head (chain ++ [req]) = Some top
    ∧ (∀ x, x ∈ remainingPool req (anc ++ desc) →
         Some (Status.id x) ≠ Status.in_reply_to_id top)
    ∧ Forall genuine (inner_links t).
Proof.
  destruct (locateRootLoop_terminates (S (length (anc ++ desc))) req 0
              (rootedState req (anc ++ desc))) as (r & st1 & Hwalk & _); [simpl; lia|].
  rewrite remainingPool_unfold, Hwalk.
  destruct (locateRootLoop_rule req (Climbed req (anc ++ desc))
              (Climbed_raised req (anc ++ desc)) _ _ _ _ _ _
              (Climbed_rooted req (anc ++ desc)) Hwalk)
    as (T1 & HInv1 & Hmap1 & chain & top & Hperm & Hchain & Hspine & Hhead & Hroot & Htop & Hlinks).
  assert (Hstop : ∀ x, x ∈ unsortedStatuses st1 →
                    Some (Status.id x) ≠ Status.in_reply_to_id top).
  { destruct (locateRootLoop_stops _ _ _ _ _ _ Hwalk) as [(Hnone & -> & ->)|Hstop].
    - intros x _. rewrite <- Hroot. unfold rootInReplyTo. simpl. by rewrite Hnone.
    - intros x Hx. rewrite <- Hroot.
      rewrite list_find_None, Forall_forall in Hstop. by apply Hstop. }
  assert (HL1 : Linked req chain r st1 T1).
  { split; [done|]. split; [|split; [done|]].
    - intros k r' n s Hk Hne. rewrite Hmap1 in Hk.
      apply lookup_singleton_Some in Hk as [_ <-]. done.
    - rewrite tree_links_unfold in Hlinks. by apply Forall_app in Hlinks as [_ ?]. }
  destruct (buildState_total req anc desc) as (r' & st2 & Hbuild & Hempty).
  pose proof Hbuild as Hbuild'. rewrite buildState_unfold, Hwalk in Hbuild'.
  destruct (attachStatusesToTree r st1) as [st2'|] eqn:Hattach; [|done].
  injection Hbuild' as <- <-.
  unfold attachStatusesToTree in Hattach.
  destruct (attachLoop_attached _ _ _ _ T1 Hattach) as [T2 Hrtc].
  assert (HL2 : Linked req chain r st2' T2).
  { revert HL1. eapply (rtc_Attached_invariant r (Linked req chain r)); [|done].
    intros. by eapply Linked_Attached. }
  destruct HL2 as (HInv2 & _ & Hspine2 & Hlinks2).
  exists (erase T2), chain, top.
  split; [by eapply buildThreadTree_shape|]. done.
Qed.

Lemma replyChain_last chain req :
  chain ≠ [] → replyChain (chain ++ [req]) →
  ∃ c, c ∈ chain ∧ Status.in_reply_to_id req = Some (Status.id c).
Proof.
  induction chain as [|c chain IH]; [done|]. intros _.
  destruct chain as [|c' chain].
  - simpl. intros [Hlink _]. exists c. split; [left|done].
  - intros [_ Hrest]. destruct (IH ltac:(done) Hrest) as (x & Hx & Hreply).
    exists x. split; [by right|done].
Qed.

(** X13: the upward walk.  The posts it takes out of the pool form a chain
    in which every post answers the one before it and the requested post
    answers the last; they sit on the first-child path of the returned
    tree, root first, with the requested post at the end of the path and
    its node highlighted; the walk only stops when the post at the root
    answers no post left in the pool. *)
Theorem buildThreadTree_spine (requestedStatus : Status.t)
    (ancestors descendants : list Status.t) :
  ∃ t chain top,
    buildThreadTree requestedStatus ancestors descendants = Some t
    ∧ chain ++ remainingPool requestedStatus (ancestors ++ descendants)
        ≡ₚ ancestors ++ descendants
    ∧ replyChain (chain ++ [requestedStatus])
    ∧ (∀ j s, (chain ++ [requestedStatus]) !! j = Some s →
         ∃ X, subtree_at (replicate j 0) t = Some X
              ∧ nodeLabel X = (inl s, bool_decide (j = length chain)))
    ∧ head (chain ++ [requestedStatus]) = Some top
    ∧ ∀ x, x ∈ remainingPool requestedStatus (ancestors ++ descendants) →
        Some (Status.id x) ≠ Status.in_reply_to_id top.
Proof.
  destruct (buildThreadTree_climb requestedStatus ancestors descendants)
    as (t & chain & top & Ht & Hperm & Hchain & Hspine & Hhead & Hstop & _).
  by exists t, chain, top.
Qed.

(** X14: the root of the returned tree is the highlighted node of the
    requested post exactly when no post of the pool has the identifier
    the requested post replies to. *)
Theorem buildThreadTree_root_is_requested (requestedStatus : Status.t)
    (ancestors descendants : list Status.t) :
  ∃ t, buildThreadTree requestedStatus ancestors descendants = Some t
       ∧ (nodeLabel t = (inl requestedStatus, true)
          ↔ ∀ x, x ∈ ancestors ++ descendants →
              Some (Status.id x) ≠ Status.in_reply_to_id requestedStatus).
Proof.
  destruct (buildThreadTree_climb requestedStatus ancestors descendants)
    as (t & chain & top & Ht & Hperm & Hchain & Hspine & Hhead & Hstop & _).
  exists t. split; [done|]. split.
  - intros Hlabel. destruct chain as [|c chain].
    + simpl in Hhead, Hperm. injection Hhead as <-.
      intros x Hx. apply Hstop. by rewrite Hperm.
    + destruct (Hspine 0 c eq_refl) as (X & [= <-] & HX).
      rewrite Hlabel in HX. discriminate HX.
  - intros Hnone. destruct chain as [|c chain].
    + destruct (Hspine 0 requestedStatus eq_refl) as (X & [= <-] & HX). done.
    + destruct (replyChain_last (c :: chain) requestedStatus ltac:(done) Hchain)
        as (x & Hx & Hreply).
      destruct (Hnone x); [|done].
      rewrite <- Hperm. apply elem_of_app. by left.
Qed.

(** X15: below the children of the root every link is a genuine reply:
    a status node that is not the root only has children whose posts
    reply to the identifier of its post. *)
Theorem buildThreadTree_links_genuine (requestedStatus : Status.t)
    (ancestors descendants : list Status.t) :
  ∃ t, buildThreadTree requestedStatus ancestors descendants = Some t
       ∧ ∀ j path X i c p s,
           subtree_at (j :: path) t = Some X → kids X !! i = Some c →
           treeStatus X = Some p → treeStatus c = Some s →
           Status.in_reply_to_id s = Some (Status.id p).
Proof.
  destruct (buildThreadTree_climb requestedStatus ancestors descendants)
    as (t & chain & top & Ht & _ & _ & _ & _ & _ & Hlinks).
  exists t. split; [done|]. intros j path X i c p s HX Hi Hp Hs.
  rewrite Forall_forall in Hlinks.
  apply (Hlinks (p, s)). by eapply subtree_inner_links.
Qed.

(** X16: the root of what the fetcher returns.  Not signed in, it is the
    placeholder saying so; on the patch path it is the root of the
    previous tree with its payload unchanged; on the full-build path it is
    always a status node, also when the context could not be fetched. *)
Theorem fetchPostInfoTree_root
    (unwrapResponse : ∀ A : Type, Response A → Outcome A)
    (props : LoadPostsProps) (signedInState : option Client)
    (previousTree : option PostTree) (t : PostTree) :
  fetchPostInfoTree unwrapResponse props signedInState previousTree = Some (Returned t) →
  (signedInState = None → t = PlaceholderNode "not signed in" [] false)
  ∧ (∀ prev commentId,
       is_Some signedInState → previousTree = Some prev →
       newCommentId props = Some commentId → nodeLabel t = nodeLabel prev)
  ∧ (is_Some signedInState → previousTree = None ∨ newCommentId props = None →
       is_Some (treeStatus t)).
Proof.
  intros Hfetch. split; [|split].
  - intros ->. simpl in Hfetch. by injection Hfetch as <-.
  - intros prev commentId [client ->] -> Hid. simpl in Hfetch. rewrite Hid in Hfetch.
    destruct (getStatus client commentId) as [response|e]; [|done].
    destruct (decide (status response = 200)); [|done].
    injection Hfetch as Hpatch.
    apply patchNewReply_position in Hpatch as [path Happ].
    by apply appendAt_nodeLabel in Happ.
  - intros [client ->] Hpath.
    assert (Hfull : match getStatus client (postId props) with
                    | Thrown e => Some (Thrown e)
                    | Returned response =>
                        match unwrapResponse _ response with
                        | Thrown e => Some (Thrown e)
                        | Returned requestedStatus =>
                            Returned <$> fullBuild unwrapResponse client (postId props)
                                           requestedStatus
                        end
                    end = Some (Returned t)).
    { simpl in Hfetch. destruct previousTree as [prev|]; [|done].
      destruct (newCommentId props) as [commentId|]; [|done].
      by destruct Hpath. }
    destruct (getStatus client (postId props)) as [response|e]; [|done].
    destruct (unwrapResponse _ response) as [requestedStatus|e]; [|done].
    destruct (fullBuild _ _ _ _) as [t'|] eqn:Hbuild; [|done].
    injection Hfull as ->. unfold fullBuild in Hbuild.
    destruct (fetchContext _ _ _) as [ctx|e].
    + destruct (buildThreadTree_climb requestedStatus (ancestors ctx) (descendants ctx))
        as (t' & chain & top & Ht & _ & _ & Hspine & Hhead & _).
      rewrite Hbuild in Ht. injection Ht as <-.
      destruct (Hspine 0 top) as (X & [= <-] & HX).
      { by destruct chain. }
      destruct t; [by eexists|done].
    + injection Hbuild as <-. by eexists.
Qed.

Lemma fetchPostInfoTree_root_witness :
  fetchPostInfoTree unwrapOn200 (mkLoadProps "A" None) (Some Sample.client) None
    = Some (Returned (StatusNode Sample.B [StatusNode Sample.A [] true] false))
  ∧ is_Some (treeStatus (StatusNode Sample.B [StatusNode Sample.A [] true] false)).
Proof.
  assert (Hfetch : fetchPostInfoTree unwrapOn200 (mkLoadProps "A" None)
                     (Some Sample.client) None
                   = Some (Returned (StatusNode Sample.B [StatusNode Sample.A [] true] false)))
    by (vm_compute; reflexivity).
  split; [exact Hfetch|].
  apply (proj2 (proj2 (fetchPostInfoTree_root unwrapOn200 (mkLoadProps "A" None)
                         (Some Sample.client) None _ Hfetch))).
  - by eexists.
  - by left.
Defined.

(** ** The order of the pool and the spine *)

Lemma Linked_build req chain anc desc r st1 T1 :
  locateRootLoop (S (length (anc ++ desc))) req 0 (rootedState req (anc ++ desc))
    = Some (r, st1) →
  Linked req chain r st1 T1 →
  ∃ t, buildThreadTree req anc desc = Some t ∧ spineOf chain req t.
Proof.
  intros Hwalk HL1.
  destruct (buildState_total req anc desc) as (r' & st2 & Hbuild & Hempty).
  pose proof Hbuild as Hbuild'. rewrite buildState_unfold, Hwalk in Hbuild'.
  destruct (attachStatusesToTree r st1) as [st2'|] eqn:Hattach; [|done].
  injection Hbuild' as <- <-.
  unfold attachStatusesToTree in Hattach.
  destruct (attachLoop_attached _ _ _ _ T1 Hattach) as [T2 Hrtc].
  assert (HL2 : Linked req chain r st2' T2).
  { revert HL1. eapply (rtc_Attached_invariant r (Linked req chain r)); [|done].
    intros. by eapply Linked_Attached. }
  destruct HL2 as (HInv2 & _ & Hspine2 & _).
  exists (erase T2). split; [by eapply buildThreadTree_shape|done].
Qed.

Lemma Climbed_Linked req pool r st1 T1 :
  Climbed req pool r st1 T1 →
  ∃ chain, spineOf chain req (erase T1)
           ∧ ∀ T, Inv r st1 T → erase T = erase T1 → Linked req chain r st1 T.
Proof.
  intros (HInv1 & Hmap1 & chain & top & _ & _ & Hspine & _ & _ & _ & Hlinks).
  exists chain. split; [done|]. intros T HInv Heq.
  split; [done|]. split; [|split].
  - intros k r' n s Hk Hne. rewrite Hmap1 in Hk.
    apply lookup_singleton_Some in Hk as [_ <-]. done.
  - by rewrite Heq.
  - rewrite Heq. rewrite tree_links_unfold in Hlinks.
    by apply Forall_app in Hlinks as [_ ?].
Qed.

(** X17: when the posts of the pool have pairwise distinct identifiers,
    the upward walk does not depend on the order of the pool: for two
    pools that are permutations of each other the returned trees have the
    same posts on their first-child paths down to the requested post and
    the same root payload. *)
Theorem permuted_pools_same_spine (requestedStatus : Status.t)
    (ancestors1 descendants1 ancestors2 descendants2 : list Status.t) :
  ancestors1 ++ descendants1 ≡ₚ ancestors2 ++ descendants2 →
  NoDup (Status.id <$> ancestors1 ++ descendants1) →
  ∃ t1 t2 chain,
    buildThreadTree requestedStatus ancestors1 descendants1 = Some t1
    ∧ buildThreadTree requestedStatus ancestors2 descendants2 = Some t2
    ∧ spineOf chain requestedStatus t1
    ∧ spineOf chain requestedStatus t2
    ∧ nodeLabel t1 = nodeLabel t2.
Proof.
  intros Hperm Hnd.
  destruct (locateRootLoop_terminates (S (length (ancestors1 ++ descendants1)))
              requestedStatus 0
              (rootedState requestedStatus (ancestors1 ++ descendants1)))
    as (r & st1 & Hwalk & _); [simpl; lia|].
  destruct (locateRootLoop_perm _ _ _ _ _ _ _ _ _ Hperm Hnd Hwalk)
    as (st1' & Hwalk' & Hheap & _ & _).
  rewrite (Permutation_length Hperm) in Hwalk'.
  destruct (locateRootLoop_rule requestedStatus (Climbed requestedStatus _)
              (Climbed_raised requestedStatus _) _ _ _ _ _ _
              (Climbed_rooted requestedStatus _) Hwalk) as [T1 HC1].
  destruct (locateRootLoop_rule requestedStatus (Climbed requestedStatus _)
              (Climbed_raised requestedStatus _) _ _ _ _ _ _
              (Climbed_rooted requestedStatus _) Hwalk') as [T1' HC1'].
  pose proof HC1 as (HInv1 & _). pose proof HC1' as (HInv1' & _).
  assert (Heq : erase T1' = erase T1).
  { pose proof (treeOf_Repr_heap _ _ (inv_repr _ _ _ HInv1) (inv_nodup _ _ _ HInv1)) as H1.
    pose proof (treeOf_Repr_heap _ _ (inv_repr _ _ _ HInv1') (inv_nodup _ _ _ HInv1')) as H2.
    rewrite (inv_root _ _ _ HInv1) in H1. rewrite (inv_root _ _ _ HInv1'), Hheap in H2.
    congruence. }
  destruct (Climbed_Linked _ _ _ _ _ HC1) as (chain & Hspine & HL1).
  assert (HL1' : Linked requestedStatus chain r st1' T1').
  { destruct HC1' as (_ & Hmap1' & _ & _ & _ & _ & _ & _ & _ & _ & Hlinks').
    split; [done|]. split; [|split].
    - intros k r' n s Hk Hne. rewrite Hmap1' in Hk.
      apply lookup_singleton_Some in Hk as [_ <-]. done.
    - by rewrite Heq.
    - rewrite tree_links_unfold in Hlinks'. by apply Forall_app in Hlinks' as [_ ?]. }
  destruct (Linked_build _ _ _ _ _ _ _ Hwalk (HL1 T1 HInv1 eq_refl)) as (t1 & Ht1 & Hs1).
  destruct (Linked_build _ _ _ _ _ _ _ Hwalk' HL1') as (t2 & Ht2 & Hs2).
  exists t1, t2, chain. split; [done|]. split; [done|]. split; [done|]. split; [done|].
  assert (Hj : ∃ top, (chain ++ [requestedStatus]) !! 0 = Some top)
    by (destruct chain; simpl; eauto).
  destruct Hj as [top Hj].
  destruct (Hs1 0 top Hj) as (X1 & [= <-] & Hl1).
  destruct (Hs2 0 top Hj) as (X2 & [= <-] & Hl2).
  by rewrite Hl1, Hl2.
Qed.

Lemma permuted_pools_same_spine_witness :
  ∃ t1 t2 chain,
    buildThreadTree Sample.S [Sample.P; Sample.R] [] = Some t1
    ∧ buildThreadTree Sample.S [Sample.R] [Sample.P] = Some t2
    ∧ spineOf chain Sample.S t1
    ∧ spineOf chain Sample.S t2
    ∧ nodeLabel t1 = nodeLabel t2.
Proof.
  apply (permuted_pools_same_spine Sample.S [Sample.P; Sample.R] [] [Sample.R] [Sample.P]).
  - simpl. apply perm_swap.
  - apply (bool_decide_unpack _). vm_compute. exact I.
Defined.

(** * Top-level posts of the pool *)

Lemma graft_root rootNode st T r s :
  Inv rootNode st T →
  erase (graft rootNode (leaf r s) T) = pushKid (StatusNode s [] false) (erase T).
Proof.
  intros HInv.
  destruct (graft_leaf_cases rootNode r s T (inv_nodup _ _ _ HInv))
    as [[Hout _]|(path & X & HX & Hor & Happ)].
  - destruct Hout. rewrite <- (inv_root _ _ _ HInv). apply oref_in_orefs.
  - destruct path as [|i path].
    + simpl in Happ. by injection Happ as <-.
    + destruct (osubtree_at_proper i path T X (inv_nodup _ _ _ HInv) HX).
      by rewrite Hor, (inv_root _ _ _ HInv).
Qed.

Lemma underRoot_graft x rootNode st T p r s :
  Inv rootNode st T → underRoot x (erase T) → underRoot x (erase (graft p (leaf r s) T)).
Proof.
  intros HInv (i & c & Hi & Hlabel).
  destruct (graft_leaf_cases p r s T (inv_nodup _ _ _ HInv))
    as [[_ ->]|(path & X & _ & _ & Happ)]; [by exists i, c|].
  destruct (appendAt_frame _ _ _ _ Happ [i] c) as (c' & Hc' & Hlabel' & _).
  { simpl. by rewrite Hi. }
  simpl in Hc'.
  destruct (kids (erase (graft p (leaf r s) T)) !! i) as [k|] eqn:Hk; [|done].
  injection Hc' as ->.
  exists i, c'. split; [done|]. by rewrite Hlabel'.
Qed.

Lemma underRoot_pushed x t : underRoot x (pushKid (StatusNode x [] false) t).
Proof.
  exists (length (kids t)), (StatusNode x [] false). split; [|done].
  rewrite kids_pushKid. by rewrite lookup_app_r, Nat.sub_diag by lia.
Qed.

Lemma TopLevelKept_Attached pool1 rootNode st T st' T' :
  Attached rootNode (st, T) (st', T') →
  TopLevelKept pool1 rootNode st T → TopLevelKept pool1 rootNode st' T'.
Proof.
  intros Hstep [HInv Hkept]. split; [by eapply Inv_Attached|].
  intros x Hx Htop.
  inversion Hstep as [? ? i s Hi Hreply|? ? i s pid parent Hi Hreply Hparent|? ? s Hlast Hstuck];
    subst.
  - destruct (Hkept x Hx Htop) as [Hin|Hunder].
    + rewrite (delete_Permutation _ _ _ Hi) in Hin.
      apply elem_of_cons in Hin as [->|Hin]; [|by left].
      right. rewrite (graft_root _ _ _ _ _ HInv). apply underRoot_pushed.
    + right. by eapply underRoot_graft.
  - destruct (Hkept x Hx Htop) as [Hin|Hunder].
    + rewrite (delete_Permutation _ _ _ Hi) in Hin.
      apply elem_of_cons in Hin as [->|Hin]; [congruence|by left].
    + right. by eapply underRoot_graft.
  - destruct (Hkept x Hx Htop) as [Hin|Hunder].
    + destruct (Hstuck x Hin) as (parentId & Hreply & _). congruence.
    + right. by eapply underRoot_graft.
Qed.

(** X18: every top-level post that the upward walk leaves in the pool
    becomes a child of the root: it is never dropped and never put below
    another post. *)
Theorem buildThreadTree_top_level_under_root (requestedStatus : Status.t)
    (ancestors descendants : list Status.t) :
  ∃ t, buildThreadTree requestedStatus ancestors descendants = Some t
       ∧ ∀ x, x ∈ remainingPool requestedStatus (ancestors ++ descendants) →
           Status.in_reply_to_id x = None →
           ∃ i c, kids t !! i = Some c ∧ nodeLabel c = (inl x, false).
Proof.
  destruct (locateRootLoop_terminates (S (length (ancestors ++ descendants)))
              requestedStatus 0
              (rootedState requestedStatus (ancestors ++ descendants)))
    as (r & st1 & Hwalk & _); [simpl; lia|].
  rewrite remainingPool_unfold, Hwalk.
  destruct (locateRootLoop_rule requestedStatus Inv
              (λ rootPost st T i s HInv _, Inv_raised _ s _ i _ _ HInv)
              _ _ _ _ _ _ (Inv_rooted _ _) Hwalk) as [T1 HInv1].
  destruct (buildState_total requestedStatus ancestors descendants)
    as (r' & st2 & Hbuild & Hempty).
  pose proof Hbuild as Hbuild'. rewrite buildState_unfold, Hwalk in Hbuild'.
  destruct (attachStatusesToTree r st1) as [st2'|] eqn:Hattach; [|done].
  injection Hbuild' as <- <-.
  unfold attachStatusesToTree in Hattach.
  destruct (attachLoop_attached _ _ _ _ T1 Hattach) as [T2 Hrtc].
  assert (HK : TopLevelKept (unsortedStatuses st1) r st2' T2).
  { eapply (rtc_Attached_invariant r (TopLevelKept (unsortedStatuses st1) r)); [|done|].
    - intros. by eapply TopLevelKept_Attached.
    - split; [done|]. intros x Hx _. by left. }
  destruct HK as [HInv2 Hkept].
  exists (erase T2). split; [by eapply buildThreadTree_shape|].
  intros x Hx Htop. destruct (Hkept x Hx Htop) as [Hin|Hunder]; [|done].
  rewrite Hempty in Hin. by apply elem_of_nil in Hin.
Qed.

(** * A patch after a full build *)

Lemma patchNewReply_NoDup_returns t newComment :
  NoDup (tree_ids t) → ∃ t', patchNewReply t newComment = Returned t'.
Proof.
  intros Hnd. destruct (Status.in_reply_to_id newComment) as [tid|] eqn:Htarget.
  - destruct (decide (tid ∈ tree_ids t)) as [Hin|Hout].
    + destruct (tree_ids_subtree_at t tid Hin) as (path & X & s & Hsub & Hs & <-).
      destruct (patchNewReply_match t newComment path X s Hnd Hsub Hs Htarget)
        as (t' & Hpatch & _).
      by exists t'.
    + eexists. apply (patchNewReply_nomatch t newComment Hnd).
      rewrite Htarget. intros x Hx [= ->]. done.
  - eexists. apply (patchNewReply_nomatch t newComment Hnd).
    rewrite Htarget. done.
Qed.

Lemma buildThreadTree_NoDup req anc desc :
  NoDup (Status.id req :: (Status.id <$> anc ++ desc)) →
  ∃ t, buildThreadTree req anc desc = Some t ∧ NoDup (tree_ids t).
Proof.
  intros Hnd.
  set (input := Status.id req :: (Status.id <$> anc ++ desc)) in *.
  destruct (buildThreadTree_rule req (idsAccounted input) anc desc)
    as (r & st & T & _ & Hempty & [_ Hsub] & Ht).
  - by intros ??? [? _].
  - intros rootPost st T i s HJ (Hi & _ & _)%list_find_Some.
    by apply idsAccounted_raised.
  - apply idsAccounted_Attached.
  - split; [apply Inv_rooted|]. done.
  - rewrite Hempty, app_nil_r in Hsub. exists (erase T). split; [done|].
    by eapply NoDup_submseteq_mono.
Qed.

(** X19: the page after a comment.  When the requested post and the posts
    of the context have pairwise distinct identifiers, patching the tree of
    a full build with any new reply returns: the revisit check does not
    fire.  The patched tree has one node more, and its highlighted nodes
    are those of the requested post and of the new reply. *)
Theorem patch_after_build_returns (requestedStatus newComment : Status.t)
    (ancestors descendants : list Status.t) :
  NoDup (Status.id requestedStatus :: (Status.id <$> ancestors ++ descendants)) →
  ∃ t t',
    buildThreadTree requestedStatus ancestors descendants = Some t
    ∧ patchNewReply t newComment = Returned t'
    ∧ nodeCount t' = S (nodeCount t)
    ∧ tree_highlights t' ≡ₚ [inl requestedStatus; inl newComment].
Proof.
  intros Hnd.
  destruct (buildThreadTree_NoDup _ _ _ Hnd) as (t & Ht & Hids).
  destruct (buildThreadTree_sourced requestedStatus ancestors descendants)
    as (t0 & Ht0 & _ & _ & Hhl & _).
  rewrite Ht in Ht0. injection Ht0 as <-.
  destruct (patchNewReply_NoDup_returns t newComment Hids) as [t' Hpatch].
  exists t, t'. split; [done|]. split; [done|].
  apply patchNewReply_position in Hpatch as [path Happ]. split.
  - rewrite (appendAt_nodeCount _ _ _ _ Happ). simpl. lia.
  - by rewrite (appendAt_highlights _ _ _ _ Happ), Hhl.
Qed.

Lemma patch_after_build_returns_witness :
  ∃ t t',
    buildThreadTree Sample.S [Sample.P; Sample.R] [] = Some t
    ∧ patchNewReply t (Status.mk "T" (Some "S") None) = Returned t'
    ∧ nodeCount t' = S (nodeCount t)
    ∧ tree_highlights t' ≡ₚ [inl Sample.S; inl (Status.mk "T" (Some "S") None)].
Proof.
  apply (patch_after_build_returns Sample.S (Status.mk "T" (Some "S") None)
           [Sample.P; Sample.R] []).
  apply (bool_decide_unpack _). vm_compute. exact I.
Defined.

(** * The order of the children in a flat thread *)

Lemma taken_cons {A} (x : A) l : taken (x :: l) = x :: taken (drop 1 l).
Proof. by destruct l. Qed.

Lemma skipped_cons {A} (x : A) l : skipped (x :: l) = take 1 l ++ skipped (drop 1 l).
Proof. by destruct l. Qed.

Lemma taken_skipped_length {A} (l : list A) :
  length (taken l) + length (skipped l) = length l ∧ length (skipped l) ≤ length (taken l).
Proof.
  assert (H : ∀ n (l : list A), length l ≤ n →
            length (taken l) + length (skipped l) = length l
            ∧ length (skipped l) ≤ length (taken l)); [|by apply (H (length l))].
  clear l. induction n as [|n IH]; intros [|x [|y l]] Hlen; simpl in *; try lia.
  destruct (IH l) as [? ?]; lia.
Qed.

Lemma skipped_elem {A} (l : list A) y : y ∈ skipped l → y ∈ l.
Proof.
  assert (H : ∀ n (l : list A), length l ≤ n → y ∈ skipped l → y ∈ l);
    [|by apply (H (length l))].
  clear l. induction n as [|n IH]; intros [|x [|z l]] Hlen; simpl in *;
    try (by intros ?%elem_of_nil); try lia.
  intros [->|Hy]%elem_of_cons; [right; left|].
  do 2 right. apply IH; [lia|done].
Qed.

Lemma passOrder_cons {A} fuel (x : A) l :
  passOrder (S fuel) (x :: l) = taken (x :: l) ++ passOrder fuel (skipped (x :: l)).
Proof. reflexivity. Qed.

Lemma attachLoop_unfold fuel rootNode st :
  attachLoop (S fuel) rootNode st =
  match unsortedStatuses st with
  | [] => Some st
  | _ :: _ =>
      match attachPass rootNode st with
      | None => None
      | Some (st', false) => Some st'
      | Some (st', true) => attachLoop fuel rootNode st'
      end
  end.
Proof. reflexivity. Qed.

Lemma passOrder_nil {A} fuel : passOrder fuel (@nil A) = [].
Proof. by destruct fuel. Qed.

Lemma foldl_pushStatus t l :
  foldl pushStatus t l = setKids (kids t ++ ((λ s, StatusNode s [] false) <$> l)) t.
Proof.
  revert t. induction l as [|x l IH]; intros t; simpl.
  - rewrite app_nil_r. by destruct t.
  - rewrite IH. unfold pushStatus. rewrite kids_pushKid, <- (assoc (++)). by destruct t.
Qed.

Lemma drop_delete_next {A} (l : list A) i x :
  l !! i = Some x → drop (S i) (delete i l) = drop (S (S i)) l.
Proof.
  intros Hi. pose proof (lookup_lt_Some _ _ _ Hi) as Hlt.
  rewrite delete_take_drop.
  rewrite drop_app_ge by (rewrite length_take; lia).
  rewrite length_take, drop_drop. f_equal. lia.
Qed.

Lemma take_delete_next {A} (l : list A) i x :
  l !! i = Some x → take (S i) (delete i l) = take i l ++ take 1 (drop (S i) l).
Proof.
  intros Hi. pose proof (lookup_lt_Some _ _ _ Hi) as Hlt.
  rewrite delete_take_drop.
  rewrite take_app_ge by (rewrite length_take; lia).
  rewrite length_take. do 2 f_equal. lia.
Qed.

Section Flat.
Variable req : Status.t.
Variable rootNode : nat.

Lemma forLoop_flat fuel : ∀ i numAdded st T,
  Inv rootNode st T → idMap st !! Status.id req = Some rootNode →
  Forall (flatReply req) (unsortedStatuses st) →
  length (unsortedStatuses st) - i < fuel →
  ∃ st' T',
    forLoop fuel rootNode i numAdded st
      = Some (numAdded + length (taken (drop i (unsortedStatuses st))), st')
    ∧ Inv rootNode st' T' ∧ idMap st' !! Status.id req = Some rootNode
    ∧ erase T' = foldl pushStatus (erase T) (taken (drop i (unsortedStatuses st)))
    ∧ unsortedStatuses st'
        = take i (unsortedStatuses st) ++ skipped (drop i (unsortedStatuses st)).
Proof.
  induction fuel as [|fuel IH]; intros i numAdded st T HInv Hreq Hflat Hfuel; [lia|].
  simpl. destruct (unsortedStatuses st !! i) as [x|] eqn:Hi.
  2:{ apply lookup_ge_None in Hi. rewrite drop_ge, take_ge by lia. simpl.
      exists st, T. rewrite Nat.add_0_r, app_nil_r. done. }
  pose proof (lookup_lt_Some _ _ _ Hi) as Hlt.
  assert (Hx : flatReply req x).
  { rewrite Forall_forall in Hflat. apply Hflat. by eapply list_elem_of_lookup_2. }
  destruct Hx as [Hreply Hid].
  assert (Hrun : match Status.in_reply_to_id x with
                 | Some parentId =>
                     match idMap st !! parentId with
                     | Some existingParent =>
                         forLoop fuel rootNode (S i) (S numAdded)
                           (attachAt existingParent i x st)
                     | None => forLoop fuel rootNode (S i) numAdded st
                     end
                 | None => forLoop fuel rootNode (S i) (S numAdded) (attachAt rootNode i x st)
                 end
                 = forLoop fuel rootNode (S i) (S numAdded) (attachAt rootNode i x st)).
  { destruct Hreply as [->| ->]; [done|]. by rewrite Hreq. }
  rewrite Hrun. clear Hrun.
  destruct (IH (S i) (S numAdded) (attachAt rootNode i x st)
              (graft rootNode (leaf (length (heap st)) x) T))
    as (st' & T' & Hfor & HInv' & Hreq' & Herase & Hpool).
  - apply Inv_attachAt; [done|]. by eapply Inv_root_bound.
  - simpl. by rewrite lookup_insert_ne.
  - rewrite attachAt_pool. rewrite Forall_forall in Hflat. apply Forall_forall.
    intros y Hy. apply Hflat. rewrite (delete_Permutation _ _ _ Hi). by right.
  - rewrite attachAt_pool. pose proof (length_delete_lookup _ _ _ Hi). lia.
  - rewrite attachAt_pool, (drop_delete_next _ _ _ Hi) in Hfor, Herase, Hpool.
    rewrite (take_delete_next _ _ _ Hi) in Hpool.
    rewrite (drop_S _ _ _ Hi), taken_cons, skipped_cons, drop_drop.
    replace (S i + 1) with (S (S i)) by lia.
    exists st', T'. split; [|split; [done|split; [done|split]]].
    + rewrite Hfor. do 2 f_equal. simpl. lia.
    + rewrite Herase, (graft_root _ _ _ _ _ HInv). done.
    + by rewrite Hpool, <- (assoc (++)).
Qed.

Lemma attachLoop_flat fuel : ∀ st T,
  Inv rootNode st T → idMap st !! Status.id req = Some rootNode →
  Forall (flatReply req) (unsortedStatuses st) →
  length (unsortedStatuses st) < fuel →
  ∃ st' T',
    attachLoop fuel rootNode st = Some st'
    ∧ Inv rootNode st' T'
    ∧ erase T' = foldl pushStatus (erase T) (passOrder fuel (unsortedStatuses st)).
Proof.
  induction fuel as [|fuel IH]; intros st T HInv Hreq Hflat Hfuel; [lia|].
  rewrite attachLoop_unfold.
  destruct (unsortedStatuses st) as [|x l] eqn:Hpool.
  { by exists st, T. }
  destruct (forLoop_flat (S (length (unsortedStatuses st))) 0 0 st T HInv Hreq)
    as (st1 & T1 & Hfor & HInv1 & Hreq1 & Herase1 & Hpool1); [by rewrite Hpool|lia|].
  rewrite drop_0, Nat.add_0_l in Hfor. rewrite drop_0 in Herase1.
  rewrite drop_0, take_0, app_nil_l in Hpool1.
  unfold attachPass. rewrite Hfor. rewrite Hpool in Herase1, Hpool1.
  pose proof (taken_skipped_length (x :: l)) as [Hsum Hle].
  rewrite passOrder_cons.
  destruct (unsortedStatuses st1) as [|y l1] eqn:Hrest.
  - exists st1, T1. split; [done|]. split; [done|].
    by rewrite <- Hpool1, passOrder_nil, app_nil_r.
  - rewrite Hpool.
    destruct (decide (length (taken (x :: l)) = 0)) as [Hzero|_].
    { rewrite taken_cons in Hzero. simpl in Hzero. lia. }
    destruct (IH st1 T1 HInv1 Hreq1) as (st2 & T2 & Hloop & HInv2 & Herase2).
    + rewrite Hrest, Hpool1. rewrite Forall_forall in Hflat. apply Forall_forall.
      intros z Hz. apply Hflat. by apply skipped_elem.
    + rewrite Hrest, Hpool1.
      assert (0 < length (taken (x :: l))) by (rewrite taken_cons; simpl; lia). lia.
    + exists st2, T2. split; [done|]. split; [done|].
      rewrite Herase2, Herase1, Hrest, Hpool1, <- foldl_app. done.
Qed.
End Flat.

(** X20: a flat thread.  When the requested post is top-level and every
    post of the pool is top-level or answers the requested post (and none
    has its identifier), all posts become children of the root, but not in
    the order of the pool: every pass of the [for] loop attaches the posts
    at every other position of what is left, because the index moves on
    after each removal. *)
Theorem flat_thread_children_order (requestedStatus : Status.t)
    (ancestors descendants : list Status.t) :
  Status.in_reply_to_id requestedStatus = None →
  Forall (flatReply requestedStatus) (ancestors ++ descendants) →
  buildThreadTree requestedStatus ancestors descendants
    = Some (StatusNode requestedStatus
              ((λ s, StatusNode s [] false)
                 <$> passOrder (S (length (ancestors ++ descendants)))
                       (ancestors ++ descendants))
              true).
Proof.
  intros Htop Hflat.
  assert (Hwalk : locateRootLoop (S (length (ancestors ++ descendants))) requestedStatus 0
                    (rootedState requestedStatus (ancestors ++ descendants))
                  = Some (0, rootedState requestedStatus (ancestors ++ descendants))).
  { simpl. by rewrite Htop. }
  destruct (attachLoop_flat requestedStatus 0 (S (length (ancestors ++ descendants)))
              (rootedState requestedStatus (ancestors ++ descendants))
              (ONode 0 (PostTreeStatusNode requestedStatus [] true) []))
    as (st2 & T2 & Hloop & HInv2 & Herase).
  - apply Inv_rooted.
  - simpl. apply lookup_singleton_eq.
  - done.
  - simpl. lia.
  - assert (Hbuild : buildState requestedStatus ancestors descendants = Some (0, st2)).
    { rewrite buildState_unfold, Hwalk. unfold attachStatusesToTree.
      simpl (unsortedStatuses (rootedState _ _)). by rewrite Hloop. }
    rewrite (buildThreadTree_shape _ _ _ _ _ _ Hbuild HInv2). f_equal.
    rewrite Herase, foldl_pushStatus. done.
Qed.

Lemma flat_thread_children_order_witness :
  buildThreadTree Sample.P []
    [FlatSample.a; FlatSample.b; FlatSample.c; FlatSample.d]
    = Some (StatusNode Sample.P
              [StatusNode FlatSample.a [] false; StatusNode FlatSample.c [] false;
               StatusNode FlatSample.b [] false; StatusNode FlatSample.d [] false]
              true).
Proof.
  apply (flat_thread_children_order Sample.P []
           [FlatSample.a; FlatSample.b; FlatSample.c; FlatSample.d]).
  - reflexivity.
  - apply (bool_decide_unpack _). vm_compute. exact I.
Defined.

(** * Pools in which every post answers a post of the context *)

Section Reached.
Variable req : Status.t.
Variable pool1 : list Status.t.
Hypothesis resolves_pool1 : Forall (Resolves req pool1) pool1.



End Reached.



